(** * Beyond_Call: capture adapter, revision store, latest-artifact lookup

    A shallow embedding of

    - [src-tauri/macos/screen_capture_audio.swift]: the native system-audio
      capture adapter ([SystemAudioRecorder]), its level meter
      ([computeRmsLevel]), telemetry throttle ([emitTelemetry]), deferred
      writer initialisation and shutdown sequence;
    - the React front end: [latestByType] over the records of
      [src/lib/types.ts];
    - the revision store (transcript / artifact revisions and staleness),
      whose implementation lives in the Rust backend.

    Part I holds the definitions, Part II the theorems. *)

From Stdlib Require Import ZArith QArith List Bool Lia Lqa Ascii String.
From Stdlib Require Import Floats.SpecFloat.
From Stdlib Require Import Permutation.
From Stdlib Require Strings.Byte.
Import ListNotations.

Local Open Scope Z_scope.

Set Implicit Arguments.

(* ===================================================================== *)
(** * Part I — the embedding                                              *)
(* ===================================================================== *)

(** ** Swift's [Float]: IEEE 754 binary32

    [Float] values are modelled exactly, as [spec_float] with a 24-bit
    significand and exponent bound 128; every arithmetic operation rounds
    to nearest-even as the hardware does. *)

Module Float32.

Definition prec : Z := 24.
Definition emax : Z := 128.

Definition float32 := spec_float.

Definition add : float32 -> float32 -> float32 := SFadd prec emax.
Definition mul : float32 -> float32 -> float32 := SFmul prec emax.
Definition div : float32 -> float32 -> float32 := SFdiv prec emax.
Definition sqrt : float32 -> float32 := SFsqrt prec emax.

(** [a < b], [a <= b] and [a >= b] on [Float]; every comparison with a NaN
    is false. *)
Definition ltb : float32 -> float32 -> bool := SFltb.
Definition leb : float32 -> float32 -> bool := SFleb.
Definition geb (a b : float32) : bool := SFleb b a.

(** [Float(n)] for an integer [n]: rounded to nearest. *)
Definition of_Z (n : Z) : float32 := binary_normalize prec emax n 0 false.

(** The literals of the source. *)
Definition zero : float32 := S754_zero false.
Definition one : float32 := S754_finite false 8388608 (-23).
Definition lit_0_75 : float32 := S754_finite false 12582912 (-24).
Definition lit_0_25 : float32 := S754_finite false 8388608 (-25).
Definition lit_32768 : float32 := S754_finite false 8388608 (-8).
(** [2.8] is not representable; the compiler picks the nearest binary32,
    [0x40333333 = 11744051 * 2^-22]. *)
Definition lit_2_8 : float32 := S754_finite false 11744051 (-22).

(** Decoding of the 32 bits of a [Float] held in memory. *)
Definition of_bits (u : Z) : float32 :=
  let s := Z.testbit u 31 in
  let e := Z.land (Z.shiftr u 23) 255 in
  let m := Z.land u 8388607 in
  if e =? 255 then (if m =? 0 then S754_infinity s else S754_nan)
  else if e =? 0 then
    match m with Zpos p => S754_finite s p (-149) | _ => S754_zero s end
  else
    match m + 8388608 with
    | Zpos p => S754_finite s p (e - 150)
    | _ => S754_nan
    end.

(** Swift's generic [min] and [max] on [Comparable]
    ([return y < x ? y : x] and [return y >= x ? y : x]). *)
Definition min (x y : float32) : float32 := if ltb y x then y else x.
Definition max (x y : float32) : float32 := if geb y x then y else x.

(** [extension Comparable { func clamped(to:) }] at [0...1]:
    [min(max(self, range.lowerBound), range.upperBound)]. *)
Definition clamped (x lower upper : float32) : float32 :=
  min (max x lower) upper.

(** [0 <= x <= 1] as [Float] comparisons (false for NaN). *)
Definition in_unit (x : float32) : bool := leb zero x && leb x one.

Definition is_nan (x : float32) : bool :=
  match x with S754_nan => true | _ => false end.

(** Zero of either sign, or a positive finite or infinite value. *)
Definition nonneg (x : float32) : bool :=
  match x with
  | S754_zero _ => true
  | S754_infinity s | S754_finite s _ _ => negb s
  | S754_nan => false
  end.

(** [x] is not a NaN and carries sign bit [s]. *)
Definition has_sign (s : bool) (x : float32) : Prop :=
  match x with
  | S754_zero s' | S754_infinity s' | S754_finite s' _ _ => s' = s
  | S754_nan => False
  end.

End Float32.

Import Float32.

(** ** Core Media / Core Audio data seen by the adapter *)

Module Audio.

(** [AudioStreamBasicDescription]: the two fields read by the adapter,
    both [UInt32]. *)
Record AudioStreamBasicDescription := {
  mFormatFlags : N;
  mBitsPerChannel : N
}.

(** Core Audio's format flag bits ([CoreAudioBaseTypes.h]). *)
Definition kAudioFormatFlagIsFloat : N := 1.
Definition kAudioFormatFlagIsSignedInteger : N := 4.

(** A [CMAudioFormatDescription]; its stream description may be absent. *)
Record FormatDescription := {
  streamBasicDescription : option AudioStreamBasicDescription
}.

(** [AudioBuffer]: [mData] is a nullable pointer to [mDataByteSize] bytes;
    the two counters are [UInt32]. *)
Record AudioBuffer := {
  mNumberChannels : N;
  mDataByteSize : N;
  mData : option (list Byte.byte)
}.

(** A [CMSampleBuffer] as observed through the calls the adapter makes. *)
Record CMSampleBuffer := {
  (** [CMSampleBufferIsValid] *)
  isValid : bool;
  (** [CMSampleBufferGetFormatDescription] *)
  formatDescription : option FormatDescription;
  (** [CMSampleBufferGetAudioBufferListWithRetainedBlockBuffer]:
      [None] when the status is not [noErr]. *)
  audioBufferList : option (list AudioBuffer);
  (** [CMSampleBufferGetPresentationTimeStamp], in seconds *)
  presentationTimeStamp : Q
}.

(** Memory reads. A read past the end of the backing store yields zero
    bytes (well-formed buffers hold [mDataByteSize] bytes). *)
Definition byte_at (data : list Byte.byte) (off : nat) : Z :=
  Z.of_N (Byte.to_N (nth off data Byte.x00)).

(** Little-endian unsigned load of [n] bytes at [off]. *)
Fixpoint load_le (data : list Byte.byte) (off n : nat) : Z :=
  match n with
  | O => 0
  | S n' => byte_at data off + 256 * load_le data (S off) n'
  end.

(** [samples[idx]] for [samples : UnsafeMutablePointer<Float>]. *)
Definition read_float (data : list Byte.byte) (idx : nat) : float32 :=
  of_bits (load_le data (4 * idx) 4).

(** [samples[idx]] for [samples : UnsafeMutablePointer<Int16>]. *)
Definition read_int16 (data : list Byte.byte) (idx : nat) : Z :=
  let u := load_le data (2 * idx) 2 in
  if u <? 32768 then u else u - 65536.

(** [accum += sample * sample] for [idx in 0..<count], Float layout. *)
Definition accumulate_float (data : list Byte.byte) (count : Z)
           (accum : float32) : float32 :=
  fold_left
    (fun acc idx =>
       let sample := read_float data idx in
       add acc (mul sample sample))
    (seq 0 (Z.to_nat count)) accum.

(** The same loop for the Int16 layout:
    [let sample = Float(samples[idx]) / 32768.0]. *)
Definition accumulate_int16 (data : list Byte.byte) (count : Z)
           (accum : float32) : float32 :=
  fold_left
    (fun acc idx =>
       let sample := div (of_Z (read_int16 data idx)) lit_32768 in
       add acc (mul sample sample))
    (seq 0 (Z.to_nat count)) accum.

(** One iteration of [for buffer in buffers] on the pair
    [(accum, sampleCount)]. The byte count is not negative, so Swift's
    truncating [/] is the floor division. *)
Definition rms_buffer_step (isFloat isSignedInt : bool) (bitsPerChannel : Z)
           (st : float32 * Z) (buffer : AudioBuffer) : float32 * Z :=
  let '(accum, sampleCount) := st in
  match mData buffer with
  | None => (accum, sampleCount)
  | Some data =>
      let byteCount := Z.of_N (mDataByteSize buffer) in
      if isFloat && (bitsPerChannel =? 32) then
        let count := byteCount / 4 in
        (accumulate_float data count accum, sampleCount + count)
      else if isSignedInt && (bitsPerChannel =? 16) then
        let count := byteCount / 2 in
        (accumulate_int16 data count accum, sampleCount + count)
      else (accum, sampleCount)
  end.

Definition asbd_isFloat (asbd : AudioStreamBasicDescription) : bool :=
  negb (N.land (mFormatFlags asbd) kAudioFormatFlagIsFloat =? 0)%N.

Definition asbd_isSignedInt (asbd : AudioStreamBasicDescription) : bool :=
  negb (N.land (mFormatFlags asbd) kAudioFormatFlagIsSignedInteger =? 0)%N.

(** [SystemAudioRecorder.computeRmsLevel(from:)]. *)
Definition computeRmsLevel (sampleBuffer : CMSampleBuffer) : float32 :=
  match formatDescription sampleBuffer with
  | None => zero
  | Some fd =>
      match streamBasicDescription fd with
      | None => zero
      | Some asbd =>
          match audioBufferList sampleBuffer with
          | None => zero
          | Some buffers =>
              let isFloat := asbd_isFloat asbd in
              let isSignedInt := asbd_isSignedInt asbd in
              let bitsPerChannel := Z.of_N (mBitsPerChannel asbd) in
              let '(accum, sampleCount) :=
                fold_left
                  (rms_buffer_step isFloat isSignedInt bitsPerChannel)
                  buffers (zero, 0) in
              if sampleCount =? 0 then zero
              else
                let rms := sqrt (div accum (of_Z sampleCount)) in
                min one (mul rms lit_2_8)
          end
      end
  end.

(** [smoothedLevel =
      (smoothedLevel * 0.75 + level * 0.25).clamped(to: 0...1)] *)
Definition smooth (smoothedLevel level : float32) : float32 :=
  clamped (add (mul smoothedLevel lit_0_75) (mul level lit_0_25)) zero one.

(** *** The level meter as the specification words it

    The samples a buffer list holds under a stream description: 32-bit
    float PCM as stored, 16-bit signed integer PCM scaled by [1/32768];
    no sample under any other layout or behind a null data pointer. *)

Definition float_layout (asbd : AudioStreamBasicDescription) : bool :=
  asbd_isFloat asbd && (Z.of_N (mBitsPerChannel asbd) =? 32).

Definition int16_layout (asbd : AudioStreamBasicDescription) : bool :=
  asbd_isSignedInt asbd && (Z.of_N (mBitsPerChannel asbd) =? 16).

Definition supported_layout (asbd : AudioStreamBasicDescription) : bool :=
  float_layout asbd || int16_layout asbd.

Definition buffer_samples (asbd : AudioStreamBasicDescription)
           (buffer : AudioBuffer) : list float32 :=
  match mData buffer with
  | None => []
  | Some data =>
      let bytes := N.to_nat (mDataByteSize buffer) in
      if float_layout asbd then
        map (read_float data) (seq 0 (bytes / 4))
      else if int16_layout asbd then
        map (fun idx => div (of_Z (read_int16 data idx)) lit_32768)
            (seq 0 (bytes / 2))
      else []
  end.

Definition interpreted_samples (sampleBuffer : CMSampleBuffer)
  : list float32 :=
  match formatDescription sampleBuffer with
  | Some {| streamBasicDescription := Some asbd |} =>
      match audioBufferList sampleBuffer with
      | Some buffers => flat_map (buffer_samples asbd) buffers
      | None => []
      end
  | _ => []
  end.

(** Root mean square of a list of samples, in [Float] arithmetic, summing
    in order. *)
Definition sum_squares (xs : list float32) : float32 :=
  fold_left (fun acc x => add acc (mul x x)) xs zero.

Definition rms (xs : list float32) : float32 :=
  sqrt (div (sum_squares xs) (of_Z (Z.of_nat (List.length xs)))).

(** [min(1, rms * 2.8)]; the level of no sample at all is [0]. *)
Definition normalized_level (xs : list float32) : float32 :=
  match xs with
  | [] => zero
  | _ => min one (mul (rms xs) lit_2_8)
  end.

End Audio.

Import Audio.

(** ** The capture adapter process ([SystemAudioRecorder] and [Main])

    The recorder is driven from three sides: the task that executes [run],
    the sample handler queue that delivers buffers, and the readability
    handler of standard input. A callback of either queue is modelled as
    an event that runs to completion on the shared state (two callbacks
    are taken not to overlap). The task of [run] is cut into events where
    a callback can overtake it with a visible result: when [startCapture]
    returns, between the test and the store of [waitUntilStopRequested],
    and before the shutdown sequence. What the operating system and the
    frameworks answer (clock readings, file sizes, whether a call throws)
    comes with the event. *)

Module Recorder.

(** Wall-clock instants ([Date]) and intervals ([TimeInterval]), in
    seconds, as exact rationals. *)
Definition Date := Q.
(** [Date.distantPast]: 1 January 0001, relative to the reference date. *)
Definition distantPast : Date := (-63114076800)%Q.

Definition Qltb (a b : Q) : bool := negb (Qle_bool b a).

Inductive RecorderError :=
| missingOutputPath
| unsupportedMacOS
| noDisplayFound
| writerInputRejected.

(** A value thrown in Swift: one of the adapter's own errors or an error of
    a system framework, identified by its code. *)
Inductive ThrownError :=
| OwnError (e : RecorderError)
| SystemError (code : Z).

(** The lines the process writes to [stderr]. *)
Inductive ErrorMessage :=
| FailedToInitializeWriter (e : ThrownError)
| FailedToAppend (details : option ThrownError)
| NoAudioSamplesReceived
| Uncaught (e : ThrownError).

Inductive StderrLine :=
| sck_error (m : ErrorMessage)
| total_size (bytes : Z)
| out_time_us (micros : Z)
| level (l : float32).

(** What the process does to the outside world, in order. [Emit] marks the
    instant at which [emitTelemetry] passes its throttle. *)
Inductive Effect :=
| Stderr (l : StderrLine)
| InitializeWriter (ok : bool)
| Append (ok : bool)
| ResumeContinuation
| StopCapture (ok : bool)
| MarkAsFinished
| FinishWriting
| Emit (now : Date) (force : bool)
| Trap
| Exit (code : Z).

Record AVAssetWriter := {
  sessionStart : Q
}.

Record AVAssetWriterInput := {
  expectsMediaDataInRealTime : bool
}.

(** The stored properties of [SystemAudioRecorder]. *)
Record SystemAudioRecorder := {
  writer : option AVAssetWriter;
  writerInput : option AVAssetWriterInput;
  stopContinuation : bool;
  stopRequested : bool;
  startedAt : Date;
  lastTelemetry : Date;
  smoothedLevel : float32;
  hasReceivedAudioSample : bool;
  emittedNoSampleError : bool
}.

(** Where the execution of [run] stands. *)
Inductive RunPhase :=
| StartingCapture   (* inside [try await stream.startCapture()] *)
| EnteringWait      (* past the test of [waitUntilStopRequested], the
                       continuation not yet stored *)
| AwaitingStop      (* suspended in [waitUntilStopRequested] *)
| Resumed           (* past [waitUntilStopRequested], shutdown not yet run *)
| Exited (code : Z)
| Trapped.

Record Process := {
  recorder : SystemAudioRecorder;
  phase : RunPhase;
  (** [FileHandle.standardInput.readabilityHandler != nil] *)
  stdinHandler : bool;
  trace : list Effect
}.

Definition alive (p : Process) : bool :=
  match phase p with
  | Exited _ | Trapped => false
  | _ => true
  end.

(** *** Field updates *)

Definition with_recorder (f : SystemAudioRecorder -> SystemAudioRecorder)
           (p : Process) : Process :=
  {| recorder := f (recorder p); phase := phase p;
     stdinHandler := stdinHandler p; trace := trace p |}.

Definition with_phase (ph : RunPhase) (p : Process) : Process :=
  {| recorder := recorder p; phase := ph;
     stdinHandler := stdinHandler p; trace := trace p |}.

Definition with_stdinHandler (h : bool) (p : Process) : Process :=
  {| recorder := recorder p; phase := phase p;
     stdinHandler := h; trace := trace p |}.

(** The trace grows at its end. *)
Definition emit (e : Effect) (p : Process) : Process :=
  {| recorder := recorder p; phase := phase p;
     stdinHandler := stdinHandler p; trace := trace p ++ [e] |}.

Definition set_writers (w : AVAssetWriter) (i : AVAssetWriterInput)
           (r : SystemAudioRecorder) : SystemAudioRecorder :=
  {| writer := Some w; writerInput := Some i;
     stopContinuation := stopContinuation r;
     stopRequested := stopRequested r; startedAt := startedAt r;
     lastTelemetry := lastTelemetry r; smoothedLevel := smoothedLevel r;
     hasReceivedAudioSample := hasReceivedAudioSample r;
     emittedNoSampleError := emittedNoSampleError r |}.

Definition set_stopContinuation (c : bool)
           (r : SystemAudioRecorder) : SystemAudioRecorder :=
  {| writer := writer r; writerInput := writerInput r;
     stopContinuation := c;
     stopRequested := stopRequested r; startedAt := startedAt r;
     lastTelemetry := lastTelemetry r; smoothedLevel := smoothedLevel r;
     hasReceivedAudioSample := hasReceivedAudioSample r;
     emittedNoSampleError := emittedNoSampleError r |}.

Definition set_stopRequested (b : bool)
           (r : SystemAudioRecorder) : SystemAudioRecorder :=
  {| writer := writer r; writerInput := writerInput r;
     stopContinuation := stopContinuation r;
     stopRequested := b; startedAt := startedAt r;
     lastTelemetry := lastTelemetry r; smoothedLevel := smoothedLevel r;
     hasReceivedAudioSample := hasReceivedAudioSample r;
     emittedNoSampleError := emittedNoSampleError r |}.

Definition set_lastTelemetry (t : Date)
           (r : SystemAudioRecorder) : SystemAudioRecorder :=
  {| writer := writer r; writerInput := writerInput r;
     stopContinuation := stopContinuation r;
     stopRequested := stopRequested r; startedAt := startedAt r;
     lastTelemetry := t; smoothedLevel := smoothedLevel r;
     hasReceivedAudioSample := hasReceivedAudioSample r;
     emittedNoSampleError := emittedNoSampleError r |}.

Definition set_smoothedLevel (l : float32)
           (r : SystemAudioRecorder) : SystemAudioRecorder :=
  {| writer := writer r; writerInput := writerInput r;
     stopContinuation := stopContinuation r;
     stopRequested := stopRequested r; startedAt := startedAt r;
     lastTelemetry := lastTelemetry r; smoothedLevel := l;
     hasReceivedAudioSample := hasReceivedAudioSample r;
     emittedNoSampleError := emittedNoSampleError r |}.

Definition set_hasReceivedAudioSample (b : bool)
           (r : SystemAudioRecorder) : SystemAudioRecorder :=
  {| writer := writer r; writerInput := writerInput r;
     stopContinuation := stopContinuation r;
     stopRequested := stopRequested r; startedAt := startedAt r;
     lastTelemetry := lastTelemetry r; smoothedLevel := smoothedLevel r;
     hasReceivedAudioSample := b;
     emittedNoSampleError := emittedNoSampleError r |}.

Definition set_emittedNoSampleError (b : bool)
           (r : SystemAudioRecorder) : SystemAudioRecorder :=
  {| writer := writer r; writerInput := writerInput r;
     stopContinuation := stopContinuation r;
     stopRequested := stopRequested r; startedAt := startedAt r;
     lastTelemetry := lastTelemetry r; smoothedLevel := smoothedLevel r;
     hasReceivedAudioSample := hasReceivedAudioSample r;
     emittedNoSampleError := b |}.

(** *** [requestStop] *)

Definition requestStop (p : Process) : Process :=
  if stopRequested (recorder p) then p
  else
    let p := with_recorder (set_stopRequested true) p in
    let p := with_stdinHandler false p in
    let p :=
      if stopContinuation (recorder p)
      then with_phase Resumed (emit ResumeContinuation p)
      else p in
    with_recorder (set_stopContinuation false) p.

(** *** [emitTelemetry(force:)]

    [now] is the reading of [Date()], [fileSize] the size attribute of the
    output file ([None] when the lookup fails). [UInt64(_:)] truncates
    towards zero and traps on a value it cannot represent: one at or below
    [-1], or at or above [2^64]. *)

Definition fits_UInt64 (q : Q) : bool :=
  Qltb (-1 # 1) q && Qltb q (18446744073709551616 # 1).

Definition elapsed_micros (r : SystemAudioRecorder) (now : Date) : Q :=
  ((now - startedAt r) * 1000000)%Q.

Definition truncate (q : Q) : Z := Z.quot (Qnum q) (Zpos (Qden q)).

Definition emitTelemetry (force : bool) (now : Date) (fileSize : option Z)
           (p : Process) : Process :=
  if negb force && Qltb (now - lastTelemetry (recorder p)) (1 # 5) then p
  else
    let p := with_recorder (set_lastTelemetry now) p in
    let p := emit (Emit now force) p in
    let p :=
      if negb (hasReceivedAudioSample (recorder p))
         && negb (emittedNoSampleError (recorder p))
         && Qltb (5 # 2) (now - startedAt (recorder p))
      then emit (Stderr (sck_error NoAudioSamplesReceived))
                (with_recorder (set_emittedNoSampleError true) p)
      else p in
    let size := match fileSize with Some n => n | None => 0 end in
    let us := elapsed_micros (recorder p) now in
    if negb (fits_UInt64 us) then with_phase Trapped (emit Trap p)
    else
      let micros := truncate us in
      let p := emit (Stderr (total_size size)) p in
      let p := emit (Stderr (out_time_us micros)) p in
      emit (Stderr (level (smoothedLevel (recorder p)))) p.

(** *** [initializeWriter(with:)]

    The outcomes of the AVFoundation calls are supplied by the
    environment. *)

Record WriterEnv := {
  (** [try AVAssetWriter(outputURL:fileType:)] *)
  createWriter : option ThrownError;
  canAdd : bool;
  startWriting : bool;
  (** [writer.error] after a failed [startWriting] or [append] *)
  writerError : option ThrownError
}.

Definition initializeWriter (env : WriterEnv) (sampleBuffer : CMSampleBuffer)
           (r : SystemAudioRecorder) : ThrownError + SystemAudioRecorder :=
  match createWriter env with
  | Some e => inl e
  | None =>
      if negb (canAdd env) then inl (OwnError writerInputRejected)
      else if negb (startWriting env) then
        inl (match writerError env with
             | Some e => e
             | None => OwnError writerInputRejected
             end)
      else
        let startTime := presentationTimeStamp sampleBuffer in
        inr (set_writers {| sessionStart := startTime |}
                         {| expectsMediaDataInRealTime := true |} r)
  end.

(** *** [stream(_:didOutputSampleBuffer:of:)] *)

Inductive SCStreamOutputType := screen | audio | microphone.

Definition is_audio (t : SCStreamOutputType) : bool :=
  match t with audio => true | _ => false end.

Record SampleEnv := {
  writerEnv : WriterEnv;
  isReadyForMoreMediaData : bool;
  appendOk : bool;
  now : Date;
  fileSize : option Z
}.

(** From [guard let writerInput] to the end of the callback. *)
Definition appendAndMeter (env : SampleEnv) (sampleBuffer : CMSampleBuffer)
           (p : Process) : Process :=
  match writerInput (recorder p) with
  | None => p
  | Some _ =>
      let appendFailed :=
        isReadyForMoreMediaData env && negb (appendOk env) in
      let p :=
        if isReadyForMoreMediaData env
        then emit (Append (appendOk env)) p else p in
      if appendFailed then
        let details :=
          match writer (recorder p) with
          | Some _ => writerError (writerEnv env)
          | None => None
          end in
        requestStop (emit (Stderr (sck_error (FailedToAppend details))) p)
      else
        let lvl := computeRmsLevel sampleBuffer in
        let p :=
          with_recorder
            (fun r => set_smoothedLevel (smooth (smoothedLevel r) lvl) r) p in
        emitTelemetry false (now env) (fileSize env) p
  end.

Definition streamDidOutput (outputType : SCStreamOutputType)
           (sampleBuffer : CMSampleBuffer) (env : SampleEnv)
           (p : Process) : Process :=
  if negb (is_audio outputType) then p
  else if negb (isValid sampleBuffer) then p
  else
    let p := with_recorder (set_hasReceivedAudioSample true) p in
    match writer (recorder p) with
    | None =>
        match initializeWriter (writerEnv env) sampleBuffer (recorder p) with
        | inl e =>
            let p := emit (InitializeWriter false) p in
            let p :=
              emit (Stderr (sck_error (FailedToInitializeWriter e))) p in
            requestStop p
        | inr r' =>
            let p := emit (InitializeWriter true) p in
            appendAndMeter env sampleBuffer (with_recorder (fun _ => r') p)
        end
    | Some _ => appendAndMeter env sampleBuffer p
    end.

(** *** [monitorStdinForStopSignal]: the readability handler *)

Inductive StdinData :=
| Empty                      (* [availableData] is empty: end of file *)
| Utf8 (text : string)      (* bytes that decode as UTF-8 *)
| NotUtf8.                   (* bytes that do not *)

(** [text.contains("q")] on the decoded text, read on its bytes: the
    letter occurs somewhere in it. *)
Fixpoint contains_q (s : string) : bool :=
  match s with
  | EmptyString => false
  | String c s' => Ascii.eqb c "q"%char || contains_q s'
  end.

Definition stdinReadable (data : StdinData) (p : Process) : Process :=
  match data with
  | Empty => requestStop p
  | Utf8 text => if contains_q text then requestStop p else p
  | NotUtf8 => p
  end.

(** *** [run] and [Main.main] *)

(** [Main.main]'s [catch]: report and [exit(1)]. *)
Definition fail (e : ThrownError) (p : Process) : Process :=
  let p := emit (Stderr (sck_error (Uncaught e))) p in
  with_phase (Exited 1) (emit (Exit 1) p).

(** [run] from its first line to [try await stream.startCapture()];
    [setup] is the first error thrown on the way, if any. *)
Definition run_begin (setup : option ThrownError) (now : Date) : Process :=
  let r := {| writer := None; writerInput := None;
              stopContinuation := false; stopRequested := false;
              startedAt := now; lastTelemetry := distantPast;
              smoothedLevel := zero;
              hasReceivedAudioSample := false;
              emittedNoSampleError := false |} in
  match setup with
  | Some e =>
      fail e {| recorder := r; phase := StartingCapture;
                stdinHandler := false; trace := [] |}
  | None =>
      {| recorder := r; phase := StartingCapture;
         stdinHandler := true; trace := [] |}
  end.

(** [waitUntilStopRequested], in the two steps it takes. The recorder is a
    plain class and nothing orders the task of [run] with the queues that
    call [requestStop], so the callbacks can run between the test and the
    store.

    First the test [if stopRequested { return }]. *)
Definition waitUntilStopRequested (p : Process) : Process :=
  if stopRequested (recorder p) then with_phase Resumed p
  else with_phase EnteringWait p.

(** Then the body of [withCheckedContinuation]:
    [stopContinuation = continuation]. The task is suspended from here
    on, until the continuation is resumed. *)
Definition storeStopContinuation (p : Process) : Process :=
  with_phase AwaitingStop (with_recorder (set_stopContinuation true) p).

(** [startCapture] returns (or throws). *)
Definition startCaptureReturned (err : option ThrownError)
           (p : Process) : Process :=
  match err with
  | Some e => fail e p
  | None => waitUntilStopRequested p
  end.

(** [finalizeWriter]: the completion of [finishWriting] is awaited. *)
Definition finalizeWriter (p : Process) : Process :=
  match writer (recorder p), writerInput (recorder p) with
  | Some _, Some _ => emit FinishWriting (emit MarkAsFinished p)
  | _, _ => p
  end.

Record ShutdownEnv := {
  stopCaptureError : option ThrownError;
  finalNow : Date;
  finalFileSize : option Z
}.

(** [run] and then [main] return: the process exits with status 0. *)
Definition exitNormally (p : Process) : Process :=
  if alive p then with_phase (Exited 0) (emit (Exit 0) p) else p.

(** [run] from [try await stream.stopCapture()] to the end, then the
    normal return of [main]. Once [stopCapture] has returned no buffer is
    delivered any more, so the sequence runs as one event. *)
Definition shutdown (env : ShutdownEnv) (p : Process) : Process :=
  match stopCaptureError env with
  | Some e => fail e (emit (StopCapture false) p)
  | None =>
      let p := emit (StopCapture true) p in
      let p := finalizeWriter p in
      let p := emitTelemetry true (finalNow env) (finalFileSize env) p in
      exitNormally p
  end.

(** *** The process as a transition system *)

Inductive Event :=
| EvStartCaptureReturned (err : option ThrownError)
| EvContinuationStored
| EvSample (outputType : SCStreamOutputType) (sampleBuffer : CMSampleBuffer)
           (env : SampleEnv)
| EvStdin (data : StdinData)
| EvShutdown (env : ShutdownEnv).

Definition step (p : Process) (ev : Event) : Process :=
  if negb (alive p) then p
  else
    match ev with
    | EvStartCaptureReturned err =>
        match phase p with
        | StartingCapture => startCaptureReturned err p
        | _ => p
        end
    | EvContinuationStored =>
        match phase p with
        | EnteringWait => storeStopContinuation p
        | _ => p
        end
    | EvSample t sb env => streamDidOutput t sb env p
    | EvStdin data => if stdinHandler p then stdinReadable data p else p
    | EvShutdown env =>
        match phase p with
        | Resumed => shutdown env p
        | _ => p
        end
    end.

Definition run_events (p : Process) (evs : list Event) : Process :=
  fold_left step evs p.

(** A complete execution: a successful start, then any events. *)
Definition execute (start : Date) (evs : list Event) : Process :=
  run_events (run_begin None start) evs.

(** *** Observations on traces *)

Definition is_emit (e : Effect) : option (Date * bool) :=
  match e with Emit t f => Some (t, f) | _ => None end.

(** The emissions of a trace, oldest first, as [(instant, forced)]. *)
Fixpoint emissions (tr : list Effect) : list (Date * bool) :=
  match tr with
  | [] => []
  | e :: tr' =>
      match is_emit e with
      | Some x => x :: emissions tr'
      | None => emissions tr'
      end
  end.

Definition is_no_sample_error (e : Effect) : bool :=
  match e with
  | Stderr (sck_error NoAudioSamplesReceived) => true
  | _ => false
  end.

Definition is_init_attempt (e : Effect) : bool :=
  match e with InitializeWriter _ => true | _ => false end.

Definition is_init_success (e : Effect) : bool :=
  match e with InitializeWriter true => true | _ => false end.

Definition is_init_error_line (e : Effect) : bool :=
  match e with
  | Stderr (sck_error (FailedToInitializeWriter _)) => true
  | _ => false
  end.

Definition count (f : Effect -> bool) (tr : list Effect) : nat :=
  List.length (filter f tr).

(** Any emission and a later non-forced one are at least 200 ms apart. *)
Definition spaced (ems : list (Date * bool)) : Prop :=
  forall pre a mid b post,
    ems = pre ++ a :: mid ++ b :: post ->
    snd b = false ->
    (fst a + (1 # 5) <= fst b)%Q.

(** A forced emission is the last emission. *)
Definition forced_last (ems : list (Date * bool)) : Prop :=
  forall pre t post, ems = pre ++ (t, true) :: post -> post = [].

(** The callback reaches its last three lines (level, smoothing,
    telemetry): an audio buffer that is valid, a writer that exists or can
    be initialised, and no failed append. *)
Definition metered (outputType : SCStreamOutputType)
           (sampleBuffer : CMSampleBuffer) (env : SampleEnv)
           (p : Process) : bool :=
  is_audio outputType && isValid sampleBuffer
  && match writer (recorder p) with
     | Some _ =>
         match writerInput (recorder p) with
         | Some _ => true
         | None => false
         end
     | None =>
         match initializeWriter (writerEnv env) sampleBuffer (recorder p) with
         | inr _ => true
         | inl _ => false
         end
     end
  && negb (isReadyForMoreMediaData env && negb (appendOk env)).


(** Effects that carry no telemetry and do not report a new writer. *)
Definition benign (e : Effect) : bool :=
  match e with
  | Append _ | InitializeWriter false | StopCapture _
  | MarkAsFinished | FinishWriting | Exit _ => true
  | Stderr (sck_error (FailedToInitializeWriter _))
  | Stderr (sck_error (FailedToAppend _))
  | Stderr (sck_error (Uncaught _)) => true
  | _ => false
  end.

(** *** Invariants of the running process *)

(** The smoothed level, and every level reported so far, lies in [[0,1]]. *)
Definition level_inv (p : Process) : Prop :=
  in_unit (smoothedLevel (recorder p)) = true /\
  forall l, In (Stderr (level l)) (trace p) -> in_unit l = true.


(** The no-sample error is latched: it is on the trace exactly when the
    flag is set, which only the forced emission of a run that never
    received a sample does, more than 2.5 s after [start]. *)
Definition no_sample_inv (start : Date) (p : Process) : Prop :=
  startedAt (recorder p) = start /\
  (alive p = true -> emittedNoSampleError (recorder p) = false) /\
  count is_no_sample_error (trace p)
  = (if emittedNoSampleError (recorder p) then 1%nat else 0%nat) /\
  (emittedNoSampleError (recorder p) = true ->
   hasReceivedAudioSample (recorder p) = false /\
   exists t, In (Emit t true) (trace p) /\ (5 # 2 < t - start)%Q).

(** While the process lives every emission was non-forced and no later
    than [lastTelemetry]; emissions are spaced, a forced one is last. *)
Definition throttle_inv (p : Process) : Prop :=
  (alive p = true ->
   forall t f, In (t, f) (emissions (trace p)) ->
               (t <= lastTelemetry (recorder p))%Q /\ f = false) /\
  spaced (emissions (trace p)) /\
  forced_last (emissions (trace p)).

(** The shutdown sequence, and with it the forced emission, runs only
    after a stop has been requested. *)
Definition stop_inv (p : Process) : Prop :=
  (phase p = Resumed -> stopRequested (recorder p) = true) /\
  (forall t, In (Emit t true) (trace p) ->
             stopRequested (recorder p) = true).

(** An event delivers a valid audio sample. *)
Definition valid_audio_sample (ev : Event) : bool :=
  match ev with
  | EvSample ty sb _ => is_audio ty && isValid sb
  | _ => false
  end.

(** An event is a valid audio sample whose clock reading is at most [t]. *)
Definition valid_sample_by (t : Date) (ev : Event) : bool :=
  match ev with
  | EvSample ty sb env =>
      is_audio ty && isValid sb && Qle_bool (now env) t
  | _ => false
  end.

(** Data on standard input that makes the handler request a stop. *)
Definition stop_signal (data : StdinData) : bool :=
  match data with
  | Empty => true
  | Utf8 text => contains_q text
  | NotUtf8 => false
  end.

(** The effects of the shutdown sequence that finalise the writer. *)
Definition is_finalization (e : Effect) : bool :=
  match e with
  | MarkAsFinished | FinishWriting => true
  | _ => false
  end.

Definition is_forced_emit (e : Effect) : bool :=
  match e with Emit _ true => true | _ => false end.

(** What [finalizeWriter] does in a given state. *)
Definition finalization (p : Process) : list Effect :=
  match writer (recorder p), writerInput (recorder p) with
  | Some _, Some _ => [MarkAsFinished; FinishWriting]
  | _, _ => []
  end.

End Recorder.

Import Recorder.

(** ** Concrete inputs

    Buffers, environments and event sequences on which the adapter is run
    in the examples below. *)

Module Scenario.

(** 16-bit signed integer, packed, one channel. *)
Definition pcm16 : AudioStreamBasicDescription :=
  {| mFormatFlags := 12; mBitsPerChannel := 16 |}.

(** Two samples, [1000] and [-1000], little-endian. *)
Definition two_samples : CMSampleBuffer :=
  {| isValid := true;
     formatDescription := Some {| streamBasicDescription := Some pcm16 |};
     audioBufferList :=
       Some [{| mNumberChannels := 1; mDataByteSize := 4;
                mData := Some [Byte.xe8; Byte.x03; Byte.x18; Byte.xfc] |}];
     presentationTimeStamp := 0%Q |}.

(** A buffer without format description. *)
Definition undescribed : CMSampleBuffer :=
  {| isValid := true; formatDescription := None;
     audioBufferList := None; presentationTimeStamp := 0%Q |}.

Definition writer_accepts : WriterEnv :=
  {| createWriter := None; canAdd := true; startWriting := true;
     writerError := None |}.

Definition writer_rejects : WriterEnv :=
  {| createWriter := None; canAdd := false; startWriting := true;
     writerError := None |}.

(** A callback at instant [t] whose writer calls behave as [w]. *)
Definition at_time (t : Date) (w : WriterEnv) : SampleEnv :=
  {| writerEnv := w; isReadyForMoreMediaData := true; appendOk := true;
     now := t; fileSize := Some 44 |}.

Definition stop_at (t : Date) (err : option ThrownError) : ShutdownEnv :=
  {| stopCaptureError := err; finalNow := t; finalFileSize := Some 44 |}.

(** Capture starts and the run suspends until a stop is requested; the
    first valid audio sample arrives after 3 s; the controller closes
    standard input; the run shuts down at 5 s. *)
Definition late_first_sample : list Event :=
  [EvStartCaptureReturned None; EvContinuationStored;
   EvSample audio two_samples (at_time 3%Q writer_accepts);
   EvStdin Empty;
   EvShutdown (stop_at 5%Q None)].

(** Capture starts and nothing but a screen frame is delivered, 10 s in. *)
Definition silent_ten_seconds : list Event :=
  [EvStartCaptureReturned None; EvContinuationStored;
   EvSample screen two_samples (at_time 10%Q writer_accepts)].

(** No sample at all, stop after 3 s. *)
Definition never_a_sample : list Event :=
  [EvStartCaptureReturned None; EvContinuationStored;
   EvStdin Empty;
   EvShutdown (stop_at 3%Q None)].

(** The writer input is rejected, and a second sample is delivered before
    capture has stopped. *)
Definition rejected_twice : list Event :=
  [EvStartCaptureReturned None; EvContinuationStored;
   EvSample audio two_samples (at_time 1%Q writer_rejects);
   EvSample audio two_samples (at_time (11 # 10)%Q writer_rejects)].

(** One sample is written, a stop is requested with [q], and
    [stopCapture] throws (the stream had already stopped). *)
Definition stop_capture_throws : list Event :=
  [EvStartCaptureReturned None; EvContinuationStored;
   EvSample audio two_samples (at_time 1%Q writer_accepts);
   EvStdin (Utf8 "q");
   EvShutdown (stop_at 2%Q (Some (SystemError (-3808))))].

(** The same run with a [stopCapture] that succeeds. *)
Definition stop_capture_succeeds : list Event :=
  [EvStartCaptureReturned None; EvContinuationStored;
   EvSample audio two_samples (at_time 1%Q writer_accepts);
   EvStdin (Utf8 "q");
   EvShutdown (stop_at 2%Q None)].

End Scenario.

(** ** [App.tsx]: the latest artifact revision of a type *)

Module App.

(** [types.ts]: [ArtifactType]. *)
Inductive ArtifactType :=
| summary
| analysis
| critique_recruitment
| critique_sales
| critique_cs.

(** [item.artifact_type === type] *)
Definition ArtifactType_eqb (a b : ArtifactType) : bool :=
  match a, b with
  | summary, summary
  | analysis, analysis
  | critique_recruitment, critique_recruitment
  | critique_sales, critique_sales
  | critique_cs, critique_cs => true
  | _, _ => false
  end.

(** [types.ts]: [ArtifactRevision]. Version numbers are the integers the
    store hands out. *)
Record ArtifactRevision := {
  id : string;
  entry_id : string;
  artifact_type : ArtifactType;
  version : Z;
  text : string;
  source_transcript_version : Z;
  is_stale : bool;
  is_manual_edit : bool;
  created_at : string
}.

Section JsArray.
Variable A : Type.

(** [Array.prototype.sort(compareFn)]: a stable sort; [a] is placed
    before [b] when [compareFn(a, b) < 0], and elements that compare
    equal keep their order. *)
Variable compareFn : A -> A -> Z.

Fixpoint sort_insert (x : A) (sorted : list A) : list A :=
  match sorted with
  | [] => [x]
  | y :: rest =>
      if compareFn x y <=? 0 then x :: sorted
      else y :: sort_insert x rest
  end.

Definition js_sort (l : list A) : list A := fold_right sort_insert [] l.

(** [array[0]]: [undefined] on an empty array. *)
Definition js_first (l : list A) : option A := hd_error l.
End JsArray.

(** [latestByType(revisions, type)]. *)
Definition latestByType (revisions : list ArtifactRevision)
           (type : ArtifactType) : option ArtifactRevision :=
  js_first
    (js_sort (fun a b => version b - version a)
       (filter (fun item => ArtifactType_eqb (artifact_type item) type)
               revisions)).

(** Three revisions of an entry: a summary in two versions, listed newest
    last, and an analysis. *)
Definition sample_revision (n : string) (ty : ArtifactType) (v : Z)
  : ArtifactRevision :=
  {| id := n; entry_id := "e1"; artifact_type := ty; version := v;
     text := n; source_transcript_version := 1; is_stale := false;
     is_manual_edit := false; created_at := "2026-01-01T00:00:00Z" |}.

Definition sample_revisions : list ArtifactRevision :=
  [sample_revision "s1" summary 1;
   sample_revision "a1" analysis 1;
   sample_revision "s2" summary 2].

End App.

(** ** The revision store *)

Module RevisionStore.

Definition EntryId := string.

(** Modelled from the spec: [TranscriptRevision] of section 3; the store
    that creates these rows is part of the Rust backend. *)
Record TranscriptRevision := {
  t_entryId : EntryId;
  t_version : Z;
  t_text : string;
  t_language : string;
  t_isManualEdit : bool
}.

(** Modelled from the spec: [ArtifactRevision] of section 3. *)
Record ArtifactRevision := {
  a_entryId : EntryId;
  a_artifactType : App.ArtifactType;
  a_version : Z;
  a_text : string;
  a_sourceTranscriptVersion : Z;
  a_isStale : bool;
  a_isManualEdit : bool
}.

(** Modelled from the spec: the append-only store of section 4.6, rows in
    creation order. *)
Record Store := {
  transcripts : list TranscriptRevision;
  artifacts : list ArtifactRevision
}.

Definition empty : Store := {| transcripts := []; artifacts := [] |}.

Definition max_version (vs : list Z) : Z := fold_right Z.max 0 vs.

Definition transcript_versions (st : Store) (e : EntryId) : list Z :=
  map t_version (filter (fun t => String.eqb (t_entryId t) e) (transcripts st)).

Definition artifact_versions (st : Store) (e : EntryId)
           (ty : App.ArtifactType) : list Z :=
  map a_version
      (filter (fun a => String.eqb (a_entryId a) e
                        && App.ArtifactType_eqb (a_artifactType a) ty)
              (artifacts st)).

(** Modelled from the spec: the current transcript is the row of maximum
    version for the entry; [0] stands for an entry without transcript. *)
Definition currentTranscriptVersion (st : Store) (e : EntryId) : Z :=
  max_version (transcript_versions st e).

Definition currentArtifactVersion (st : Store) (e : EntryId)
           (ty : App.ArtifactType) : Z :=
  max_version (artifact_versions st e ty).

(** Modelled from the spec: staleness recomputation of section 3, applied
    to one artifact row when entry [e] reaches transcript version [v]. *)
Definition refreshStaleness (e : EntryId) (v : Z)
           (a : ArtifactRevision) : ArtifactRevision :=
  if String.eqb (a_entryId a) e then
    {| a_entryId := a_entryId a; a_artifactType := a_artifactType a;
       a_version := a_version a; a_text := a_text a;
       a_sourceTranscriptVersion := a_sourceTranscriptVersion a;
       a_isStale := a_sourceTranscriptVersion a <? v;
       a_isManualEdit := a_isManualEdit a |}
  else a.

(** Modelled from the spec: creation of a transcript revision (section
    4.4), by the orchestrator or by a manual edit:
    [version = priorMax + 1], then every artifact revision of the entry
    has its flag refreshed. *)
Definition createTranscriptRevision (e : EntryId) (txt lang : string)
           (manual : bool) (st : Store) : Store :=
  let v := currentTranscriptVersion st e + 1 in
  {| transcripts :=
       transcripts st ++
       [{| t_entryId := e; t_version := v; t_text := txt;
           t_language := lang; t_isManualEdit := manual |}];
     artifacts := map (refreshStaleness e v) (artifacts st) |}.

(** Modelled from the spec: creation of an artifact revision (section
    4.5): [version = priorMax + 1], [sourceTranscriptVersion] the current
    transcript version, [isStale = false]. *)
Definition createArtifactRevision (e : EntryId) (ty : App.ArtifactType)
           (txt : string) (manual : bool) (st : Store) : Store :=
  {| transcripts := transcripts st;
     artifacts :=
       artifacts st ++
       [{| a_entryId := e; a_artifactType := ty;
           a_version := currentArtifactVersion st e ty + 1;
           a_text := txt;
           a_sourceTranscriptVersion := currentTranscriptVersion st e;
           a_isStale := false; a_isManualEdit := manual |}] |}.

(** Modelled from the spec: bulk purge on entry deletion (section 3). *)
Definition purgeEntry (e : EntryId) (st : Store) : Store :=
  {| transcripts :=
       filter (fun t => negb (String.eqb (t_entryId t) e)) (transcripts st);
     artifacts :=
       filter (fun a => negb (String.eqb (a_entryId a) e)) (artifacts st) |}.

(** Modelled from the spec: the operations that reach the store. A
    transcription or generation whose tool fails ([None]) creates no
    revision; generation requires an existing transcript. *)
Inductive Op :=
| Transcribe (e : EntryId) (result : option (string * string))
| UpdateTranscript (e : EntryId) (txt lang : string)
| Generate (e : EntryId) (ty : App.ArtifactType) (result : option string)
| UpdateArtifact (e : EntryId) (ty : App.ArtifactType) (txt : string)
| Purge (e : EntryId).

Definition apply (st : Store) (op : Op) : Store :=
  match op with
  | Transcribe e (Some (txt, lang)) =>
      createTranscriptRevision e txt lang false st
  | Transcribe _ None => st
  | UpdateTranscript e txt lang =>
      createTranscriptRevision e txt lang true st
  | Generate e ty (Some txt) =>
      if currentTranscriptVersion st e =? 0 then st
      else createArtifactRevision e ty txt false st
  | Generate _ _ None => st
  | UpdateArtifact e ty txt => createArtifactRevision e ty txt true st
  | Purge e => purgeEntry e st
  end.

Definition run (ops : list Op) : Store := fold_left apply ops empty.

(** The versions [1, 2, ..., n]. *)
Definition one_to (n : nat) : list Z := map Z.of_nat (seq 1 n).

(** Scenario C of the specification: a transcript, a summary generated
    from it, then a manual edit of the transcript. *)
Definition entry_e : EntryId := "e"%string.

Definition transcribed_and_summarised : list Op :=
  [Transcribe entry_e (Some ("hello"%string, "en"%string));
   Generate entry_e App.summary (Some "s"%string)].

Definition then_edited : list Op :=
  transcribed_and_summarised
  ++ [UpdateTranscript entry_e "hello!"%string "en"%string].

(** Version, source transcript version and flag of each artifact row. *)
Definition artifact_rows (st : Store) : list (Z * Z * bool) :=
  map (fun a => (a_version a, a_sourceTranscriptVersion a, a_isStale a))
      (artifacts st).

(** The stored flag of every artifact revision says whether the current
    transcript of its entry is newer than the one it was made from. *)
Definition stale_inv (st : Store) : Prop :=
  forall a, In a (artifacts st) ->
            a_isStale a
            = (a_sourceTranscriptVersion a
               <? currentTranscriptVersion st (a_entryId a)).

(** Versions are [1, 2, ..., n] per entry and per (entry, artifact type). *)
Definition versions_inv (st : Store) : Prop :=
  (forall e, transcript_versions st e
             = one_to (List.length (transcript_versions st e))) /\
  (forall e ty, artifact_versions st e ty
                = one_to (List.length (artifact_versions st e ty))).

End RevisionStore.

(** ** The recording session controller

    The controller that owns the adapters of a session ([start_recording],
    [stop_recording], ... of the backend) is not among the sources;
    [api.ts] and [App.tsx] only call it. It is modelled from sections 3,
    4.2, 5 and 7 of the specification. Its operations are serialised per
    session (section 5), so each runs to completion on the controller;
    [stop] is cut at its suspension point, where it awaits the writers. *)

Module Session.

Definition SessionId := nat.
Definition EntryId := string.

(** Modelled from the spec: [CaptureSourceDescriptor] of section 3; the
    session controller is part of the Rust backend. *)
Record CaptureSourceDescriptor := {
  label : string;
  deviceFormat : string;
  deviceLocator : string;
  isLoopback : bool
}.

(** Modelled from the spec: the states of the machine of section 4.2. *)
Inductive State :=
| Idle | Starting | Recording | Paused | Stopping | Finalized | Failed.

(** Modelled from the spec: [RecordingSession] of section 3. *)
Record RecordingSession := {
  sessionId : SessionId;
  entryId : EntryId;
  sources : list CaptureSourceDescriptor;
  state : State;
  startedAt : Q
}.

(** Modelled from the spec: the fields of [Entry] that [stop] updates. *)
Record Entry := {
  durationSec : option Q;
  recordingPath : option string
}.

(** Modelled from the spec: the error kinds of section 7 that the
    controller returns. *)
Inductive SessionError :=
| AdapterStartError
| SessionStateError
| ConcurrentSessionError.

(** Modelled from the spec: what the controller sends to the adapter of a
    source (section 5: signals and messages only). *)
Inductive Signal :=
| StartAdapter (sid : SessionId) (source : CaptureSourceDescriptor)
| TearDownAdapter (sid : SessionId) (source : CaptureSourceDescriptor)
| PauseAdapter (sid : SessionId) (source : CaptureSourceDescriptor)
| ResumeAdapter (sid : SessionId) (source : CaptureSourceDescriptor)
| StopAdapter (sid : SessionId) (source : CaptureSourceDescriptor)
| ForceTerminate (sid : SessionId) (source : CaptureSourceDescriptor).

(** Modelled from the spec: the controller, with the signals it has sent.
    A session is in the registry while its state is neither [Finalized]
    nor [Failed]; a destroyed session keeps its terminal state, from which
    later calls on its id are answered (Scenario D, idempotence of
    [stop]). *)
Record Controller := {
  sessions : list RecordingSession;
  entries : EntryId -> Entry;
  nextId : SessionId;
  signals : list Signal
}.

Definition empty : Controller :=
  {| sessions := [];
     entries := fun _ => {| durationSec := None; recordingPath := None |};
     nextId := O;
     signals := [] |}.

Definition registered (st : State) : bool :=
  match st with
  | Starting | Recording | Paused | Stopping => true
  | _ => false
  end.

Definition has_id (sid : SessionId) (s : RecordingSession) : bool :=
  Nat.eqb (sessionId s) sid.

Definition find_session (sid : SessionId) (c : Controller)
  : option RecordingSession :=
  find (has_id sid) (sessions c).

(** Modelled from the spec: the state of a session id; an id without
    session is [Idle]. *)
Definition state_of (c : Controller) (sid : SessionId) : State :=
  match find_session sid c with
  | Some s => state s
  | None => Idle
  end.

Definition with_state (st : State) (s : RecordingSession)
  : RecordingSession :=
  {| sessionId := sessionId s; entryId := entryId s; sources := sources s;
     state := st; startedAt := startedAt s |}.

Definition set_state (sid : SessionId) (st : State)
           (l : list RecordingSession) : list RecordingSession :=
  map (fun s => if has_id sid s then with_state st s else s) l.

Definition set_entry (e : EntryId) (v : Entry) (f : EntryId -> Entry)
  : EntryId -> Entry :=
  fun e' => if String.eqb e' e then v else f e'.

(** A transition of one session, with the signals it sends. *)
Definition transition (sid : SessionId) (st : State) (sent : list Signal)
           (c : Controller) : Controller :=
  {| sessions := set_state sid st (sessions c);
     entries := entries c;
     nextId := nextId c;
     signals := signals c ++ sent |}.

(** Modelled from the spec: [start(entryId, sources)] of section 4.2.
    [allStarted] says whether every adapter confirmed its start. *)
Definition start (entry : EntryId) (srcs : list CaptureSourceDescriptor)
           (allStarted : bool) (now : Q) (c : Controller)
  : (SessionError + SessionId) * Controller :=
  if existsb (fun s => String.eqb (entryId s) entry && registered (state s))
             (sessions c)
  then (inl ConcurrentSessionError, c)
  else
    let sid := nextId c in
    let s := {| sessionId := sid; entryId := entry; sources := srcs;
                state := if allStarted then Recording else Failed;
                startedAt := now |} in
    (if allStarted then inr sid else inl AdapterStartError,
     {| sessions := sessions c ++ [s];
        entries := entries c;
        nextId := S sid;
        signals :=
          signals c ++ map (StartAdapter sid) srcs
          ++ (if allStarted then [] else map (TearDownAdapter sid) srcs) |}).

(** Modelled from the spec: [pause(sessionId)], valid only from
    [Recording]; an invalid call fails with a state error and touches
    nothing. *)
Definition pause (sid : SessionId) (c : Controller)
  : (SessionError + unit) * Controller :=
  match find_session sid c with
  | Some s =>
      match state s with
      | Recording =>
          (inr tt,
           transition sid Paused (map (PauseAdapter sid) (sources s)) c)
      | _ => (inl SessionStateError, c)
      end
  | None => (inl SessionStateError, c)
  end.

(** Modelled from the spec: [resume(sessionId)], valid only from
    [Paused]. *)
Definition resume (sid : SessionId) (c : Controller)
  : (SessionError + unit) * Controller :=
  match find_session sid c with
  | Some s =>
      match state s with
      | Paused =>
          (inr tt,
           transition sid Recording (map (ResumeAdapter sid) (sources s)) c)
      | _ => (inl SessionStateError, c)
      end
  | None => (inl SessionStateError, c)
  end.

(** Modelled from the spec: a fatal error of an adapter fails the session
    from [Starting], [Recording] or [Paused] and stops every adapter; the
    session does not stay half-open. *)
Definition adapterFatal (sid : SessionId) (c : Controller) : Controller :=
  match find_session sid c with
  | Some s =>
      match state s with
      | Starting | Recording | Paused =>
          transition sid Failed (map (StopAdapter sid) (sources s)) c
      | _ => c
      end
  | None => c
  end.

(** Modelled from the spec: [stop(sessionId)] up to its suspension point.
    From [Recording] or [Paused] the session goes to [Stopping] and every
    adapter is signalled to stop. On a session that is already stopping or
    finalized the call is a no-op, not an error (section 5); in any other
    state it is an invalid operation (section 7). *)
Definition stop_begin (sid : SessionId) (c : Controller)
  : (SessionError + unit) * Controller :=
  match find_session sid c with
  | Some s =>
      match state s with
      | Recording | Paused =>
          (inr tt,
           transition sid Stopping (map (StopAdapter sid) (sources s)) c)
      | Stopping | Finalized => (inr tt, c)
      | _ => (inl SessionStateError, c)
      end
  | None => (inl SessionStateError, c)
  end.

(** Modelled from the spec: what the wait for the writers ends with
    (section 4.2): which adapters ran into the timeout, the path of the
    recording and its duration. *)
Record Finalization := {
  timedOut : CaptureSourceDescriptor -> bool;
  path : string;
  duration : Q
}.

(** Modelled from the spec: [stop(sessionId)] from its suspension point
    on. The adapters that ran into the timeout are terminated by force,
    the session becomes [Finalized], the entry gets its [recordingPath]
    and [durationSec], and the session is destroyed. *)
Definition stop_end (sid : SessionId) (fin : Finalization) (c : Controller)
  : Controller :=
  match find_session sid c with
  | Some s =>
      match state s with
      | Stopping =>
          {| sessions := set_state sid Finalized (sessions c);
             entries :=
               set_entry (entryId s)
                         {| durationSec := Some (duration fin);
                            recordingPath := Some (path fin) |}
                         (entries c);
             nextId := nextId c;
             signals :=
               signals c
               ++ map (ForceTerminate sid)
                      (filter (timedOut fin) (sources s)) |}
      | _ => c
      end
  | None => c
  end.

(** Modelled from the spec: a whole call of [stop(sessionId)]. The call
    that takes the session to [Stopping] is the one that awaits the
    writers and finalizes. *)
Definition stop (sid : SessionId) (fin : Finalization) (c : Controller)
  : (SessionError + unit) * Controller :=
  match state_of c sid with
  | Recording | Paused => (inr tt, stop_end sid fin (snd (stop_begin sid c)))
  | Stopping | Finalized => (inr tt, c)
  | _ => (inl SessionStateError, c)
  end.

(** Two sources, and a session recording from them. *)
Definition mic : CaptureSourceDescriptor :=
  {| label := "Microphone"; deviceFormat := "avfoundation";
     deviceLocator := ":0"; isLoopback := false |}.

Definition system_audio : CaptureSourceDescriptor :=
  {| label := "System"; deviceFormat := "screencapturekit";
     deviceLocator := "system"; isLoopback := true |}.

Definition recording : Controller :=
  snd (start "entry-1"%string [mic; system_audio] true 0%Q empty).

Definition graceful (file : string) (d : Q) : Finalization :=
  {| timedOut := fun _ => false; path := file; duration := d |}.

End Session.

(** ** Launching the adapter: [parseOutputPath], the first half of [run],
       [Main.main] *)

Module Launch.

(** [args.firstIndex(of:)]. Swift compares strings up to canonical
    equivalence; no other string is canonically equivalent to the ASCII
    literal ["--output"], so this is equality of the arguments as given. *)
Fixpoint firstIndex (x : string) (args : list string) : option nat :=
  match args with
  | [] => None
  | a :: rest =>
      if String.eqb a x then Some O else option_map S (firstIndex x rest)
  end.

(** [parseOutputPath()] on [CommandLine.arguments]. The subscript
    [args[index + 1]] is guarded by [args.count > index + 1]. *)
Definition parseOutputPath (args : list string) : RecorderError + string :=
  match firstIndex "--output" args with
  | Some index =>
      if (index + 1 <? List.length args)%nat
      then inr (nth (index + 1) args EmptyString)
      else inl missingOutputPath
  | None => inl missingOutputPath
  end.

(** An [SCDisplay]. *)
Record SCDisplay := {
  displayID : Z
}.

(** What the system answers to the calls [run] makes before capture is
    started. *)
Record SetupEnv := {
  (** [#available]: macOS 13.0 or later *)
  macOS13 : bool;
  (** [try FileManager.default.createDirectory(at:withIntermediateDirectories:)] *)
  createDirectory : option ThrownError;
  (** [FileManager.default.fileExists(atPath: outputURL.path)] *)
  fileExists : bool;
  (** [try FileManager.default.removeItem(at: outputURL)] *)
  removeItem : option ThrownError;
  (** [try await SCShareableContent.excludingDesktopWindows(_:onScreenWindowsOnly:)]:
      the displays of the content, or the error thrown *)
  shareableContent : ThrownError + list SCDisplay;
  (** [try stream.addStreamOutput(_:type:sampleHandlerQueue:)] *)
  addStreamOutput : option ThrownError;
  (** [startedAt = Date()] *)
  startNow : Date
}.

(** What [run] has done to the system when it reaches [startCapture]. *)
Inductive SetupEffect :=
| CreatedDirectory
| RemovedOutputFile
| QueriedShareableContent
| AddedStreamOutput (display : SCDisplay)
| MonitoringStdin.

(** A computation that logs its effects and may throw: the effects so far,
    and the error or the value. *)
Definition Setup (A : Type) : Type := list SetupEffect * (ThrownError + A).

Definition ret (A : Type) (a : A) : Setup A := ([], inr a).

Definition throw (A : Type) (e : ThrownError) : Setup A := ([], inl e).

Arguments ret {A} a.
Arguments throw {A} e.

Definition bind (A B : Type) (m : Setup A) (k : A -> Setup B) : Setup B :=
  match m with
  | (log, inl e) => (log, inl e)
  | (log, inr a) => let '(log', r) := k a in (log ++ log', r)
  end.

Notation "x <- m ;; k" := (bind m (fun x => k))
  (at level 61, m at next level, right associativity).
Notation "m ;;; k" := (bind m (fun _ => k))
  (at level 61, right associativity).

(** [guard cond else { throw e }] *)
Definition guard (cond : bool) (e : ThrownError) : Setup unit :=
  if cond then ret tt else throw e.

(** A throwing call with an effect: the effect is logged when the call
    returns normally. *)
Definition try_call (outcome : option ThrownError) (eff : SetupEffect)
  : Setup unit :=
  match outcome with
  | Some e => throw e
  | None => ([eff], inr tt)
  end.

(** [run] from its first line to [monitorStdinForStopSignal()]: the display
    captured. *)
Definition run_setup (env : SetupEnv) : Setup SCDisplay :=
  guard (macOS13 env) (OwnError unsupportedMacOS) ;;;
  try_call (createDirectory env) CreatedDirectory ;;;
  (if fileExists env
   then try_call (removeItem env) RemovedOutputFile
   else ret tt) ;;;
  displays <- match shareableContent env with
              | inl e => throw e
              | inr displays => ([QueriedShareableContent], inr displays)
              end ;;
  display <- match displays with
             | [] => throw (OwnError noDisplayFound)
             | display :: _ => ret display
             end ;;
  try_call (addStreamOutput env) (AddedStreamOutput display) ;;;
  ([MonitoringStdin], inr display).

(** The first error thrown before [startCapture], if any: by
    [parseOutputPath] or on the way through [run]. *)
Definition launch_error (args : list string) (env : SetupEnv)
  : option ThrownError :=
  match parseOutputPath args with
  | inl e => Some (OwnError e)
  | inr _ =>
      match snd (run_setup env) with
      | inl e => Some e
      | inr _ => None
      end
  end.

(** What the launch has done to the system: nothing when the arguments do
    not parse. *)
Definition launch_effects (args : list string) (env : SetupEnv)
  : list SetupEffect :=
  match parseOutputPath args with
  | inl _ => []
  | inr _ => fst (run_setup env)
  end.

(** [Main.main]: the whole process, from the command line on. *)
Definition main (args : list string) (env : SetupEnv) (evs : list Event)
  : Process :=
  run_events (run_begin (launch_error args env) (startNow env)) evs.

(** A system on which every call of the launch succeeds, with an output
    file left by an earlier run and one display. *)
Definition healthy : SetupEnv :=
  {| macOS13 := true; createDirectory := None; fileExists := true;
     removeItem := None;
     shareableContent := inr [{| displayID := 1 |}];
     addStreamOutput := None; startNow := 0%Q |}.

End Launch.

(** ** What a reader of the adapter's [stderr] sees *)

Module Telemetry.

(** The lines written to [stderr], in order. *)
Fixpoint stderr_lines (tr : list Effect) : list StderrLine :=
  match tr with
  | [] => []
  | Stderr l :: tr' => l :: stderr_lines tr'
  | _ :: tr' => stderr_lines tr'
  end.

(** One telemetry record: file size, elapsed microseconds, level. *)
Definition Record_ : Type := Z * Z * float32.

(** A reader that takes the stream as error lines and complete records
    [total_size], [out_time_us], [level], in this order; [None] when a
    record is incomplete or out of order. *)
Fixpoint telemetry_records (ls : list StderrLine) : option (list Record_) :=
  match ls with
  | [] => Some []
  | sck_error _ :: rest => telemetry_records rest
  | total_size size :: out_time_us micros :: level l :: rest =>
      match telemetry_records rest with
      | Some recs => Some ((size, micros, l) :: recs)
      | None => None
      end
  | _ => None
  end.

Definition is_append (e : Effect) : bool :=
  match e with Append _ => true | _ => false end.

Definition is_trap (e : Effect) : bool :=
  match e with Trap => true | _ => false end.

(** The clock reading an event carries, if any. *)
Definition clock_reading (ev : Event) : option Date :=
  match ev with
  | EvSample _ _ env => Some (now env)
  | EvShutdown env => Some (finalNow env)
  | _ => None
  end.

(** The reading is not earlier than [start] and less than [2^64]
    microseconds after it. *)
Definition clock_sane (start : Date) (ev : Event) : bool :=
  match clock_reading ev with
  | Some t =>
      Qle_bool start t
      && Qltb ((t - start) * 1000000) (18446744073709551616 # 1)
  | None => true
  end.

(** The clock reading of an event, if it has one, satisfies [ok]. *)
Definition reading_ok (ok : Date -> Prop) (ev : Event) : Prop :=
  match clock_reading ev with
  | Some t => ok t
  | None => True
  end.

(** [t] is not earlier than [start] and less than [2^64] microseconds
    after it. *)
Definition sane (start t : Date) : Prop :=
  (start <= t)%Q /\ ((t - start) * 1000000 < 18446744073709551616 # 1)%Q.

(** The process was started at [start] and has not trapped. *)
Definition no_trap_inv (start : Date) (p : Process) : Prop :=
  startedAt (recorder p) = start /\
  phase p <> Trapped /\
  ~ In Trap (trace p).

(** Every append on the trace comes after a successful initialisation of
    the writer, and so does the presence of a writer input; a failed
    append has requested a stop. *)
Definition append_inv (p : Process) : Prop :=
  (forall pre b post,
      trace p = pre ++ Append b :: post ->
      In (InitializeWriter true) pre) /\
  (writerInput (recorder p) <> None ->
   In (InitializeWriter true) (trace p)) /\
  (In (Append false) (trace p) -> stopRequested (recorder p) = true).

(** [stderr] reads as error lines and complete records, one record for
    each emission that did not trap, each with an [out_time_us] in the
    range of [UInt64]. *)
Definition records_inv (p : Process) : Prop :=
  exists recs,
    telemetry_records (stderr_lines (trace p)) = Some recs /\
    Forall (fun r => 0 <= snd (fst r) < 18446744073709551616) recs /\
    (List.length recs + count is_trap (trace p))%nat
    = List.length (emissions (trace p)).

(** An error line has been written only by a run that is stopping or has
    ended. *)
Definition fatal_inv (p : Process) : Prop :=
  forall m,
    In (Stderr (sck_error m)) (trace p) ->
    stopRequested (recorder p) = true \/ alive p = false.



(** The stop was requested by an event of [evs] that found the run between
    the test and the store of [waitUntilStopRequested]. *)
Definition requested_in_window (start : Date) (evs : list Event) : Prop :=
  exists pre ev post,
    evs = pre ++ ev :: post /\
    phase (execute start pre) = EnteringWait /\
    stopRequested (recorder (execute start pre)) = false /\
    stopRequested (recorder (execute start (pre ++ [ev]))) = true.



(** Every byte the buffers of a sample hold is zero. *)
Definition digital_silence (sampleBuffer : CMSampleBuffer) : bool :=
  match audioBufferList sampleBuffer with
  | None => true
  | Some buffers =>
      forallb
        (fun buffer =>
           match mData buffer with
           | None => true
           | Some data => forallb (Byte.eqb Byte.x00) data
           end)
        buffers
  end.

(** A [Float] that is a NaN or an infinity. *)
Definition non_finite (x : float32) : bool :=
  match x with
  | S754_nan | S754_infinity _ => true
  | _ => false
  end.

(** A running sum of squares that has left the numbers: NaN or
    [+infinity]. *)
Definition saturated (x : float32) : Prop :=
  x = S754_nan \/ x = S754_infinity false.

(** 32-bit float, packed, one channel; a buffer holding the single sample
    [0x7FC00000], a NaN. *)
Definition float32_pcm : AudioStreamBasicDescription :=
  {| mFormatFlags := 9; mBitsPerChannel := 32 |}.

Definition one_nan : CMSampleBuffer :=
  {| isValid := true;
     formatDescription := Some {| streamBasicDescription := Some float32_pcm |};
     audioBufferList :=
       Some [{| mNumberChannels := 1; mDataByteSize := 4;
                mData := Some [Byte.x00; Byte.x00; Byte.xc0; Byte.x7f] |}];
     presentationTimeStamp := 0%Q |}.

(** Four bytes of silence in the 16-bit layout. *)
Definition silent_buffer : CMSampleBuffer :=
  {| isValid := true;
     formatDescription :=
       Some {| streamBasicDescription := Some Scenario.pcm16 |};
     audioBufferList :=
       Some [{| mNumberChannels := 1; mDataByteSize := 4;
                mData := Some [Byte.x00; Byte.x00; Byte.x00; Byte.x00] |}];
     presentationTimeStamp := 0%Q |}.

(** The stream description of a sample, when it has one. *)
Definition description (sampleBuffer : CMSampleBuffer)
  : option AudioStreamBasicDescription :=
  match formatDescription sampleBuffer with
  | Some fd => streamBasicDescription fd
  | None => None
  end.

(** Capture starts, the run suspends, and the controller closes standard
    input before any sample is delivered. *)
Definition stopped_at_once : list Event :=
  [EvStartCaptureReturned None; EvContinuationStored; EvStdin Empty].

(** Capture starts and the controller closes standard input after the run
    has tested [stopRequested] and before it has stored the continuation;
    samples keep arriving. *)
Definition stop_in_window : list Event :=
  [EvStartCaptureReturned None;
   EvStdin Empty;
   EvContinuationStored;
   EvSample audio Scenario.two_samples
            (Scenario.at_time 1%Q Scenario.writer_accepts);
   EvShutdown (Scenario.stop_at 2%Q None)].

(** A shutdown during which the clock reads [t]. *)
Definition shutdown_at (t : Date) : ShutdownEnv :=
  {| stopCaptureError := None; finalNow := t; finalFileSize := None |}.

End Telemetry.

Import Telemetry.

(** ** [App.tsx]: the state of the window and what is derived from it

    JavaScript strings are held as their UTF-8 bytes, [null] and
    [undefined] as [None], arrays as lists. Library functions whose result
    depends on the locale or on Unicode tables ([localeCompare],
    [toLowerCase], [trim]) are parameters. *)

From Stdlib Require DecimalString.
From Stdlib Require Import Sorted Qround.

Module Ui.

(** The truthiness of a [string | null]: [null] and the empty string are
    falsy. *)
Definition truthy (value : option string) : bool :=
  match value with
  | Some s => negb (String.eqb s EmptyString)
  | None => false
  end.

(** [a === b] on [string | null]. *)
Definition key_eqb (a b : option string) : bool :=
  match a, b with
  | Some x, Some y => String.eqb x y
  | None, None => true
  | _, _ => false
  end.

(** [types.ts] *)

Module Folder.
Record t := {
  id : string;
  parent_id : option string;
  name : string;
  created_at : string;
  updated_at : string;
  deleted_at : option string
}.
End Folder.

Module Entry.
Record t := {
  id : string;
  folder_id : string;
  title : string;
  status : string;
  duration_sec : Q;
  recording_path : option string;
  created_at : string;
  updated_at : string;
  deleted_at : option string
}.
End Entry.

Module TranscriptRevision.
Record t := {
  id : string;
  entry_id : string;
  version : Z;
  text : string;
  language : string;
  is_manual_edit : bool;
  created_at : string
}.
End TranscriptRevision.

(** [PromptRole] has the members of [ArtifactType]. *)
Definition PromptRole : Type := App.ArtifactType.

Module PromptTemplate.
Record t := {
  role : PromptRole;
  prompt_text : string;
  updated_at : string
}.
End PromptTemplate.

Module BootstrapState.
Record t := {
  folders : list Folder.t;
  entries : list Entry.t;
  prompt_templates : list PromptTemplate.t;
  model_name : string
}.
End BootstrapState.

Module EntryBundle.
Record t := {
  transcript_revisions : list TranscriptRevision.t;
  artifact_revisions : list App.ArtifactRevision
}.
End EntryBundle.

Module RecordingSource.
Record t := {
  label : string;
  format : string;
  input : string
}.
End RecordingSource.

Module RecordingDevice.
Record t := {
  name : string;
  format : string;
  input : string;
  is_loopback : bool
}.
End RecordingDevice.

(** *** The folder tree: [buildTree], [renderFolderNodes] *)

(** A [Map<string | null, Folder[]>]: its entries in insertion order, each
    key once. *)
Definition FolderMap : Type := list (option string * list Folder.t).

Fixpoint map_get (key : option string) (m : FolderMap)
  : option (list Folder.t) :=
  match m with
  | [] => None
  | (k, v) :: rest => if key_eqb k key then Some v else map_get key rest
  end.

Fixpoint map_set (key : option string) (value : list Folder.t)
         (m : FolderMap) : FolderMap :=
  match m with
  | [] => [(key, value)]
  | (k, v) :: rest =>
      if key_eqb k key then (k, value) :: rest
      else (k, v) :: map_set key value rest
  end.

(** [map.get(key) ?? []] *)
Definition get_or_empty (key : option string) (m : FolderMap)
  : list Folder.t :=
  match map_get key m with
  | Some l => l
  | None => []
  end.

(** [!folder.deleted_at] *)
Definition folder_active (folder : Folder.t) : bool :=
  negb (truthy (Folder.deleted_at folder)).

Section Tree.

Variable localeCompare : string -> string -> Z.

Definition byName (a b : Folder.t) : Z :=
  localeCompare (Folder.name a) (Folder.name b).

(** [buildTree(folders)]: the first loop groups the folders under their
    [parent_id]; the second sorts every group in place. *)
Definition buildTree (folders : list Folder.t) : FolderMap :=
  let byParent :=
    fold_left
      (fun byParent folder =>
         let key := Folder.parent_id folder in
         let current := get_or_empty key byParent in
         map_set key (current ++ [folder]) byParent)
      folders [] in
  map (fun kv => (fst kv, App.js_sort byName (snd kv))) byParent.

(** The memo [folderTree]. *)
Definition folderTree (bootstrap : option BootstrapState.t) : FolderMap :=
  match bootstrap with
  | None => []
  | Some b =>
      buildTree (filter folder_active (BootstrapState.folders b))
  end.

End Tree.

(** What [renderFolderNodes] returns: one [<li>] for each folder, holding
    the button (marked when the folder is the selected one) and the list
    of its children. *)
#[warnings="-register-all"]
Inductive TreeNode :=
| li (folder : Folder.t) (active : bool) (children : list TreeNode).

(** [renderFolderNodes(parentId)]. The function calls itself once for every
    node it renders; [depth] bounds the nesting of these calls, and the
    result is [None] when the bound is exceeded (in JavaScript, a
    [RangeError] when the call stack is exhausted). *)
Fixpoint renderFolderNodes (depth : nat) (folderTree : FolderMap)
         (selectedFolderId : option string) (parentId : option string)
  : option (list TreeNode) :=
  match depth with
  | O => None
  | S depth' =>
      let nodes := get_or_empty parentId folderTree in
      fold_right
        (fun folder rest =>
           match renderFolderNodes depth' folderTree selectedFolderId
                                   (Some (Folder.id folder)), rest with
           | Some children, Some rest' =>
               Some (li folder
                        (key_eqb selectedFolderId (Some (Folder.id folder)))
                        children :: rest')
           | _, _ => None
           end)
        (Some []) nodes
  end.

(** The folders a list of nodes shows, from top to bottom. *)
Fixpoint shown (node : TreeNode) : list Folder.t :=
  match node with
  | li folder _ children => folder :: flat_map shown children
  end.

(** [x] lies under the key [k]: its parent is [k], or a folder that lies
    under [k]. *)
Inductive under (folders : list Folder.t) (k : option string)
  : Folder.t -> Prop :=
| under_child c :
    In c folders -> Folder.parent_id c = k -> under folders k c
| under_deeper c x :
    under folders k c -> In x folders ->
    Folder.parent_id x = Some (Folder.id c) -> under folders k x.

(** The number of steps from a folder up to the root. *)
Inductive level_of (folders : list Folder.t) : Folder.t -> nat -> Prop :=
| level_top f :
    In f folders -> Folder.parent_id f = None -> level_of folders f 1
| level_next f p n :
    In f folders -> Folder.parent_id f = Some (Folder.id p) ->
    level_of folders p n -> level_of folders f (S n).

(** The key [k] is the root ([n = 0]) or the id of a folder at level
    [n]. *)
Definition key_level (folders : list Folder.t) (k : option string)
           (n : nat) : Prop :=
  (k = None /\ n = O) \/
  exists p, In p folders /\ k = Some (Folder.id p) /\ level_of folders p n.

(** A comparison of names by code units, standing for a locale's. *)
Definition compareNames (a b : string) : Z :=
  match String.compare a b with
  | Lt => -1
  | Eq => 0
  | Gt => 1
  end.

(** Three folders: a root, a child of it, and one whose parent is not
    there. *)
Definition folder (i : string) (parent : option string) : Folder.t :=
  {| Folder.id := i; Folder.parent_id := parent; Folder.name := i;
     Folder.created_at := "2026-01-01T00:00:00Z";
     Folder.updated_at := "2026-01-01T00:00:00Z";
     Folder.deleted_at := None |}.

Definition three_folders : BootstrapState.t :=
  {| BootstrapState.folders :=
       [folder "calls" None; folder "sales" (Some "calls"%string);
        folder "orphan" (Some "gone"%string)];
     BootstrapState.entries := [];
     BootstrapState.prompt_templates := [];
     BootstrapState.model_name := "qwen3:8b" |}.

(** *** Entries of the selected folder, and the trash *)

Definition entry_deleted (entry : Entry.t) : bool :=
  truthy (Entry.deleted_at entry).

Section Entries.

Variable localeCompare : string -> string -> Z.

(** The memo [activeEntries]. *)
Definition activeEntries (bootstrap : option BootstrapState.t)
           (selectedFolderId : option string) : list Entry.t :=
  match bootstrap, selectedFolderId with
  | Some b, Some folderId =>
      if negb (truthy selectedFolderId) then []
      else
        App.js_sort
          (fun a b => localeCompare (Entry.created_at b) (Entry.created_at a))
          (filter
             (fun entry =>
                String.eqb (Entry.folder_id entry) folderId
                && negb (entry_deleted entry))
             (BootstrapState.entries b))
  | _, _ => []
  end.

End Entries.

(** The memos [trashedFolders] and [trashedEntries]. *)
Definition trashedFolders (bootstrap : option BootstrapState.t)
  : list Folder.t :=
  match bootstrap with
  | Some b =>
      filter (fun folder => truthy (Folder.deleted_at folder))
             (BootstrapState.folders b)
  | None => []
  end.

Definition trashedEntries (bootstrap : option BootstrapState.t)
  : list Entry.t :=
  match bootstrap with
  | Some b => filter entry_deleted (BootstrapState.entries b)
  | None => []
  end.

(** The memo [activeEntry]. *)
Definition activeEntry (bootstrap : option BootstrapState.t)
           (selectedEntryId : option string) : option Entry.t :=
  match bootstrap, selectedEntryId with
  | Some b, Some entryId =>
      if negb (truthy selectedEntryId) then None
      else find (fun entry => String.eqb (Entry.id entry) entryId)
                (BootstrapState.entries b)
  | _, _ => None
  end.

(** *** Recording sources and devices *)

(** [`${source.format}::${source.input}`] *)
Definition sourceKey (source : RecordingSource.t) : string :=
  RecordingSource.format source ++ "::" ++ RecordingSource.input source.

Definition deviceKey (device : RecordingDevice.t) : string :=
  RecordingDevice.format device ++ "::" ++ RecordingDevice.input device.

Definition sourceFromDevice (device : RecordingDevice.t)
  : RecordingSource.t :=
  {| RecordingSource.label := RecordingDevice.name device;
     RecordingSource.format := RecordingDevice.format device;
     RecordingSource.input := RecordingDevice.input device |}.

(** [devices.find((device) => deviceKey(device) === key)] *)
Definition findDevice (key : string) (devices : list RecordingDevice.t)
  : option RecordingDevice.t :=
  find (fun device => String.eqb (deviceKey device) key) devices.

(** The memos [hasLoopbackDevice], [selectedLoopbackOnly] and
    [selectedNativeSystemSource]. *)
Definition hasLoopbackDevice (recordingDevices : list RecordingDevice.t)
  : bool :=
  existsb RecordingDevice.is_loopback recordingDevices.

Definition selectedLoopbackOnly (recordingDevices : list RecordingDevice.t)
           (sources : list RecordingSource.t) : bool :=
  match sources with
  | [] => false
  | _ =>
      forallb
        (fun source =>
           match findDevice (sourceKey source) recordingDevices with
           | Some device => RecordingDevice.is_loopback device
           | None => false
           end)
        sources
  end.

Definition selectedNativeSystemSource (sources : list RecordingSource.t)
  : bool :=
  existsb
    (fun source => String.eqb (RecordingSource.format source)
                              "screencapturekit")
    sources.

(** The two hints of the recording panel: "No loopback/speaker device
    detected yet", and the one shown while the signal is low ("... appears
    silent"). *)
Definition noLoopbackHint (recordingDevices : list RecordingDevice.t)
  : bool :=
  negb (hasLoopbackDevice recordingDevices)
  && (0 <? List.length recordingDevices)%nat.

Definition silentHint (recordingDevices : list RecordingDevice.t)
           (sources : list RecordingSource.t) (levelIsLow : bool) : bool :=
  selectedLoopbackOnly recordingDevices sources && levelIsLow.

(** The devices and sources held by the component. *)
Record Recording := {
  recordingDevices : list RecordingDevice.t;
  sources : list RecordingSource.t
}.

(** [useState] initial values. *)
Definition initialRecording : Recording :=
  {| recordingDevices := [];
     sources := [{| RecordingSource.label := "Microphone";
                    RecordingSource.format := "avfoundation";
                    RecordingSource.input := ":0" |}] |}.

(** [string.includes(needle)] *)
Fixpoint includes (s needle : string) : bool :=
  String.prefix needle s
  || match s with
     | EmptyString => false
     | String _ s' => includes s' needle
     end.

(** [array.map((item, index) => ...)] *)
Fixpoint mapi_from (A B : Type) (f : A -> nat -> B) (index : nat)
         (l : list A) : list B :=
  match l with
  | [] => []
  | a :: rest => f a index :: mapi_from f (S index) rest
  end.

Section Devices.

Variable toLowerCase : string -> string.

(** [loadRecordingDevices], given the devices the backend lists: the
    devices are stored, and unless there is none the sources are
    reconciled with them by the updater passed to [setSources]. *)
Definition loadRecordingDevices (devices : list RecordingDevice.t)
           (st : Recording) : Recording :=
  match devices with
  | [] => {| recordingDevices := devices; sources := sources st |}
  | device0 :: _ =>
      let preferredMicLike :=
        match find (fun device => negb (RecordingDevice.is_loopback device))
                   devices with
        | Some device => device
        | None => device0
        end in
      let current := sources st in
      {| recordingDevices := devices;
         sources :=
           match current with
           | [] => [sourceFromDevice preferredMicLike]
           | _ =>
               mapi_from
                 (fun source index =>
                    match findDevice (sourceKey source) devices with
                    | Some exact => sourceFromDevice exact
                    | None =>
                        let fallback :=
                          if includes
                               (toLowerCase (RecordingSource.label source))
                               "mic"
                          then preferredMicLike
                          else nth (Nat.min index (List.length devices - 1))
                                   devices device0 in
                        sourceFromDevice fallback
                    end)
                 O current
           end |}
  end.

End Devices.

(** The [onChange] of the device selector of row [index]. *)
Definition selectDevice (index : nat) (value : string) (st : Recording)
  : Recording :=
  match findDevice value (recordingDevices st) with
  | None => st
  | Some selected =>
      {| recordingDevices := recordingDevices st;
         sources :=
           firstn index (sources st)
           ++ sourceFromDevice selected :: skipn (S index) (sources st) |}
  end.

(** The [onClick] of "Remove" in row [index]:
    [sources.filter((_, i) => i !== index)]. *)
Definition removeSource (index : nat) (st : Recording) : Recording :=
  {| recordingDevices := recordingDevices st;
     sources := firstn index (sources st) ++ skipn (S index) (sources st) |}.

(** The device "+ Add Source" picks: the first unused loopback device, else
    the first unused device, else the first device. *)
Definition addSourceCandidate (st : Recording) : option RecordingDevice.t :=
  let used := map sourceKey (sources st) in
  let unused device :=
    negb (existsb (String.eqb (deviceKey device)) used) in
  match find (fun device => RecordingDevice.is_loopback device
                            && unused device)
             (recordingDevices st) with
  | Some device => Some device
  | None =>
      match find unused (recordingDevices st) with
      | Some device => Some device
      | None => hd_error (recordingDevices st)
      end
  end.

(** The [onClick] of "+ Add Source". *)
Definition addSource (st : Recording) : Recording :=
  match addSourceCandidate st with
  | None => st
  | Some candidate =>
      {| recordingDevices := recordingDevices st;
         sources := sources st ++ [sourceFromDevice candidate] |}
  end.

(** What can happen to the sources. A control acts only while it is
    rendered and not disabled: the selector and "Remove" of row [index]
    exist for [index < sources.length]; the selector is disabled while
    [busy] or without devices, "Remove" while [busy] or with a single
    source, "+ Add Source" while [busy] or without devices. *)
Inductive SourceEvent :=
| DevicesLoaded (devices : list RecordingDevice.t)
| DeviceSelected (busy : bool) (index : nat) (value : string)
| SourceRemoved (busy : bool) (index : nat)
| SourceAdded (busy : bool).

Section SourceEvents.

Variable toLowerCase : string -> string.

Definition source_step (st : Recording) (ev : SourceEvent) : Recording :=
  match ev with
  | DevicesLoaded devices => loadRecordingDevices toLowerCase devices st
  | DeviceSelected busy index value =>
      if negb (busy || (List.length (recordingDevices st) =? 0)%nat)
         && (index <? List.length (sources st))%nat
      then selectDevice index value st else st
  | SourceRemoved busy index =>
      if negb (busy || (List.length (sources st) <=? 1)%nat)
         && (index <? List.length (sources st))%nat
      then removeSource index st else st
  | SourceAdded busy =>
      if negb (busy || (List.length (recordingDevices st) =? 0)%nat)
      then addSource st else st
  end.

Definition source_run (evs : list SourceEvent) : Recording :=
  fold_left source_step evs initialRecording.

End SourceEvents.

(** A source is what [sourceFromDevice] makes of one of the devices. *)
Definition from_devices (devices : list RecordingDevice.t)
           (source : RecordingSource.t) : Prop :=
  exists device, In device devices /\ source = sourceFromDevice device.

(** There is always a source, and while devices are known every source is
    one of them. *)
Definition sources_inv (st : Recording) : Prop :=
  sources st <> [] /\
  (recordingDevices st <> [] ->
   Forall (from_devices (recordingDevices st)) (sources st)).

(** A device none of the sources uses. *)
Definition unused (st : Recording) (device : RecordingDevice.t) : Prop :=
  ~ In (deviceKey device) (map sourceKey (sources st)).

(** Two devices, a microphone and a loopback device. *)
Definition microphone : RecordingDevice.t :=
  {| RecordingDevice.name := "MacBook Microphone";
     RecordingDevice.format := "avfoundation";
     RecordingDevice.input := ":0";
     RecordingDevice.is_loopback := false |}.

Definition blackhole : RecordingDevice.t :=
  {| RecordingDevice.name := "BlackHole 2ch";
     RecordingDevice.format := "avfoundation";
     RecordingDevice.input := ":1";
     RecordingDevice.is_loopback := true |}.

(** *** The entry bundle: [loadEntryBundle], the memo [latestTranscript] *)

Definition byVersionDesc (a b : TranscriptRevision.t) : Z :=
  TranscriptRevision.version b - TranscriptRevision.version a.

(** The part of the state [loadEntryBundle] writes. *)
Record Editor := {
  entryBundle : option EntryBundle.t;
  transcriptDraft : string;
  transcriptionLanguage : string;
  artifactDrafts : App.ArtifactType -> string
}.

Section Bundle.

Variable trim : string -> string.

(** [loadEntryBundle], given the bundle the backend returns.
    [bundle.transcript_revisions.sort(...)] sorts the array in place, and
    [setEntryBundle(bundle)] stored the very same object: the bundle held
    in the state has its transcript revisions sorted. The artifact
    revisions are left as they came ([filter] copies). *)
Definition loadEntryBundle (bundle : EntryBundle.t) : Editor :=
  let sorted :=
    App.js_sort byVersionDesc (EntryBundle.transcript_revisions bundle) in
  let latestTranscript := App.js_first sorted in
  {| entryBundle :=
       Some {| EntryBundle.transcript_revisions := sorted;
               EntryBundle.artifact_revisions :=
                 EntryBundle.artifact_revisions bundle |};
     transcriptDraft :=
       match latestTranscript with
       | Some r => TranscriptRevision.text r
       | None => EmptyString
       end;
     transcriptionLanguage :=
       match latestTranscript with
       | Some r =>
           if truthy (Some (TranscriptRevision.language r))
              && (0 <? String.length (trim (TranscriptRevision.language r)))%nat
           then TranscriptRevision.language r
           else "auto"%string
       | None => "auto"%string
       end;
     artifactDrafts :=
       fun type =>
         match App.latestByType (EntryBundle.artifact_revisions bundle) type
         with
         | Some r => App.text r
         | None => EmptyString
         end |}.

End Bundle.

(** The memo [latestTranscript]: it sorts the array of the stored bundle
    once more, in place, and takes its first element. The result and the
    bundle as it is afterwards. *)
Definition latestTranscript (entryBundle : option EntryBundle.t)
  : option TranscriptRevision.t * option EntryBundle.t :=
  match entryBundle with
  | None => (None, None)
  | Some b =>
      let sorted :=
        App.js_sort byVersionDesc (EntryBundle.transcript_revisions b) in
      (App.js_first sorted,
       Some {| EntryBundle.transcript_revisions := sorted;
               EntryBundle.artifact_revisions :=
                 EntryBundle.artifact_revisions b |})
  end.

(** A bundle with two transcript revisions, the older one first. *)
Definition transcript (v : Z) (t : string) : TranscriptRevision.t :=
  {| TranscriptRevision.id := t; TranscriptRevision.entry_id := "e1";
     TranscriptRevision.version := v; TranscriptRevision.text := t;
     TranscriptRevision.language := "en";
     TranscriptRevision.is_manual_edit := false;
     TranscriptRevision.created_at := "2026-01-01T00:00:00Z" |}.

Definition two_transcripts : EntryBundle.t :=
  {| EntryBundle.transcript_revisions :=
       [transcript 1 "first"; transcript 2 "second"];
     EntryBundle.artifact_revisions := App.sample_revisions |}.

(** *** [reloadBootstrap] *)

(** The part of the state [reloadBootstrap] reads and writes. *)
Record Shell := {
  bootstrap : option BootstrapState.t;
  modelName : string;
  promptDrafts : PromptRole -> string;
  selectedFolderId : option string;
  selectedEntryId : option string;
  shownBundle : option EntryBundle.t
}.

(** [nextPrompts[template.role] = template.prompt_text] *)
Definition setPrompt (drafts : PromptRole -> string)
           (template : PromptTemplate.t) : PromptRole -> string :=
  fun role =>
    if App.ArtifactType_eqb role (PromptTemplate.role template)
    then PromptTemplate.prompt_text template
    else drafts role.

(** [reloadBootstrap(keepSelection)], given the state [data] the backend
    returns. The function is a closure of one render: what it reads
    ([promptDrafts], [selectedFolderId], [selectedEntryId]) are the values
    [seen] by that render, while its setters act on the state [st] of the
    moment the call resumes after [await api.bootstrapState()]. The tree
    and the entry list stay enabled while a task is pending, so the two
    can differ. A setter that is not called leaves its part of [st]. *)
Definition reloadBootstrap (keepSelection : bool) (data : BootstrapState.t)
           (seen st : Shell) : Shell :=
  let firstFolder := find folder_active (BootstrapState.folders data) in
  let firstId := option_map Folder.id firstFolder in
  let folderExists :=
    match selectedFolderId seen with
    | Some sel =>
        existsb (fun folder => String.eqb (Folder.id folder) sel
                               && folder_active folder)
                (BootstrapState.folders data)
    | None => false
    end in
  let entryExists :=
    match selectedEntryId seen with
    | Some sel =>
        existsb (fun entry => String.eqb (Entry.id entry) sel
                              && negb (entry_deleted entry))
                (BootstrapState.entries data)
    | None => false
    end in
  let dropEntry :=
    negb keepSelection
    || (truthy (selectedEntryId seen) && negb entryExists) in
  {| bootstrap := Some data;
     modelName := BootstrapState.model_name data;
     promptDrafts :=
       fold_left setPrompt (BootstrapState.prompt_templates data)
                 (promptDrafts seen);
     selectedFolderId :=
       if negb keepSelection then firstId
       else if truthy (selectedFolderId seen)
            then (if folderExists then selectedFolderId st else firstId)
            else firstId;
     selectedEntryId := if dropEntry then None else selectedEntryId st;
     shownBundle := if dropEntry then None else shownBundle st |}.

(** A folder id of [data] that is not in the trash. *)
Definition live_folder (data : BootstrapState.t) (sel : string) : Prop :=
  exists f, In f (BootstrapState.folders data) /\
            Folder.id f = sel /\ folder_active f = true.

(** An entry id of [data] that is not in the trash. *)
Definition live_entry (data : BootstrapState.t) (sel : string) : Prop :=
  exists e, In e (BootstrapState.entries data) /\
            Entry.id e = sel /\ entry_deleted e = false.

(** [firstFolder?.id ?? null]: the first folder of [data] that is not in
    the trash. *)
Definition firstFolderId (data : BootstrapState.t) : option string :=
  option_map Folder.id (find folder_active (BootstrapState.folders data)).

(** Three folders at the root, the second in the trash. *)
Definition trashed_folder (id : string) : Folder.t :=
  {| Folder.id := id; Folder.parent_id := None; Folder.name := id;
     Folder.created_at := "2026-01-01T00:00:00Z";
     Folder.updated_at := "2026-01-01T00:00:00Z";
     Folder.deleted_at := Some "2026-02-01T00:00:00Z"%string |}.

Definition second_trashed : BootstrapState.t :=
  {| BootstrapState.folders :=
       [folder "f1" None; trashed_folder "f2"; folder "f3" None];
     BootstrapState.entries := [];
     BootstrapState.prompt_templates := [];
     BootstrapState.model_name := "qwen3:8b" |}.

(** The window with the folder [sel] selected and no entry. *)
Definition selecting (sel : string) : Shell :=
  {| bootstrap := None; modelName := "qwen3:8b";
     promptDrafts := fun _ => EmptyString;
     selectedFolderId := Some sel; selectedEntryId := None;
     shownBundle := None |}.

(** *** [formatBytes]

    The argument is a byte count: an integer from [0] to [2^53 - 1]. On
    these the divisions by [1024] and [1024 * 1024] are exact in binary64,
    so the numbers are held as rationals. *)

(** An integer as [String(n)] prints it. *)
Definition number_toString (n : Z) : string :=
  DecimalString.NilZero.string_of_int (Z.to_int n).

(** [Math.round]: the nearest integer, a half going up. *)
Definition Math_round (x : Q) : Z := Qfloor (x + (1 # 2))%Q.

(** [x.toFixed(1)] for [0 <= x < 10^21]: the integer [n] for which
    [n / 10] is nearest to [x] (the larger one of two), printed with a
    point before its last digit. *)
Definition toFixed1 (x : Q) : string :=
  let n := Qfloor (x * 10 + (1 # 2))%Q in
  (number_toString (n / 10) ++ "." ++ number_toString (n mod 10))%string.

Definition formatBytes (value : Z) : string :=
  if value <? 1024 then (number_toString value ++ " B")%string
  else if value <? 1024 * 1024
       then (number_toString (Math_round (inject_Z value / 1024)%Q)
             ++ " KB")%string
       else (toFixed1 (inject_Z value / (1024 * 1024))%Q ++ " MB")%string.

End Ui.

(* ===================================================================== *)
(** * Part II — theorems                                                  *)
(* ===================================================================== *)

(** ** [latestByType] *)

Section LatestByType.
Import App.

Let byVersionDesc (a b : ArtifactRevision) : Z := version b - version a.

Lemma sort_insert_perm (A : Type) (cmp : A -> A -> Z) (x : A) (l : list A) :
  Permutation (sort_insert cmp x l) (x :: l).
Proof.
  induction l as [|y l IH]; simpl.
  - apply Permutation_refl.
  - destruct (cmp x y <=? 0).
    + apply Permutation_refl.
    + apply perm_trans with (y :: x :: l).
      * now apply perm_skip.
      * apply perm_swap.
Qed.

Lemma js_sort_perm (A : Type) (cmp : A -> A -> Z) (l : list A) :
  Permutation (js_sort cmp l) l.
Proof.
  induction l as [|x l IH]; simpl.
  - apply perm_nil.
  - eapply perm_trans; [apply sort_insert_perm | now apply perm_skip].
Qed.

(** The first element of the sorted array carries a maximal version. *)
Lemma js_sort_first_max (l : list ArtifactRevision) :
  match js_sort byVersionDesc l with
  | [] => l = []
  | h :: _ => forall y, In y l -> version y <= version h
  end.
Proof.
  induction l as [|x l IH]; simpl; [reflexivity|].
  destruct (js_sort byVersionDesc l) as [|h rest] eqn:E; simpl.
  - subst l. intros y [<-|[]]. lia.
  - unfold byVersionDesc at 1.
    destruct (version h - version x <=? 0) eqn:C.
    + apply Z.leb_le in C. intros y [<-|Hy]; [lia|].
      specialize (IH y Hy). lia.
    + apply Z.leb_gt in C. intros y [<-|Hy]; [lia|]. now apply IH.
Qed.

Lemma ArtifactType_eqb_eq (a b : ArtifactType) :
  ArtifactType_eqb a b = true <-> a = b.
Proof. destruct a, b; simpl; split; congruence. Qed.

(** C10. For every list of artifact revisions and every artifact type,
    [latestByType] returns a revision of the list that has that type and
    whose version is maximal among the revisions of that type; it returns
    [undefined] exactly when the list holds no revision of that type. *)
Theorem latestByType_spec (revisions : list ArtifactRevision)
        (type : ArtifactType) :
  match latestByType revisions type with
  | Some r =>
      In r revisions /\ artifact_type r = type /\
      (forall r', In r' revisions -> artifact_type r' = type ->
                  version r' <= version r)
  | None => forall r, In r revisions -> artifact_type r <> type
  end.
Proof.
  unfold latestByType, js_first.
  set (sel := filter _ revisions).
  pose proof (js_sort_first_max sel) as Hmax.
  pose proof (js_sort_perm byVersionDesc sel) as Hperm.
  fold byVersionDesc.
  destruct (js_sort byVersionDesc sel) as [|h rest]; simpl.
  - intros r Hin Hty.
    assert (Hsel : In r sel).
    { apply filter_In. split; [assumption|]. now apply ArtifactType_eqb_eq. }
    rewrite Hmax in Hsel. destruct Hsel.
  - assert (Hh : In h sel).
    { eapply Permutation_in; [exact Hperm | now left]. }
    apply filter_In in Hh. destruct Hh as [Hin Hty].
    apply ArtifactType_eqb_eq in Hty.
    repeat split; try assumption.
    intros r' Hin' Hty'. apply Hmax, filter_In.
    split; [assumption|]. now apply ArtifactType_eqb_eq.
Qed.

Example latestByType_newest_summary :
  latestByType sample_revisions summary
  = Some (sample_revision "s2" summary 2).
Proof. reflexivity. Qed.

Example latestByType_absent_type :
  latestByType sample_revisions critique_sales = None.
Proof. reflexivity. Qed.

End LatestByType.

(** ** [Float] arithmetic: signs and the unit interval *)

Section FloatFacts.

(** The literals are what rounding to binary32 gives. *)
Example literals_rounded :
  of_Z 1 = one /\
  of_Z 32768 = lit_32768 /\
  div (of_Z 3) (of_Z 4) = lit_0_75 /\
  div (of_Z 1) (of_Z 4) = lit_0_25 /\
  div (of_Z 28) (of_Z 10) = lit_2_8.
Proof. repeat split; reflexivity. Qed.

(** Shifting and rounding a non-negative significand keeps it
    non-negative, so rounding never falls into the NaN fallback. *)
Lemma shr_1_nonneg mrs : 0 <= shr_m mrs -> 0 <= shr_m (shr_1 mrs).
Proof.
  destruct mrs as [m r s]; simpl.
  destruct m as [|[p|p|]|[p|p|]]; simpl; lia.
Qed.

Lemma iter_shr_1_nonneg n : forall mrs,
  0 <= shr_m mrs -> 0 <= shr_m (iter_pos shr_1 n mrs).
Proof.
  induction n as [n IH|n IH|]; intros mrs H; simpl.
  - apply IH, IH, shr_1_nonneg, H.
  - apply IH, IH, H.
  - apply shr_1_nonneg, H.
Qed.

Lemma shr_record_of_loc_m m l : shr_m (shr_record_of_loc m l) = m.
Proof. destruct l as [|[]]; reflexivity. Qed.

Lemma shr_fexp_nonneg m e l :
  0 <= m -> 0 <= shr_m (fst (shr_fexp prec emax m e l)).
Proof.
  intros H. unfold shr_fexp, shr.
  destruct (fexp prec emax (Zdigits2 m + e) - e) as [|n|n]; simpl;
    try (rewrite shr_record_of_loc_m; exact H).
  apply iter_shr_1_nonneg. rewrite shr_record_of_loc_m; exact H.
Qed.

Lemma round_nearest_even_nonneg m l : 0 <= m -> 0 <= round_nearest_even m l.
Proof.
  intros H. destruct l as [|[]]; simpl; try lia.
  destruct (Z.even m); lia.
Qed.


Lemma binary_round_aux_sign s m e l :
  0 <= m -> has_sign s (binary_round_aux prec emax s m e l).
Proof.
  intros H. unfold binary_round_aux.
  pose proof (shr_fexp_nonneg e l H) as H1.
  destruct (shr_fexp prec emax m e l) as [mrs' e'] eqn:E1. simpl in H1.
  pose proof (round_nearest_even_nonneg (loc_of_shr_record mrs') H1) as H2.
  pose proof (shr_fexp_nonneg e' loc_Exact H2) as H3.
  destruct (shr_fexp prec emax _ e' loc_Exact) as [mrs'' e''] eqn:E2.
  simpl in H3.
  destruct (shr_m mrs'') as [|p|p]; simpl; try reflexivity; try lia.
  destruct (e'' <=? _); reflexivity.
Qed.

Lemma has_sign_false_nonneg x : has_sign false x -> nonneg x = true.
Proof.
  destruct x; simpl; intros H; try subst; try reflexivity; contradiction.
Qed.

Lemma mul_nonneg x m e :
  nonneg x = true -> nonneg (mul x (S754_finite false m e)) = true.
Proof.
  destruct x as [s|s| |s mx ex]; simpl; intros H; try discriminate.
  - reflexivity.
  - now rewrite xorb_false_r.
  - apply has_sign_false_nonneg. rewrite xorb_false_r.
    apply negb_true_iff in H. subst s. apply binary_round_aux_sign. lia.
Qed.


Lemma sqrt_nonneg_or_nan x : is_nan (sqrt x) = true \/ nonneg (sqrt x) = true.
Proof.
  destruct x as [s|[]| |[] mx ex]; simpl; auto.
  right. unfold SFsqrt_core_binary.
  set (e' := Z.min _ _).
  set (m' := match ex - 2 * e' with 0 => _ | Z.pos _ => _ | Z.neg _ => _ end).
  assert (Hm : 0 <= m').
  { subst m'. destruct (ex - 2 * e') eqn:E; try lia.
    apply Z.shiftl_nonneg. lia. }
  pose proof (Z.sqrtrem_spec m' Hm) as Hs.
  destruct (Z.sqrtrem m') as [q r].
  apply has_sign_false_nonneg, binary_round_aux_sign.
  destruct Hs as [_ Hs]. nia.
Qed.

Lemma add_nonneg x y :
  nonneg x = true -> nonneg y = true -> nonneg (add x y) = true.
Proof.
  destruct x as [sx|sx| |sx mx ex], y as [sy|sy| |sy my ey]; simpl;
    intros Hx Hy; try discriminate; try assumption;
    try (apply negb_true_iff in Hx; subst sx);
    try (apply negb_true_iff in Hy; subst sy); try reflexivity.
  - destruct sx, sy; reflexivity.
  - apply has_sign_false_nonneg. unfold add, SFadd, cond_Zopp, binary_normalize.
    simpl Z.add. unfold binary_round.
    destruct (shl_align _ _ _) as [mz ez].
    apply binary_round_aux_sign. lia.
Qed.

Lemma SFcompare_antisym x y :
  SFcompare y x = option_map CompOpp (SFcompare x y).
Proof.
  destruct x as [sx|sx| |sx mx ex], y as [sy|sy| |sy my ey]; simpl;
    try reflexivity;
    try (destruct sx; reflexivity); try (destruct sy; reflexivity);
    try (destruct sx, sy; reflexivity).
  destruct sx, sy; simpl; try reflexivity;
    rewrite (Z.compare_antisym ex ey);
    destruct (ex ?= ey); simpl; try reflexivity;
    rewrite (Pos.compare_cont_antisym mx my Eq); simpl;
    try rewrite CompOpp_involutive; reflexivity.
Qed.

Lemma leb_zero_nonneg x : leb zero x = true <-> nonneg x = true.
Proof.
  destruct x as [s|s| |s m e]; unfold leb, SFleb; simpl;
    try destruct s; simpl; split; congruence.
Qed.

Lemma ltb_leb x y : ltb x y = true -> leb x y = true.
Proof.
  unfold ltb, leb, SFltb, SFleb.
  destruct (SFcompare x y) as [[]|]; congruence.
Qed.

Lemma not_ltb_leb x y :
  is_nan x = false -> is_nan y = false -> ltb y x = false -> leb x y = true.
Proof.
  unfold ltb, leb, SFltb, SFleb. intros Hx Hy.
  rewrite (SFcompare_antisym x y).
  destruct (SFcompare x y) as [[]|] eqn:E; simpl; try congruence.
  destruct x as [sx|sx| |sx mx ex], y as [sy|sy| |sy my ey]; simpl in *;
    try discriminate; try destruct sx; try destruct sy; discriminate.
Qed.

Lemma nonneg_not_nan x : nonneg x = true -> is_nan x = false.
Proof. destruct x; simpl; congruence. Qed.

Lemma in_unit_one : in_unit one = true.
Proof. reflexivity. Qed.

Lemma in_unit_zero : in_unit zero = true.
Proof. reflexivity. Qed.

Lemma in_unit_nonneg x : in_unit x = true -> nonneg x = true.
Proof.
  unfold in_unit. intros H. apply andb_true_iff in H.
  now apply leb_zero_nonneg.
Qed.

(** [min(1, rms * 2.8)] lies in the unit interval whatever [rms] is. *)
Lemma min_one_scaled_sqrt_in_unit x :
  in_unit (min one (mul (sqrt x) lit_2_8)) = true.
Proof.
  unfold min. destruct (ltb (mul (sqrt x) lit_2_8) one) eqn:L.
  - unfold in_unit. rewrite (ltb_leb _ _ L), andb_true_r.
    apply leb_zero_nonneg.
    destruct (sqrt_nonneg_or_nan x) as [Hn|Hn].
    + destruct (sqrt x); discriminate.
    + now apply mul_nonneg.
  - apply in_unit_one.
Qed.

Lemma clamped_in_unit x :
  nonneg x = true -> in_unit (clamped x zero one) = true.
Proof.
  intros Hx. unfold clamped, min, max, geb.
  set (a := if SFleb x zero then zero else x).
  assert (Ha : nonneg a = true) by (subst a; destruct (SFleb x zero); auto).
  destruct (ltb one a) eqn:L.
  - apply in_unit_one.
  - unfold in_unit. apply andb_true_iff. split.
    + now apply leb_zero_nonneg.
    + apply not_ltb_leb; auto using nonneg_not_nan.
Qed.

Lemma smooth_in_unit prior lvl :
  in_unit prior = true -> in_unit lvl = true ->
  in_unit (smooth prior lvl) = true.
Proof.
  intros Hp Hl. unfold smooth. apply clamped_in_unit, add_nonneg;
    apply mul_nonneg; now apply in_unit_nonneg.
Qed.

End FloatFacts.

(** ** [computeRmsLevel]: the loops against the formula *)

Section LevelMeter.

Let square_acc (acc x : float32) : float32 := add acc (mul x x).

Lemma fold_left_map_square (A : Type) (f : A -> float32) (l : list A) :
  forall acc,
    fold_left (fun a i => add a (mul (f i) (f i))) l acc
    = fold_left square_acc (map f l) acc.
Proof.
  induction l as [|i l IH]; intros acc; simpl; [reflexivity|apply IH].
Qed.

Lemma sample_count_float (bytes : N) :
  Z.to_nat (Z.of_N bytes / 4) = (N.to_nat bytes / 4)%nat.
Proof.
  rewrite <- N_nat_Z.
  change 4 with (Z.of_nat 4). rewrite <- Nat2Z.inj_div. apply Nat2Z.id.
Qed.

Lemma sample_count_int16 (bytes : N) :
  Z.to_nat (Z.of_N bytes / 2) = (N.to_nat bytes / 2)%nat.
Proof.
  rewrite <- N_nat_Z.
  change 2 with (Z.of_nat 2). rewrite <- Nat2Z.inj_div. apply Nat2Z.id.
Qed.

Lemma sample_count_nonneg (bytes : N) (k : Z) :
  0 < k -> Z.of_nat (Z.to_nat (Z.of_N bytes / k)) = Z.of_N bytes / k.
Proof.
  intros Hk. apply Z2Nat.id. apply Z.div_pos; lia.
Qed.

(** One buffer: the loop body adds the squares of exactly the samples the
    buffer holds, and counts them. *)
Lemma rms_buffer_step_samples (asbd : AudioStreamBasicDescription)
      (accum : float32) (sampleCount : Z) (buffer : AudioBuffer) :
  rms_buffer_step (asbd_isFloat asbd) (asbd_isSignedInt asbd)
                  (Z.of_N (mBitsPerChannel asbd)) (accum, sampleCount) buffer
  = (fold_left square_acc (buffer_samples asbd buffer) accum,
     sampleCount + Z.of_nat (List.length (buffer_samples asbd buffer))).
Proof.
  unfold rms_buffer_step, buffer_samples, float_layout, int16_layout.
  destruct (mData buffer) as [data|]; cbv zeta;
    [|cbn [fold_left List.length]; f_equal; lia].
  destruct (asbd_isFloat asbd && (Z.of_N (mBitsPerChannel asbd) =? 32)).
  - unfold accumulate_float. rewrite fold_left_map_square.
    rewrite length_map, length_seq, <- sample_count_float.
    rewrite sample_count_nonneg by lia. reflexivity.
  - destruct (asbd_isSignedInt asbd && (Z.of_N (mBitsPerChannel asbd) =? 16)).
    + unfold accumulate_int16.
      rewrite (fold_left_map_square
                 (fun idx => div (of_Z (read_int16 data idx)) lit_32768)).
      rewrite length_map, length_seq, <- sample_count_int16.
      rewrite sample_count_nonneg by lia. reflexivity.
    + cbn [fold_left List.length]. f_equal. lia.
Qed.

Lemma rms_loop_samples (asbd : AudioStreamBasicDescription)
      (buffers : list AudioBuffer) :
  forall accum sampleCount,
    fold_left
      (rms_buffer_step (asbd_isFloat asbd) (asbd_isSignedInt asbd)
                       (Z.of_N (mBitsPerChannel asbd)))
      buffers (accum, sampleCount)
    = (fold_left square_acc (flat_map (buffer_samples asbd) buffers) accum,
       sampleCount
       + Z.of_nat (List.length (flat_map (buffer_samples asbd) buffers))).
Proof.
  induction buffers as [|b bs IH]; intros accum sampleCount;
    cbn [fold_left flat_map List.length].
  - f_equal. lia.
  - rewrite rms_buffer_step_samples, IH, fold_left_app, length_app.
    f_equal. lia.
Qed.

(** The level the adapter computes is the normalised RMS of the samples the
    buffer is interpreted to hold. *)
Lemma computeRmsLevel_normalized_level (sampleBuffer : CMSampleBuffer) :
  computeRmsLevel sampleBuffer
  = normalized_level (interpreted_samples sampleBuffer).
Proof.
  unfold computeRmsLevel, interpreted_samples.
  destruct (formatDescription sampleBuffer) as [[[asbd|]]|]; try reflexivity.
  simpl. destruct (audioBufferList sampleBuffer) as [buffers|]; try reflexivity.
  rewrite rms_loop_samples. simpl.
  destruct (flat_map (buffer_samples asbd) buffers) as [|x xs] eqn:E.
  - reflexivity.
  - change (Z.of_nat (List.length (x :: xs)) =? 0)
      with (Z.pos (Pos.of_succ_nat (List.length xs)) =? 0).
    reflexivity.
Qed.

Lemma normalized_level_in_unit (xs : list float32) :
  in_unit (normalized_level xs) = true.
Proof.
  destruct xs as [|x xs]; [reflexivity|].
  apply min_one_scaled_sqrt_in_unit.
Qed.

Lemma buffer_samples_unsupported (asbd : AudioStreamBasicDescription)
      (buffers : list AudioBuffer) :
  supported_layout asbd = false ->
  flat_map (buffer_samples asbd) buffers = [].
Proof.
  unfold supported_layout. intros H. apply orb_false_iff in H.
  destruct H as [Hf Hi].
  induction buffers as [|b bs IH]; simpl; [reflexivity|].
  rewrite IH, app_nil_r. unfold buffer_samples.
  rewrite Hf, Hi. now destruct (mData b).
Qed.

Lemma length_buffer_samples (asbd : AudioStreamBasicDescription)
      (buffer : AudioBuffer) :
  Z.of_nat (List.length (buffer_samples asbd buffer))
  <= Z.of_N (mDataByteSize buffer) / 2.
Proof.
  assert (H2 : Z.of_nat (N.to_nat (mDataByteSize buffer) / 2)
               = Z.of_N (mDataByteSize buffer) / 2)
    by (now rewrite Nat2Z.inj_div, N_nat_Z).
  assert (H4 : Z.of_nat (N.to_nat (mDataByteSize buffer) / 4)
               = Z.of_N (mDataByteSize buffer) / 4)
    by (now rewrite Nat2Z.inj_div, N_nat_Z).
  assert (H0 : 0 <= Z.of_N (mDataByteSize buffer) / 2)
    by (apply Z.div_pos; lia).
  unfold buffer_samples.
  destruct (mData buffer); [|exact H0].
  destruct (float_layout asbd).
  - rewrite length_map, length_seq, H4.
    apply Z.div_le_compat_l; lia.
  - destruct (int16_layout asbd); [|exact H0].
    rewrite length_map, length_seq, H2. lia.
Qed.

Lemma length_interpreted (asbd : AudioStreamBasicDescription)
      (buffers : list AudioBuffer) :
  Forall (fun b => (mDataByteSize b < 4294967296)%N) buffers ->
  Z.of_nat (List.length (flat_map (buffer_samples asbd) buffers))
  <= 2147483647 * Z.of_nat (List.length buffers).
Proof.
  induction 1 as [|b bs Hb _ IH]; [simpl; lia|].
  cbn [flat_map List.length]. rewrite length_app.
  pose proof (length_buffer_samples asbd b) as Hl.
  assert (Z.of_N (mDataByteSize b) / 2 <= 2147483647).
  { apply Z.lt_succ_r. apply Z.div_lt_upper_bound; lia. }
  lia.
Qed.

(** The counter [sampleCount] stays within [Int] at every iteration: the
    additions of the loop cannot overflow. *)
Lemma sampleCount_fits_Int (asbd : AudioStreamBasicDescription)
      (buffers : list AudioBuffer) (k : nat) :
  Forall (fun b => (mDataByteSize b < 4294967296)%N) buffers ->
  Z.of_nat (List.length buffers) < 4294967296 ->
  0 <= snd (fold_left
              (rms_buffer_step (asbd_isFloat asbd) (asbd_isSignedInt asbd)
                               (Z.of_N (mBitsPerChannel asbd)))
              (firstn k buffers) (zero, 0))
  < 9223372036854775808.
Proof.
  intros Hb Hn. rewrite rms_loop_samples. cbn [snd].
  assert (Hk : Forall (fun b => (mDataByteSize b < 4294967296)%N)
                      (firstn k buffers)).
  { clear Hn. revert k. induction Hb as [|b bs Hb _ IH]; intros [|k];
      simpl; auto. }
  pose proof (length_interpreted asbd Hk) as Hl.
  rewrite length_firstn in Hl. lia.
Qed.

(** C9. [computeRmsLevel] is a total function of the sample buffer; its
    value always lies in [[0,1]] (it is never a NaN), and it is [0] when the
    format description or its stream description is missing, when the audio
    buffer list cannot be extracted, when the layout is neither 16-bit
    signed integer nor 32-bit float PCM, and when no sample was
    interpreted. Its one checked arithmetic operation, the addition to
    [sampleCount], cannot overflow [Int] on buffers whose counters are
    [UInt32]. *)
Theorem computeRmsLevel_total_safe (sampleBuffer : CMSampleBuffer) :
  in_unit (computeRmsLevel sampleBuffer) = true /\
  (formatDescription sampleBuffer = None ->
   computeRmsLevel sampleBuffer = zero) /\
  (formatDescription sampleBuffer
   = Some {| streamBasicDescription := None |} ->
   computeRmsLevel sampleBuffer = zero) /\
  (audioBufferList sampleBuffer = None ->
   computeRmsLevel sampleBuffer = zero) /\
  (forall asbd,
      formatDescription sampleBuffer
      = Some {| streamBasicDescription := Some asbd |} ->
      supported_layout asbd = false ->
      computeRmsLevel sampleBuffer = zero) /\
  (interpreted_samples sampleBuffer = [] ->
   computeRmsLevel sampleBuffer = zero) /\
  (forall asbd buffers k,
      Forall (fun b => (mDataByteSize b < 4294967296)%N) buffers ->
      Z.of_nat (List.length buffers) < 4294967296 ->
      0 <= snd (fold_left
                  (rms_buffer_step (asbd_isFloat asbd)
                                   (asbd_isSignedInt asbd)
                                   (Z.of_N (mBitsPerChannel asbd)))
                  (firstn k buffers) (zero, 0))
      < 9223372036854775808).
Proof.
  rewrite computeRmsLevel_normalized_level.
  split; [apply normalized_level_in_unit|].
  unfold interpreted_samples.
  split; [|split; [|split; [|split; [|split]]]].
  - intros ->. reflexivity.
  - intros ->. reflexivity.
  - intros ->. now destruct (formatDescription sampleBuffer) as [[[|]]|].
  - intros asbd -> Hl.
    destruct (audioBufferList sampleBuffer); [|reflexivity].
    now rewrite buffer_samples_unsupported.
  - intros ->. reflexivity.
  - intros asbd buffers k. apply sampleCount_fits_Int.
Qed.

(** Two 16-bit samples of magnitude 1000: [2.8 * 1000 / 32768], rounded
    to binary32. *)
Example computeRmsLevel_two_samples :
  computeRmsLevel Scenario.two_samples = S754_finite false 11468800 (-27).
Proof. reflexivity. Qed.

Example computeRmsLevel_undescribed :
  computeRmsLevel Scenario.undescribed = zero.
Proof. reflexivity. Qed.

(** ** The level of digital silence, and of a sample that is not a number *)

Lemma shr_1_half mrs : 0 <= shr_m mrs -> shr_m (shr_1 mrs) = shr_m mrs / 2.
Proof.
  destruct mrs as [m r s]; simpl.
  destruct m as [|[p|p|]|p]; simpl; intros H; try reflexivity; try lia.
  - rewrite Pos2Z.inj_xI. apply Z.div_unique with (r := 1); lia.
  - rewrite Pos2Z.inj_xO. apply Z.div_unique with (r := 0); lia.
Qed.

Lemma iter_shr_1_div n : forall mrs,
  0 <= shr_m mrs ->
  shr_m (iter_pos shr_1 n mrs) = shr_m mrs / 2 ^ Z.pos n.
Proof.
  induction n as [n IH|n IH|]; intros mrs H; simpl iter_pos.
  - rewrite IH, IH, shr_1_half by
      (try apply iter_shr_1_nonneg; try apply shr_1_nonneg; exact H).
    rewrite !Z.div_div by lia. f_equal.
    replace (Z.pos n~1) with (1 + Z.pos n + Z.pos n) by lia.
    rewrite !Z.pow_add_r by lia. change (2 ^ 1) with 2. ring.
  - rewrite IH, IH by (try apply iter_shr_1_nonneg; exact H).
    rewrite !Z.div_div by lia. f_equal.
    replace (Z.pos n~0) with (Z.pos n + Z.pos n) by lia.
    rewrite Z.pow_add_r by lia. ring.
  - rewrite shr_1_half by exact H. reflexivity.
Qed.

Lemma digits2_pos_lower p : 2 ^ (Z.pos (digits2_pos p) - 1) <= Z.pos p.
Proof.
  induction p as [p IH|p IH|]; simpl digits2_pos.
  - rewrite Pos2Z.inj_succ.
    replace (Z.succ (Z.pos (digits2_pos p)) - 1)
      with (Z.succ (Z.pos (digits2_pos p) - 1)) by lia.
    rewrite Z.pow_succ_r by lia. lia.
  - rewrite Pos2Z.inj_succ.
    replace (Z.succ (Z.pos (digits2_pos p)) - 1)
      with (Z.succ (Z.pos (digits2_pos p) - 1)) by lia.
    rewrite Z.pow_succ_r by lia. lia.
  - simpl. lia.
Qed.

(** At or above the least exponent a positive significand is not shifted
    out: rounding does not underflow to zero there. *)
Lemma shr_fexp_positive m e l :
  -149 <= e -> 0 < m ->
  0 < shr_m (fst (shr_fexp prec emax m e l)) /\
  e <= snd (shr_fexp prec emax m e l).
Proof.
  intros He Hm. unfold shr_fexp, shr.
  destruct m as [|p|p]; try lia. cbn [Zdigits2].
  pose proof (digits2_pos_lower p) as Hd.
  set (d := Z.pos (digits2_pos p)) in *.
  assert (Hn : fexp prec emax (d + e) - e <= d - 1).
  { unfold fexp, SpecFloat.emin, prec, emax. lia. }
  destruct (fexp prec emax (d + e) - e) as [|n|n] eqn:En; cbn [fst snd].
  - rewrite shr_record_of_loc_m. lia.
  - rewrite iter_shr_1_div, shr_record_of_loc_m
      by (rewrite shr_record_of_loc_m; lia).
    split; [|lia].
    apply Z.div_str_pos. split; [apply Z.pow_pos_nonneg; lia|].
    transitivity (2 ^ (d - 1)); [|exact Hd].
    apply Z.pow_le_mono_r; lia.
  - rewrite shr_record_of_loc_m. lia.
Qed.

Lemma round_nearest_even_positive m l : 0 < m -> 0 < round_nearest_even m l.
Proof.
  intros H. destruct l as [|[]]; simpl; try lia.
  destruct (Z.even m); lia.
Qed.

Lemma binary_round_aux_positive s p e l :
  -149 <= e ->
  (exists m' e', binary_round_aux prec emax s (Z.pos p) e l
                 = S754_finite s m' e') \/
  binary_round_aux prec emax s (Z.pos p) e l = S754_infinity s.
Proof.
  intros He. unfold binary_round_aux.
  destruct (@shr_fexp_positive (Z.pos p) e l He) as [H1 E1]; [lia|].
  destruct (shr_fexp prec emax (Z.pos p) e l) as [mrs' e'].
  cbn [fst snd] in H1, E1.
  pose proof (round_nearest_even_positive (loc_of_shr_record mrs') H1) as H2.
  destruct (@shr_fexp_positive _ e' loc_Exact ltac:(lia) H2) as [H3 _].
  destruct (shr_fexp prec emax _ e' loc_Exact) as [mrs'' e''].
  cbn [fst] in H3.
  destruct (shr_m mrs'') as [|m|m]; try lia.
  destruct (e'' <=? _); eauto.
Qed.

(** [Float(n)] of a positive integer is a positive number or [+infinity]. *)
Lemma of_Z_positive n :
  0 < n ->
  (exists m e, of_Z n = S754_finite false m e) \/
  of_Z n = S754_infinity false.
Proof.
  intros H. destruct n as [|p|p]; try lia.
  unfold of_Z, binary_normalize, binary_round.
  destruct (shl_align p 0 _) as [mz ez] eqn:E.
  apply binary_round_aux_positive.
  unfold shl_align in E.
  destruct (fexp prec emax (Z.pos (digits2_pos p) + 0) - 0) eqn:F;
    injection E as <- <-; try lia.
  unfold fexp, SpecFloat.emin, prec, emax. lia.
Qed.

Lemma sum_squares_zero (xs : list float32) :
  Forall (fun x => x = zero) xs -> fold_left square_acc xs zero = zero.
Proof.
  induction 1 as [|x xs -> _ IH]; [reflexivity|]. exact IH.
Qed.

Lemma normalized_level_silence (xs : list float32) :
  Forall (fun x => x = zero) xs -> normalized_level xs = zero.
Proof.
  intros H. destruct xs as [|x xs]; [reflexivity|].
  unfold normalized_level, rms, sum_squares.
  change (fun acc x0 => add acc (mul x0 x0)) with square_acc.
  rewrite (sum_squares_zero H).
  assert (Hn : 0 < Z.of_nat (List.length (x :: xs))) by (simpl; lia).
  destruct (of_Z_positive Hn) as [(m & e & ->)| ->]; reflexivity.
Qed.

Lemma load_le_silence (data : list Byte.byte) (n : nat) :
  forallb (Byte.eqb Byte.x00) data = true ->
  forall off, load_le data off n = 0.
Proof.
  intros H. induction n as [|n IH]; intros off; simpl; [reflexivity|].
  rewrite IH. unfold byte_at.
  assert (E : nth off data Byte.x00 = Byte.x00).
  { destruct (nth_in_or_default off data Byte.x00) as [Hin|E]; [|exact E].
    rewrite forallb_forall in H. apply H in Hin.
    apply Byte.byte_dec_bl in Hin. now symmetry. }
  rewrite E. reflexivity.
Qed.

Lemma buffer_samples_silence (asbd : AudioStreamBasicDescription)
      (buffer : AudioBuffer) :
  match mData buffer with
  | None => true
  | Some data => forallb (Byte.eqb Byte.x00) data
  end = true ->
  Forall (fun x => x = zero) (buffer_samples asbd buffer).
Proof.
  unfold buffer_samples. destruct (mData buffer) as [data|]; [|constructor].
  intros H.
  destruct (float_layout asbd); [|destruct (int16_layout asbd)];
    [| |constructor];
    apply Forall_forall; intros x Hx; apply in_map_iff in Hx;
    destruct Hx as (idx & <- & _).
  - unfold read_float. now rewrite load_le_silence.
  - unfold read_int16. now rewrite load_le_silence.
Qed.

(** Digital silence reads as exactly zero. A sample buffer whose audio
    bytes are all zero has level [0], whatever its layout and length. *)
Theorem computeRmsLevel_silence (sampleBuffer : CMSampleBuffer) :
  digital_silence sampleBuffer = true ->
  computeRmsLevel sampleBuffer = zero.
Proof.
  intros H. rewrite computeRmsLevel_normalized_level.
  apply normalized_level_silence.
  unfold interpreted_samples, digital_silence in *.
  destruct (formatDescription sampleBuffer) as [[[asbd|]]|]; try constructor.
  destruct (audioBufferList sampleBuffer) as [buffers|]; [|constructor].
  induction buffers as [|b bs IH]; [constructor|].
  cbn [flat_map forallb] in *. apply andb_true_iff in H. destruct H as [Hb Hbs].
  apply Forall_app. split; [now apply buffer_samples_silence|now apply IH].
Qed.

Lemma computeRmsLevel_silence_witness :
  computeRmsLevel silent_buffer = zero.
Proof.
  apply computeRmsLevel_silence. reflexivity.
Defined.

Lemma square_nonneg (x : float32) :
  is_nan (mul x x) = true \/ has_sign false (mul x x).
Proof.
  destruct x as [s|s| |s m e]; simpl.
  - right. now destruct s.
  - right. now destruct s.
  - now left.
  - right. replace (xorb s s) with false by now destruct s.
    apply binary_round_aux_sign. lia.
Qed.

Lemma square_acc_saturated (acc x : float32) :
  saturated acc -> saturated (square_acc acc x).
Proof.
  unfold square_acc. intros [-> | ->]; [now left|].
  destruct (square_nonneg x) as [N|S].
  - destruct (mul x x); try discriminate. now left.
  - destruct (mul x x) as [s|s| |s m e]; simpl in S; try contradiction;
      subst; unfold saturated; auto.
Qed.

Lemma square_acc_non_finite (acc x : float32) :
  non_finite x = true -> saturated (square_acc acc x).
Proof.
  unfold square_acc.
  destruct x as [s|s| |s m e]; try discriminate; intros _.
  - replace (mul (S754_infinity s) (S754_infinity s))
      with (S754_infinity false) by now destruct s.
    destruct acc as [s'|[]| |s' m e]; simpl; unfold saturated; auto.
  - left. now destruct acc.
Qed.

Lemma sum_squares_saturated (xs : list float32) :
  forall acc,
    saturated acc \/ existsb non_finite xs = true ->
    saturated (fold_left square_acc xs acc).
Proof.
  induction xs as [|x xs IH]; intros acc H; simpl in *.
  - destruct H as [H|H]; [exact H|discriminate].
  - apply IH. destruct H as [H|H].
    + left. now apply square_acc_saturated.
    + apply orb_true_iff in H. destruct H as [H|H]; [|now right].
      left. now apply square_acc_non_finite.
Qed.

Lemma level_of_saturated (s y : float32) :
  saturated s -> min one (mul (sqrt (div s y)) lit_2_8) = one.
Proof.
  intros [-> | ->]; [reflexivity|].
  destruct y as [[]|[]| |[] m e]; reflexivity.
Qed.

(** A sample that is not a number pegs the meter. When a sample of the
    buffer is a NaN or an infinity (which only the 32-bit float layout can
    hold) the level is exactly [1]: the sum of squares is then a NaN or
    [+infinity], and [min(1, _)] returns [1] in both cases. *)
Theorem computeRmsLevel_not_a_number (sampleBuffer : CMSampleBuffer) :
  existsb non_finite (interpreted_samples sampleBuffer) = true ->
  computeRmsLevel sampleBuffer = one.
Proof.
  intros H. rewrite computeRmsLevel_normalized_level.
  destruct (interpreted_samples sampleBuffer) as [|x xs] eqn:E;
    [discriminate|].
  unfold normalized_level, rms, sum_squares.
  change (fun acc x0 => add acc (mul x0 x0)) with square_acc.
  apply level_of_saturated, sum_squares_saturated. now right.
Qed.

Lemma computeRmsLevel_not_a_number_witness :
  computeRmsLevel one_nan = one.
Proof.
  apply computeRmsLevel_not_a_number. reflexivity.
Defined.

End LevelMeter.

(** ** The capture adapter: frames and invariants *)

Section RecorderFacts.

#[local] Arguments smooth : simpl never.
#[local] Arguments computeRmsLevel : simpl never.
#[local] Arguments Qltb : simpl never.
#[local] Arguments Qle_bool : simpl never.
#[local] Arguments fits_UInt64 : simpl never.
#[local] Arguments Qminus : simpl never.
#[local] Arguments Qmult : simpl never.
#[local] Arguments elapsed_micros : simpl never.
#[local] Arguments truncate : simpl never.
#[local] Arguments count : simpl never.
#[local] Arguments requestStop : simpl never.
#[local] Arguments emitTelemetry : simpl never.
#[local] Arguments appendAndMeter : simpl never.
#[local] Arguments initializeWriter : simpl never.

Ltac destruct_process p :=
  let w := fresh "w" in let wi := fresh "wi" in let sc := fresh "sc" in
  let sr := fresh "sr" in let sa := fresh "sa" in let lt := fresh "lt" in
  let sl := fresh "sl" in let hr := fresh "hr" in let en := fresh "en" in
  let ph := fresh "ph" in let sh := fresh "sh" in let tr := fresh "tr" in
  destruct p as [[w wi sc sr sa lt sl hr en] ph sh tr].

Lemma Qltb_lt (a b : Q) : Qltb a b = true <-> (a < b)%Q.
Proof.
  unfold Qltb. rewrite negb_true_iff. split; intros H.
  - apply Qnot_le_lt. intros Hle. apply Qle_bool_iff in Hle. congruence.
  - destruct (Qle_bool b a) eqn:E; [|reflexivity].
    apply Qle_bool_iff in E. apply Qlt_not_le in H. contradiction.
Qed.

Lemma Qltb_ge (a b : Q) : Qltb a b = false <-> (b <= a)%Q.
Proof.
  unfold Qltb. rewrite negb_false_iff. apply Qle_bool_iff.
Qed.

Lemma count_app (f : Effect -> bool) (a b : list Effect) :
  count f (a ++ b) = (count f a + count f b)%nat.
Proof. unfold count. now rewrite filter_app, length_app. Qed.

Lemma emissions_app (a b : list Effect) :
  emissions (a ++ b) = emissions a ++ emissions b.
Proof.
  induction a as [|e a IH]; simpl; [reflexivity|].
  destruct (is_emit e); simpl; now rewrite IH.
Qed.

(** *** [requestStop] *)

Lemma requestStop_stopped (p : Process) :
  stopRequested (recorder p) = true -> requestStop p = p.
Proof. unfold requestStop. now intros ->. Qed.

Lemma requestStop_stopRequested (p : Process) :
  stopRequested (recorder (requestStop p)) = true.
Proof.
  destruct_process p. unfold requestStop; cbn.
  destruct sr; cbn; [reflexivity|]. now destruct sc.
Qed.

(** [requestStop] touches the stop flag, the continuation, the stdin handler
    and the phase only, and emits at most the resumption. *)
Lemma requestStop_frame (p : Process) :
  writer (recorder (requestStop p)) = writer (recorder p) /\
  writerInput (recorder (requestStop p)) = writerInput (recorder p) /\
  startedAt (recorder (requestStop p)) = startedAt (recorder p) /\
  lastTelemetry (recorder (requestStop p)) = lastTelemetry (recorder p) /\
  smoothedLevel (recorder (requestStop p)) = smoothedLevel (recorder p) /\
  hasReceivedAudioSample (recorder (requestStop p))
  = hasReceivedAudioSample (recorder p) /\
  emittedNoSampleError (recorder (requestStop p))
  = emittedNoSampleError (recorder p) /\
  (alive p = true -> alive (requestStop p) = true) /\
  (trace (requestStop p) = trace p \/
   trace (requestStop p) = trace p ++ [ResumeContinuation]).
Proof.
  destruct_process p. unfold requestStop; cbn.
  destruct sr; cbn; [tauto|]. destruct sc; cbn; tauto.
Qed.

(** The observations the invariants make of a trace are unchanged by
    [requestStop]. *)
Lemma requestStop_count (f : Effect -> bool) (p : Process) :
  f ResumeContinuation = false ->
  count f (trace (requestStop p)) = count f (trace p).
Proof.
  intros Hf.
  destruct (requestStop_frame p) as (_&_&_&_&_&_&_&_&[->| ->]);
    [reflexivity|].
  rewrite count_app. unfold count at 2. simpl. rewrite Hf. simpl. lia.
Qed.

Lemma requestStop_emissions (p : Process) :
  emissions (trace (requestStop p)) = emissions (trace p).
Proof.
  destruct (requestStop_frame p) as (_&_&_&_&_&_&_&_&[->| ->]);
    [reflexivity|].
  rewrite emissions_app. simpl. apply app_nil_r.
Qed.

Lemma requestStop_In (e : Effect) (p : Process) :
  In e (trace (requestStop p)) -> In e (trace p) \/ e = ResumeContinuation.
Proof.
  destruct (requestStop_frame p) as (_&_&_&_&_&_&_&_&[->| ->]); [tauto|].
  rewrite in_app_iff. simpl. intuition.
Qed.

(** *** [emitTelemetry] *)

(** What one call writes, as a function of the state it is called in. *)
Lemma emitTelemetry_frame (force : bool) (t : Date) (fs : option Z)
      (p : Process) :
  writer (recorder (emitTelemetry force t fs p)) = writer (recorder p) /\
  writerInput (recorder (emitTelemetry force t fs p))
  = writerInput (recorder p) /\
  startedAt (recorder (emitTelemetry force t fs p)) = startedAt (recorder p) /\
  stopRequested (recorder (emitTelemetry force t fs p))
  = stopRequested (recorder p) /\
  smoothedLevel (recorder (emitTelemetry force t fs p))
  = smoothedLevel (recorder p) /\
  hasReceivedAudioSample (recorder (emitTelemetry force t fs p))
  = hasReceivedAudioSample (recorder p).
Proof.
  destruct_process p. unfold emitTelemetry; cbn.
  destruct (negb force && Qltb (t - lt) (1 # 5)); cbn; [tauto|].
  destruct (negb hr && negb en && Qltb (5 # 2) (t - sa)); cbn;
    destruct (fits_UInt64 _); cbn; tauto.
Qed.

(** One call of [emitTelemetry], in full: either it is throttled and
    changes nothing, or it records the instant, possibly reports the missing
    samples (latching the flag), then either traps or writes its three
    lines. *)
Lemma emitTelemetry_spec (force : bool) (t : Date) (fs : option Z)
      (p : Process) :
  let p' := emitTelemetry force t fs p in
  (force = false /\ (t - lastTelemetry (recorder p) < 1 # 5)%Q /\ p' = p) \/
  ((force = true \/ (1 # 5 <= t - lastTelemetry (recorder p))%Q) /\
   lastTelemetry (recorder p') = t /\
   exists report lines,
     trace p' = trace p ++ Emit t force :: report ++ lines /\
     ((report = [] /\
       emittedNoSampleError (recorder p') = emittedNoSampleError (recorder p)
       /\ (hasReceivedAudioSample (recorder p) = true \/
           emittedNoSampleError (recorder p) = true \/
           (t - startedAt (recorder p) <= 5 # 2)%Q))
      \/
      (report = [Stderr (sck_error NoAudioSamplesReceived)] /\
       hasReceivedAudioSample (recorder p) = false /\
       emittedNoSampleError (recorder p) = false /\
       (5 # 2 < t - startedAt (recorder p))%Q /\
       emittedNoSampleError (recorder p') = true)) /\
     ((lines = [Trap] /\ phase p' = Trapped) \/
      (phase p' = phase p /\
       exists size micros,
         lines = [Stderr (total_size size); Stderr (out_time_us micros);
                  Stderr (level (smoothedLevel (recorder p)))]))).
Proof.
  destruct_process p. unfold emitTelemetry; cbn.
  destruct (negb force && Qltb (t - lt) (1 # 5)) eqn:T; cbn.
  - left. apply andb_true_iff in T. destruct T as [F T].
    apply negb_true_iff in F. apply Qltb_lt in T. auto.
  - right. split.
    { apply andb_false_iff in T. destruct T as [F|T].
      - left. now apply negb_false_iff in F.
      - right. now apply Qltb_ge in T. }
    destruct (negb hr && negb en && Qltb (5 # 2) (t - sa)) eqn:N; cbn.
    + apply andb_true_iff in N. destruct N as [N N3].
      apply andb_true_iff in N. destruct N as [N1 N2].
      apply negb_true_iff in N1, N2. apply Qltb_lt in N3.
      destruct (fits_UInt64 _); cbn; (split; [reflexivity|]);
        eexists [_], _; (split; [rewrite <- !app_assoc; reflexivity|]);
        (split; [right; auto|]);
        [right; split; [reflexivity|]; do 2 eexists; reflexivity
        |left; split; reflexivity].
    + assert (N' : hr = true \/ en = true \/ (t - sa <= 5 # 2)%Q).
      { apply andb_false_iff in N. destruct N as [N|N].
        - apply andb_false_iff in N. destruct N as [N|N];
            apply negb_false_iff in N; auto.
        - apply Qltb_ge in N. auto. }
      destruct (fits_UInt64 _); cbn; (split; [reflexivity|]);
        exists []; eexists;
        (split; [rewrite <- !app_assoc; reflexivity|]);
        (split; [left; auto|]);
        [right; split; [reflexivity|]; do 2 eexists; reflexivity
        |left; split; reflexivity].
Qed.

Lemma initializeWriter_ok (wenv : WriterEnv) (sb : CMSampleBuffer)
      (r r' : SystemAudioRecorder) :
  initializeWriter wenv sb r = inr r' ->
  r' = set_writers {| sessionStart := presentationTimeStamp sb |}
                   {| expectsMediaDataInRealTime := true |} r.
Proof.
  unfold initializeWriter.
  destruct (createWriter wenv); [discriminate|].
  destruct (canAdd wenv); [|discriminate].
  destruct (startWriting wenv); [|discriminate].
  simpl. congruence.
Qed.

(** *** Invariants, generically

    [step] is built from [requestStop], [emitTelemetry], benign effects and
    a handful of field updates; a property kept by each of these is kept by
    every step, hence holds throughout every execution. *)

Section Invariant.

Variable I : Process -> Prop.

Hypothesis I_requestStop :
  forall p, alive p = true -> I p -> I (requestStop p).
Hypothesis I_benign : forall e p, benign e = true -> I p -> I (emit e p).
Hypothesis I_received :
  forall p, alive p = true -> I p ->
            I (with_recorder (set_hasReceivedAudioSample true) p).
Hypothesis I_initialized :
  forall w i p,
    alive p = true -> writer (recorder p) = None ->
    hasReceivedAudioSample (recorder p) = true -> I p ->
    I (with_recorder (fun _ => set_writers w i (recorder p))
                     (emit (InitializeWriter true) p)).
Hypothesis I_metered :
  forall lvl t fs p,
    alive p = true -> hasReceivedAudioSample (recorder p) = true ->
    in_unit lvl = true -> I p ->
    I (emitTelemetry false t fs
         (with_recorder
            (fun r => set_smoothedLevel (smooth (smoothedLevel r) lvl) r) p)).
Hypothesis I_final :
  forall t fs p, phase p = Resumed -> I p ->
                 I (exitNormally (emitTelemetry true t fs p)).
Hypothesis I_failed : forall p, I p -> I (with_phase (Exited 1) p).
Hypothesis I_waiting :
  forall p, phase p = StartingCapture -> I p ->
            I (waitUntilStopRequested p).
Hypothesis I_stored :
  forall p, phase p = EnteringWait -> I p -> I (storeStopContinuation p).

Lemma I_fail (e : ThrownError) (p : Process) : I p -> I (fail e p).
Proof.
  intros H. unfold fail. apply I_failed.
  do 2 (apply I_benign; [reflexivity|]). exact H.
Qed.

Lemma I_appendAndMeter (env : SampleEnv) (sb : CMSampleBuffer) (p : Process) :
  alive p = true -> hasReceivedAudioSample (recorder p) = true ->
  I p -> I (appendAndMeter env sb p).
Proof.
  intros A R H. unfold appendAndMeter.
  destruct (writerInput (recorder p)); [|exact H].
  set (p1 := if isReadyForMoreMediaData env
             then emit (Append (appendOk env)) p else p).
  assert (H1 : I p1 /\ alive p1 = true
               /\ hasReceivedAudioSample (recorder p1) = true).
  { subst p1. destruct (isReadyForMoreMediaData env); [|tauto].
    split; [now apply I_benign|split; assumption]. }
  destruct H1 as (H1 & A1 & R1).
  destruct (isReadyForMoreMediaData env && negb (appendOk env)).
  - apply I_requestStop; [exact A1|]. apply I_benign; [reflexivity|exact H1].
  - apply I_metered; try assumption.
    rewrite computeRmsLevel_normalized_level. apply normalized_level_in_unit.
Qed.

Lemma I_streamDidOutput (t : SCStreamOutputType) (sb : CMSampleBuffer)
      (env : SampleEnv) (p : Process) :
  alive p = true -> I p -> I (streamDidOutput t sb env p).
Proof.
  intros A H. unfold streamDidOutput.
  destruct (negb (is_audio t)); [exact H|].
  destruct (negb (isValid sb)); [exact H|].
  set (p1 := with_recorder (set_hasReceivedAudioSample true) p).
  assert (H1 : I p1) by now apply I_received.
  assert (A1 : alive p1 = true) by exact A.
  assert (R1 : hasReceivedAudioSample (recorder p1) = true) by reflexivity.
  destruct (writer (recorder p1)) eqn:W.
  - now apply I_appendAndMeter.
  - destruct (initializeWriter _ _ _) as [e|r'] eqn:E.
    + apply I_requestStop; [exact A1|].
      do 2 (apply I_benign; [reflexivity|]). exact H1.
    + apply initializeWriter_ok in E. subst r'.
      apply I_appendAndMeter; [exact A1|reflexivity|].
      now apply I_initialized.
Qed.

Lemma I_shutdown (env : ShutdownEnv) (p : Process) :
  phase p = Resumed -> I p -> I (shutdown env p).
Proof.
  intros Ph H. unfold shutdown.
  destruct (stopCaptureError env).
  - apply I_fail, I_benign; [reflexivity|exact H].
  - apply I_final.
    + unfold finalizeWriter. cbn.
      destruct (writer (recorder p)); [|exact Ph].
      destruct (writerInput (recorder p)); exact Ph.
    + unfold finalizeWriter. cbn.
      assert (H0 : I (emit (StopCapture true) p))
        by (apply I_benign; [reflexivity|exact H]).
      destruct (writer (recorder p)); [|exact H0].
      destruct (writerInput (recorder p)); [|exact H0].
      do 2 (apply I_benign; [reflexivity|]). exact H0.
Qed.

Lemma I_step (p : Process) (ev : Event) : I p -> I (step p ev).
Proof.
  intros H. unfold step.
  destruct (alive p) eqn:A; [|exact H]. simpl.
  destruct ev as [err| |t sb env|data|env].
  - destruct (phase p) eqn:Ph; try exact H.
    destruct err as [e|]; simpl; [now apply I_fail|now apply I_waiting].
  - destruct (phase p) eqn:Ph; try exact H. now apply I_stored.
  - now apply I_streamDidOutput.
  - destruct (stdinHandler p); [|exact H].
    destruct data as [|text|]; simpl; auto.
    destruct (contains_q text); auto.
  - destruct (phase p) eqn:Ph; try exact H. now apply I_shutdown.
Qed.

End Invariant.

Lemma run_events_preserves (I : Process -> Prop) :
  (forall p ev, I p -> I (step p ev)) ->
  forall evs p, I p -> I (run_events p evs).
Proof.
  intros Hstep evs. unfold run_events.
  induction evs as [|ev evs IH]; intros p H; simpl; [exact H|].
  apply IH, Hstep, H.
Qed.

Lemma count_snoc (f : Effect -> bool) (tr : list Effect) (e : Effect) :
  count f (tr ++ [e]) = (count f tr + (if f e then 1 else 0))%nat.
Proof. rewrite count_app. unfold count at 2. simpl. now destruct (f e). Qed.

Lemma count_cons (f : Effect -> bool) (e : Effect) (tr : list Effect) :
  count f (e :: tr) = ((if f e then 1 else 0) + count f tr)%nat.
Proof. unfold count. simpl. now destruct (f e). Qed.

Lemma count_nil (f : Effect -> bool) : count f [] = 0%nat.
Proof. reflexivity. Qed.

Ltac count_norm :=
  repeat (rewrite count_app || rewrite count_cons || rewrite count_nil);
  cbn [is_no_sample_error is_init_success is_init_attempt
       is_init_error_line].

Lemma exitNormally_frame (p : Process) :
  recorder (exitNormally p) = recorder p /\
  alive (exitNormally p) = false /\
  (trace (exitNormally p) = trace p \/
   trace (exitNormally p) = trace p ++ [Exit 0]).
Proof.
  unfold exitNormally. destruct (alive p) eqn:A; cbn; auto.
Qed.

(** *** Levels stay in the unit interval *)

Lemma emitTelemetry_level_lines (force : bool) (t : Date) (fs : option Z)
      (p : Process) (l : float32) :
  In (Stderr (level l)) (trace (emitTelemetry force t fs p)) ->
  In (Stderr (level l)) (trace p) \/ l = smoothedLevel (recorder p).
Proof.
  intros Hl.
  destruct (emitTelemetry_spec force t fs p)
    as [(_&_&E)|(_&_&report&lines&Htr&Hrep&Hlines)];
    [rewrite E in Hl; now left|].
  rewrite Htr in Hl. apply in_app_iff in Hl.
  destruct Hl as [Hl|[Hl|Hl]]; [now left|discriminate|].
  apply in_app_iff in Hl. destruct Hl as [Hl|Hl].
  - destruct Hrep as [(->&_)|(->&_)]; [destruct Hl|].
    destruct Hl as [Hl|[]]; discriminate.
  - destruct Hlines as [(->&_)|(_&size&micros&->)].
    + destruct Hl as [Hl|[]]; discriminate.
    + destruct Hl as [Hl|[Hl|[Hl|[]]]]; try discriminate.
      right. now injection Hl.
Qed.

Lemma level_inv_emitTelemetry (force : bool) (t : Date) (fs : option Z)
      (p : Process) :
  level_inv p -> level_inv (emitTelemetry force t fs p).
Proof.
  intros [H1 H2].
  destruct (emitTelemetry_frame force t fs p) as (_&_&_&_&E&_).
  split; [now rewrite E|].
  intros l Hl. apply emitTelemetry_level_lines in Hl.
  destruct Hl as [Hl| ->]; auto.
Qed.

Lemma level_inv_step (p0 : Process) (ev : Event) :
  level_inv p0 -> level_inv (step p0 ev).
Proof.
  apply (@I_step level_inv).
  - intros p _ [H1 H2]. destruct (requestStop_frame p) as (_&_&_&_&E&_).
    split; [now rewrite E|].
    intros l Hl. apply requestStop_In in Hl.
    destruct Hl as [Hl|Hl]; [now apply H2|discriminate].
  - intros e p B [H1 H2]. split; [exact H1|].
    intros l Hl. cbn in Hl. apply in_app_iff in Hl.
    destruct Hl as [Hl|[Hl|[]]]; [now apply H2|subst e; discriminate].
  - intros p _ H. exact H.
  - intros w i p _ _ _ [H1 H2]. split; [exact H1|].
    intros l Hl. cbn in Hl. apply in_app_iff in Hl.
    destruct Hl as [Hl|[Hl|[]]]; [now apply H2|discriminate].
  - intros lvl t fs p _ _ Hlvl [H1 H2].
    apply level_inv_emitTelemetry. split; [|exact H2].
    cbn. now apply smooth_in_unit.
  - intros t fs p _ H.
    apply (level_inv_emitTelemetry true t fs) in H. destruct H as [H1 H2].
    destruct (exitNormally_frame (emitTelemetry true t fs p)) as (R&_&T).
    split; [now rewrite R|].
    intros l Hl. destruct T as [T|T]; rewrite T in Hl; [now apply H2|].
    apply in_app_iff in Hl. destruct Hl as [Hl|[Hl|[]]];
      [now apply H2|discriminate].
  - intros p H. exact H.
  - intros p _ H. unfold waitUntilStopRequested.
    now destruct (stopRequested (recorder p)).
  - intros p _ H. exact H.
Qed.

Lemma level_inv_execute (start : Date) (evs : list Event) :
  level_inv (execute start evs).
Proof.
  unfold execute. apply (@run_events_preserves level_inv level_inv_step).
  split; [reflexivity|]. intros l [].
Qed.

(** *** The writer exists only after a sample, and is created once *)





(** *** The no-sample error is latched *)

Lemma no_sample_inv_step (start : Date) (p0 : Process) (ev : Event) :
  no_sample_inv start p0 -> no_sample_inv start (step p0 ev).
Proof.
  apply (@I_step (no_sample_inv start)).
  - intros q A (S & L & C & F).
    destruct (requestStop_frame q) as (_&_&S'&_&_&R&E&A'&_).
    unfold no_sample_inv.
    rewrite S', E, R, requestStop_count by reflexivity.
    specialize (L A). rewrite L in *. repeat split; auto; discriminate.
  - intros e q B (S & L & C & F). unfold no_sample_inv. cbn.
    rewrite count_snoc.
    assert (N : is_no_sample_error e = false)
      by (destruct e as [[[]| | |]|[]| | | | | | | |]; try discriminate;
          reflexivity).
    rewrite N, Nat.add_0_r. repeat split; auto.
    + now apply F.
    + destruct (F H) as (_ & t & Ht & Hlt). exists t. split; [|exact Hlt].
      apply in_app_iff. now left.
  - intros q A (S & L & C & F). specialize (L A).
    unfold no_sample_inv. cbn. rewrite L in *.
    repeat split; auto; discriminate.
  - intros w i q A _ _ (S & L & C & F). specialize (L A).
    unfold no_sample_inv. cbn. rewrite count_snoc, L in *. cbn.
    rewrite Nat.add_0_r. repeat split; auto; discriminate.
  - intros lvl t fs q A R _ (S & L & C & F). specialize (L A).
    set (q' := with_recorder _ q).
    destruct (emitTelemetry_frame false t fs q') as (_&_&S'&_&_&R').
    destruct (emitTelemetry_spec false t fs q')
      as [(_&_&E)|(_&_&report&lines&Htr&Hrep&Hlines)].
    + rewrite E. unfold no_sample_inv. cbn. rewrite L in *.
      repeat split; auto; discriminate.
    + destruct Hrep as [(->&En&_)|(_&Hr&_)];
        [|cbn in Hr; congruence].
      unfold no_sample_inv. rewrite S', En, Htr, count_app. cbn.
      rewrite L in *.
      assert (Z : count is_no_sample_error lines = 0%nat)
        by (destruct Hlines as [(->&_)|(_&size&micros&->)]; reflexivity).
      count_norm. repeat split; auto; try discriminate. lia.
  - intros t fs q Ph (S & L & C & F).
    assert (A : alive q = true) by (unfold alive; now rewrite Ph).
    specialize (L A).
    destruct (exitNormally_frame (emitTelemetry true t fs q)) as (X&D&T).
    destruct (emitTelemetry_frame true t fs q) as (_&_&S'&_&_&R').
    assert (N : forall tr, count is_no_sample_error (tr ++ [Exit 0])
                           = count is_no_sample_error tr)
      by (intros tr; rewrite count_snoc; cbn; lia).
    destruct (emitTelemetry_spec true t fs q)
      as [(Fa&_)|(_&_&report&lines&Htr&Hrep&Hlines)]; [discriminate|].
    assert (Z : count is_no_sample_error lines = 0%nat)
      by (destruct Hlines as [(->&_)|(_&size&micros&->)]; reflexivity).
    unfold no_sample_inv. rewrite X, S', D, R'.
    destruct Hrep as [(->&En&_)|(->&Hr&_&Hlt&En)]; rewrite En.
    + rewrite L in *. repeat split; auto; try discriminate.
      destruct T as [-> | ->]; rewrite ?N, Htr; count_norm; lia.
    + rewrite L in C. repeat split; auto; try discriminate.
      * destruct T as [-> | ->]; rewrite ?N, Htr; count_norm; lia.
      * exists t. split; [|now rewrite <- S].
        destruct T as [-> | ->]; rewrite Htr, !in_app_iff; simpl; tauto.
  - intros q H. destruct H as (S & L & C & F). unfold no_sample_inv. cbn.
    split; [|split; [|split]]; auto; discriminate.
  - intros q Ph (S & L & C & F). unfold waitUntilStopRequested.
    assert (A : alive q = true) by (unfold alive; now rewrite Ph).
    destruct (stopRequested (recorder q)); unfold no_sample_inv; cbn;
      (split; [|split; [|split]]); auto.
  - intros q Ph (S & L & C & F). unfold no_sample_inv.
    assert (A : alive q = true) by (unfold alive; now rewrite Ph).
    cbn. (split; [|split; [|split]]); auto.
Qed.

Lemma no_sample_inv_execute (start : Date) (evs : list Event) :
  no_sample_inv start (execute start evs).
Proof.
  unfold execute.
  apply (@run_events_preserves (no_sample_inv start)
                               (@no_sample_inv_step start)).
  unfold no_sample_inv. cbn. repeat split; auto; discriminate.
Qed.

(** *** The telemetry throttle *)

Lemma snoc_split (A : Type) (l : list A) (x : A) (pre : list A) (a : A)
      (post : list A) :
  l ++ [x] = pre ++ a :: post ->
  (post = [] /\ a = x /\ l = pre) \/
  (exists post', post = post' ++ [x] /\ l = pre ++ a :: post').
Proof.
  destruct post as [|y post' _] using rev_ind; intros E.
  - left. apply app_inj_tail in E. destruct E as [-> ->]. auto.
  - right. exists post'.
    change (l ++ [x] = pre ++ (a :: post') ++ [y]) in E.
    rewrite app_assoc in E. apply app_inj_tail in E.
    destruct E as [-> ->]. auto.
Qed.

Lemma emissions_snoc (tr : list Effect) (e : Effect) :
  emissions (tr ++ [e])
  = emissions tr ++ match is_emit e with Some x => [x] | None => [] end.
Proof. rewrite emissions_app. simpl. now destruct (is_emit e). Qed.

Lemma emissions_benign (tr : list Effect) (e : Effect) :
  benign e = true -> emissions (tr ++ [e]) = emissions tr.
Proof.
  intros B. rewrite emissions_snoc.
  destruct e; try discriminate; simpl; apply app_nil_r.
Qed.

(** What a call of [emitTelemetry] adds to the emissions. *)
Lemma emitTelemetry_emissions (force : bool) (t : Date) (fs : option Z)
      (p : Process) :
  (force = false /\ emitTelemetry force t fs p = p) \/
  ((force = true \/ (lastTelemetry (recorder p) + (1 # 5) <= t)%Q) /\
   lastTelemetry (recorder (emitTelemetry force t fs p)) = t /\
   emissions (trace (emitTelemetry force t fs p))
   = emissions (trace p) ++ [(t, force)]).
Proof.
  destruct (emitTelemetry_spec force t fs p)
    as [(F&_&E)|(G&Lt&report&lines&Htr&Hrep&Hlines)]; [now left|right].
  split; [destruct G as [G|G]; [now left|right; lra]|].
  split; [exact Lt|].
  rewrite Htr, emissions_app. f_equal. simpl. f_equal.
  rewrite emissions_app.
  destruct Hrep as [(->&_)|(->&_)];
    destruct Hlines as [(->&_)|(_&size&micros&->)]; reflexivity.
Qed.

Lemma spaced_snoc_forced (ems : list (Date * bool)) (t : Date) :
  spaced ems -> spaced (ems ++ [(t, true)]).
Proof.
  intros H pre a mid b post E Hb.
  change (pre ++ a :: mid ++ b :: post)
    with (pre ++ (a :: mid) ++ b :: post) in E.
  rewrite app_assoc in E. apply snoc_split in E.
  destruct E as [(_&->&_)|(post'&->&->)]; [discriminate|].
  apply (H pre a mid b post'); [|exact Hb].
  now rewrite <- app_assoc.
Qed.

Lemma spaced_snoc (ems : list (Date * bool)) (t : Date) :
  spaced ems ->
  (forall a, In a ems -> (fst a + (1 # 5) <= t)%Q) ->
  spaced (ems ++ [(t, false)]).
Proof.
  intros H Hall pre a mid b post E Hb.
  change (pre ++ a :: mid ++ b :: post)
    with (pre ++ (a :: mid) ++ b :: post) in E.
  rewrite app_assoc in E. apply snoc_split in E.
  destruct E as [(_&->&->)|(post'&->&->)].
  - simpl. apply Hall. rewrite !in_app_iff. simpl. tauto.
  - apply (H pre a mid b post'); [|exact Hb].
    now rewrite <- app_assoc.
Qed.

Lemma forced_last_snoc (ems : list (Date * bool)) (x : Date * bool) :
  (forall t f, In (t, f) ems -> f = false) ->
  forced_last (ems ++ [x]).
Proof.
  intros Hall pre t post E. apply snoc_split in E.
  destruct E as [(->&_)|(post'&->&->)]; [reflexivity|].
  specialize (Hall t true). rewrite in_app_iff in Hall. simpl in Hall.
  discriminate Hall. tauto.
Qed.

Lemma throttle_inv_step (p0 : Process) (ev : Event) :
  throttle_inv p0 -> throttle_inv (step p0 ev).
Proof.
  apply (@I_step throttle_inv).
  - intros q A (L & S & F).
    destruct (requestStop_frame q) as (_&_&_&Lt&_).
    unfold throttle_inv. rewrite requestStop_emissions, Lt. auto.
  - intros e q B (L & S & F). unfold throttle_inv. cbn.
    rewrite emissions_benign by exact B. auto.
  - intros q A H. exact H.
  - intros w i q A _ _ (L & S & F). unfold throttle_inv. cbn.
    rewrite emissions_snoc. simpl. rewrite app_nil_r. auto.
  - intros lvl t fs q A _ _ (L & S & F). specialize (L A).
    set (q' := with_recorder _ q).
    destruct (emitTelemetry_emissions false t fs q')
      as [(_&->)|(G&Lt&Em)]; [unfold throttle_inv; cbn; auto|].
    destruct G as [G|G]; [discriminate|]. cbn in G.
    unfold throttle_inv. rewrite Lt, Em. cbn.
    split; [|split].
    + intros _ t' f' Hin. apply in_app_iff in Hin.
      destruct Hin as [Hin|[Hin|[]]].
      * destruct (L _ _ Hin) as [Hle ->]. split; [lra|reflexivity].
      * injection Hin as <- <-. split; [lra|reflexivity].
    + apply spaced_snoc; [exact S|].
      intros [t' f'] Hin. destruct (L _ _ Hin) as [Hle _]. simpl. lra.
    + apply forced_last_snoc. intros t' f' Hin. now destruct (L _ _ Hin).
  - intros t fs q Ph (L & S & F).
    assert (A : alive q = true) by (unfold alive; now rewrite Ph).
    specialize (L A).
    destruct (exitNormally_frame (emitTelemetry true t fs q)) as (_&D&T).
    destruct (emitTelemetry_emissions true t fs q)
      as [(Fa&_)|(_&_&Em)]; [discriminate|].
    assert (Em' : emissions (trace (exitNormally (emitTelemetry true t fs q)))
                  = emissions (trace q) ++ [(t, true)]).
    { destruct T as [-> | ->]; [exact Em|].
      rewrite emissions_benign by reflexivity. exact Em. }
    unfold throttle_inv. rewrite Em', D.
    split; [discriminate|split].
    + now apply spaced_snoc_forced.
    + apply forced_last_snoc. intros t' f' Hin. now destruct (L _ _ Hin).
  - intros q (L & S & F). unfold throttle_inv. cbn.
    split; [discriminate|auto].
  - intros q Ph (L & S & F). unfold waitUntilStopRequested.
    assert (A : alive q = true) by (unfold alive; now rewrite Ph).
    destruct (stopRequested (recorder q)); unfold throttle_inv; cbn; auto.
  - intros q Ph (L & S & F). unfold throttle_inv.
    assert (A : alive q = true) by (unfold alive; now rewrite Ph).
    cbn. auto.
Qed.

Lemma throttle_inv_execute (start : Date) (evs : list Event) :
  throttle_inv (execute start evs).
Proof.
  unfold execute.
  apply (@run_events_preserves throttle_inv throttle_inv_step).
  unfold throttle_inv. cbn. split; [intros _ t f []|split].
  - intros [|x pre] a mid b post E; discriminate E.
  - intros [|x pre] t post E; discriminate E.
Qed.

(** *** No shutdown without a stop request *)

Lemma stop_inv_step (p0 : Process) (ev : Event) :
  stop_inv p0 -> stop_inv (step p0 ev).
Proof.
  apply (@I_step stop_inv).
  - intros q _ _. pose proof (requestStop_stopRequested q) as S.
    split; intros; exact S.
  - intros e q B [H1 H2]. split; [exact H1|].
    intros t Hin. cbn in Hin. apply in_app_iff in Hin.
    destruct Hin as [Hin|[Hin|[]]]; [now apply (H2 t)|].
    subst e. discriminate B.
  - intros q _ H. exact H.
  - intros w i q _ _ _ [H1 H2]. split; [exact H1|].
    intros t Hin. cbn in Hin. apply in_app_iff in Hin.
    destruct Hin as [Hin|[Hin|[]]]; [now apply (H2 t)|discriminate Hin].
  - intros lvl t fs q _ _ _ [H1 H2].
    set (q' := with_recorder _ q).
    destruct (emitTelemetry_frame false t fs q') as (_&_&_&S&_).
    destruct (emitTelemetry_spec false t fs q')
      as [(_&_&E)|(_&_&report&lines&Htr&Hrep&Hlines)];
      [rewrite E; split; [exact H1|exact H2]|].
    split.
    + intros Ph. rewrite S.
      destruct Hlines as [(_&Tr)|(Same&_)]; [congruence|].
      rewrite Same in Ph. now apply H1.
    + intros t' Hin. rewrite S. rewrite Htr in Hin.
      apply in_app_iff in Hin.
      destruct Hin as [Hin|[Hin|Hin]]; [now apply (H2 t')|discriminate Hin|].
      apply in_app_iff in Hin. exfalso.
      destruct Hin as [Hin|Hin].
      * destruct Hrep as [(->&_)|(->&_)]; [destruct Hin|].
        destruct Hin as [Hin|[]]; discriminate Hin.
      * destruct Hlines as [(->&_)|(_&size&micros&->)].
        -- destruct Hin as [Hin|[]]; discriminate Hin.
        -- destruct Hin as [Hin|[Hin|[Hin|[]]]]; discriminate Hin.
  - intros t fs q Ph [H1 H2].
    destruct (exitNormally_frame (emitTelemetry true t fs q)) as (R&_&_).
    destruct (emitTelemetry_frame true t fs q) as (_&_&_&S&_).
    assert (St : stopRequested
                   (recorder (exitNormally (emitTelemetry true t fs q)))
                 = true) by (rewrite R, S; now apply H1).
    split; intros; exact St.
  - intros q [H1 H2]. split; [discriminate|exact H2].
  - intros q _ [H1 H2]. unfold waitUntilStopRequested.
    destruct (stopRequested (recorder q)) eqn:S.
    + split; intros; exact S.
    + split; [discriminate|]. intros t Hin. discriminate (H2 t Hin).
  - intros q _ [H1 H2]. split; [discriminate|exact H2].
Qed.

Lemma stop_inv_execute (start : Date) (evs : list Event) :
  stop_inv (execute start evs).
Proof.
  unfold execute. apply (@run_events_preserves stop_inv stop_inv_step).
  split; [discriminate|intros t []].
Qed.

(** *** Executions *)

Lemma execute_snoc (start : Date) (evs : list Event) (ev : Event) :
  execute start (evs ++ [ev]) = step (execute start evs) ev.
Proof. unfold execute, run_events. now rewrite fold_left_app. Qed.

Lemma initializeWriter_env (wenv : WriterEnv) (sb : CMSampleBuffer)
      (r r' : SystemAudioRecorder) :
  match initializeWriter wenv sb r, initializeWriter wenv sb r' with
  | inl e, inl e' => e = e'
  | inr _, inr _ => True
  | _, _ => False
  end.
Proof.
  unfold initializeWriter.
  destruct (createWriter wenv); [reflexivity|].
  destruct (canAdd wenv); [|reflexivity].
  destruct (startWriting wenv); simpl; [exact I|reflexivity].
Qed.

(** ** Stop is idempotent *)

Lemma find_set_state (sid : Session.SessionId) (st : Session.State)
      (l : list Session.RecordingSession) :
  find (Session.has_id sid) (Session.set_state sid st l)
  = option_map (Session.with_state st) (find (Session.has_id sid) l).
Proof.
  induction l as [|s l IH]; [reflexivity|].
  cbn [Session.set_state map find].
  destruct (Session.has_id sid s) eqn:E.
  - change (Session.has_id sid (Session.with_state st s))
      with (Session.has_id sid s).
    now rewrite E.
  - rewrite E. exact IH.
Qed.

(** The first call of [stop] on a session that records or is paused: the
    state it passes through and the state it ends in. *)
Lemma session_stop_states (c : Session.Controller) (sid : Session.SessionId)
      (fin : Session.Finalization) :
  Session.state_of c sid = Session.Recording \/
  Session.state_of c sid = Session.Paused ->
  fst (Session.stop_begin sid c) = inr tt /\
  Session.state_of (snd (Session.stop_begin sid c)) sid = Session.Stopping /\
  fst (Session.stop sid fin c) = inr tt /\
  Session.state_of (snd (Session.stop sid fin c)) sid = Session.Finalized.
Proof.
  intros H.
  assert (B : fst (Session.stop_begin sid c) = inr tt /\
              Session.state_of (snd (Session.stop_begin sid c)) sid
              = Session.Stopping).
  { unfold Session.stop_begin, Session.state_of, Session.find_session in *.
    destruct (find (Session.has_id sid) (Session.sessions c)) as [s|] eqn:F;
      [|destruct H; discriminate].
    destruct (Session.state s) eqn:St; try (destruct H; discriminate);
      cbn; rewrite find_set_state, F; auto. }
  destruct B as [B1 B2].
  split; [exact B1|split; [exact B2|]].
  unfold Session.stop.
  replace (match Session.state_of c sid with
           | Session.Recording | Session.Paused =>
               (inr tt,
                Session.stop_end sid fin (snd (Session.stop_begin sid c)))
           | Session.Stopping | Session.Finalized => (inr tt, c)
           | _ => (inl Session.SessionStateError, c)
           end)
    with (@inr Session.SessionError unit tt,
          Session.stop_end sid fin (snd (Session.stop_begin sid c)))
    by (destruct H as [-> | ->]; reflexivity).
  split; [reflexivity|]. cbn [snd].
  set (c1 := snd (Session.stop_begin sid c)) in *.
  unfold Session.stop_end, Session.state_of, Session.find_session in *.
  destruct (find (Session.has_id sid) (Session.sessions c1)) as [s|] eqn:F;
    [|discriminate].
  rewrite B2. cbn. now rewrite find_set_state, F.
Qed.

(** A call of [stop] on a session that is stopping or finalized. *)
Lemma session_stop_again (c : Session.Controller) (sid : Session.SessionId) :
  Session.state_of c sid = Session.Stopping \/
  Session.state_of c sid = Session.Finalized ->
  Session.stop_begin sid c = (inr tt, c) /\
  forall fin, Session.stop sid fin c = (inr tt, c).
Proof.
  intros H. split.
  - unfold Session.stop_begin, Session.state_of in *.
    destruct (Session.find_session sid c) as [s|];
      [|destruct H; discriminate].
    destruct H as [-> | ->]; reflexivity.
  - intros fin. unfold Session.stop.
    destruct H as [-> | ->]; reflexivity.
Qed.

(** C8. Stop is idempotent, on the adapter and on the session.

    The adapter (from the source): requesting a stop on a process whose
    stop has already been requested changes nothing. [requestStop] is
    idempotent, a stop signal on standard input that follows a stop
    request is a no-op, and two stop signals in a row lead every
    continuation of the run to the same state as one.

    The session (modelled from the spec): [stop] on a session that is
    stopping or finalized returns without error and leaves the controller
    as it is, at its suspension point and as a whole call. A first [stop]
    on a session that records or is paused succeeds and ends in
    [Finalized]; a second call, whatever the writers would answer it,
    succeeds too and changes nothing: no signal is sent again and the
    entry keeps the path and duration of the first call. So does a
    duplicate request that arrives while the first call awaits the
    writers. *)
Theorem stop_idempotent (p : Process) :
  requestStop (requestStop p) = requestStop p /\
  (forall data, step (requestStop p) (EvStdin data) = requestStop p) /\
  (forall d1 d2 evs,
      stop_signal d1 = true ->
      run_events p (EvStdin d1 :: EvStdin d2 :: evs)
      = run_events p (EvStdin d1 :: evs)) /\
  (forall c sid,
      (Session.state_of c sid = Session.Stopping \/
       Session.state_of c sid = Session.Finalized ->
       Session.stop_begin sid c = (inr tt, c) /\
       forall fin, Session.stop sid fin c = (inr tt, c)) /\
      (Session.state_of c sid = Session.Recording \/
       Session.state_of c sid = Session.Paused ->
       forall fin fin',
         fst (Session.stop sid fin c) = inr tt /\
         Session.state_of (snd (Session.stop sid fin c)) sid
         = Session.Finalized /\
         Session.stop sid fin' (snd (Session.stop sid fin c))
         = (inr tt, snd (Session.stop sid fin c)) /\
         Session.stop_begin sid (snd (Session.stop_begin sid c))
         = (inr tt, snd (Session.stop_begin sid c)))).
Proof.
  assert (Idem : forall q, requestStop (requestStop q) = requestStop q).
  { intros q. apply requestStop_stopped, requestStop_stopRequested. }
  assert (Again : forall q data,
             stopRequested (recorder q) = true ->
             step q (EvStdin data) = q).
  { intros q data S. unfold step.
    destruct (alive q); [|reflexivity]. simpl.
    destruct (stdinHandler q); [|reflexivity].
    destruct data as [|text|]; simpl; try reflexivity;
      [|destruct (contains_q text); [|reflexivity]];
      now apply requestStop_stopped. }
  split; [apply Idem|split; [|split]].
  - intros data. apply Again, requestStop_stopRequested.
  - intros d1 d2 evs S. unfold run_events. simpl. f_equal.
    unfold step at 2 3.
    destruct (alive p) eqn:A; simpl.
    + destruct (stdinHandler p) eqn:Hh.
      * assert (E : stdinReadable d1 p = requestStop p).
        { destruct d1 as [|text|]; simpl in *;
            [reflexivity|now rewrite S|discriminate]. }
        rewrite E. apply Again, requestStop_stopRequested.
      * unfold step. rewrite A, Hh. reflexivity.
    + unfold step. rewrite A. reflexivity.
  - intros c sid. split; [apply session_stop_again|].
    intros H fin fin'.
    destruct (@session_stop_states c sid fin H) as (B1 & B2 & S1 & S2).
    split; [exact S1|split; [exact S2|split]].
    + apply session_stop_again. now right.
    + apply session_stop_again. now left.
Qed.

(** A session with two sources is stopped, and stopped again with other
    answers from the writers: the second call succeeds and the state, the
    signals sent and the entry are those of the first. *)
Example session_stopped_twice :
  let once := Session.stop O (Session.graceful "a.wav"%string 10%Q)
                           Session.recording in
  let twice :=
    Session.stop O (Session.graceful "b.wav"%string 20%Q) (snd once) in
  fst once = inr tt /\ fst twice = inr tt /\
  Session.state_of (snd twice) O = Session.Finalized /\
  Session.signals (snd twice)
  = [Session.StartAdapter O Session.mic;
     Session.StartAdapter O Session.system_audio;
     Session.StopAdapter O Session.mic;
     Session.StopAdapter O Session.system_audio] /\
  Session.recordingPath (Session.entries (snd twice) "entry-1"%string)
  = Some "a.wav"%string.
Proof. repeat split; reflexivity. Qed.

(** ** Telemetry is throttled *)

(** C5. In every execution, any telemetry emission and any later
    non-forced emission are at least 200 ms apart, and a forced emission
    (the one [run] performs on stop) is the last emission of the run. *)
Theorem telemetry_throttled (start : Date) (evs : list Event) :
  spaced (emissions (trace (execute start evs))) /\
  forced_last (emissions (trace (execute start evs))).
Proof. exact (proj2 (throttle_inv_execute start evs)). Qed.

(** ** The reported level *)

Lemma appendAndMeter_level (env : SampleEnv) (sb : CMSampleBuffer)
      (q : Process) :
  smoothedLevel (recorder (appendAndMeter env sb q))
  = match writerInput (recorder q) with
    | Some _ =>
        if isReadyForMoreMediaData env && negb (appendOk env)
        then smoothedLevel (recorder q)
        else smooth (smoothedLevel (recorder q)) (computeRmsLevel sb)
    | None => smoothedLevel (recorder q)
    end.
Proof.
  unfold appendAndMeter.
  destruct (writerInput (recorder q)); [|reflexivity].
  destruct (isReadyForMoreMediaData env && negb (appendOk env)).
  - match goal with
    | |- context [requestStop ?x] =>
        destruct (requestStop_frame x) as (_&_&_&_&E&_); rewrite E
    end.
    now destruct (isReadyForMoreMediaData env).
  - match goal with
    | |- context [emitTelemetry false ?t ?fs ?x] =>
        destruct (emitTelemetry_frame false t fs x) as (_&_&_&_&E&_);
        rewrite E
    end.
    now destruct (isReadyForMoreMediaData env).
Qed.

(** The callback smooths the level exactly when it is [metered]. *)
Lemma streamDidOutput_level (t : SCStreamOutputType) (sb : CMSampleBuffer)
      (env : SampleEnv) (p : Process) :
  smoothedLevel (recorder (streamDidOutput t sb env p))
  = if metered t sb env p
    then smooth (smoothedLevel (recorder p)) (computeRmsLevel sb)
    else smoothedLevel (recorder p).
Proof.
  unfold streamDidOutput, metered.
  destruct (is_audio t); [|reflexivity].
  destruct (isValid sb); [|reflexivity]. cbn [negb andb].
  set (p1 := with_recorder (set_hasReceivedAudioSample true) p).
  change (writer (recorder p1)) with (writer (recorder p)).
  destruct (writer (recorder p)) eqn:W.
  - rewrite appendAndMeter_level.
    change (writerInput (recorder p1)) with (writerInput (recorder p)).
    destruct (writerInput (recorder p)); [|reflexivity].
    now destruct (isReadyForMoreMediaData env && negb (appendOk env)).
  - pose proof (initializeWriter_env (writerEnv env) sb
                                     (recorder p1) (recorder p)) as Henv.
    destruct (initializeWriter (writerEnv env) sb (recorder p1))
      as [e|r'] eqn:E1;
      destruct (initializeWriter (writerEnv env) sb (recorder p))
      as [e'|r''] eqn:E2; try contradiction.
    + match goal with
      | |- context [requestStop ?x] =>
          destruct (requestStop_frame x) as (_&_&_&_&E&_); rewrite E
      end.
      reflexivity.
    + apply initializeWriter_ok in E1. subst r'.
      rewrite appendAndMeter_level. cbn.
      now destruct (isReadyForMoreMediaData env && negb (appendOk env)).
Qed.

Lemma emit_level_lines (e : Effect) (p : Process) (l : float32) :
  (forall l', e <> Stderr (level l')) ->
  In (Stderr (level l)) (trace (emit e p)) -> In (Stderr (level l)) (trace p).
Proof.
  intros He Hin. cbn in Hin. apply in_app_iff in Hin.
  destruct Hin as [Hin|[Hin|[]]]; [exact Hin|]. now elim (He l).
Qed.

Lemma requestStop_level_lines (p : Process) (l : float32) :
  In (Stderr (level l)) (trace (requestStop p)) ->
  In (Stderr (level l)) (trace p).
Proof.
  intros Hin. apply requestStop_In in Hin.
  destruct Hin as [Hin|Hin]; [exact Hin|discriminate Hin].
Qed.

Lemma appendAndMeter_level_lines (env : SampleEnv) (sb : CMSampleBuffer)
      (p : Process) (l : float32) :
  In (Stderr (level l)) (trace (appendAndMeter env sb p)) ->
  In (Stderr (level l)) (trace p)
  \/ l = smoothedLevel (recorder (appendAndMeter env sb p)).
Proof.
  rewrite appendAndMeter_level. unfold appendAndMeter.
  destruct (writerInput (recorder p)); [|now left].
  assert (Hready : forall q,
             q = (if isReadyForMoreMediaData env
                  then emit (Append (appendOk env)) p else p) ->
             In (Stderr (level l)) (trace q) ->
             In (Stderr (level l)) (trace p)).
  { intros q -> Hin. destruct (isReadyForMoreMediaData env); [|exact Hin].
    apply emit_level_lines in Hin; [exact Hin|discriminate]. }
  destruct (isReadyForMoreMediaData env && negb (appendOk env)).
  - intros Hin. left. apply requestStop_level_lines in Hin.
    apply emit_level_lines in Hin; [|discriminate].
    now apply (Hready _ eq_refl).
  - intros Hin. apply emitTelemetry_level_lines in Hin.
    destruct Hin as [Hin|Hin].
    + left. cbn in Hin. now apply (Hready _ eq_refl).
    + right. rewrite Hin. cbn.
      now destruct (isReadyForMoreMediaData env).
Qed.

(** A level line written by the callback reports the level it has just
    smoothed. *)
Lemma streamDidOutput_level_lines (t : SCStreamOutputType)
      (sb : CMSampleBuffer) (env : SampleEnv) (p : Process) (l : float32) :
  In (Stderr (level l)) (trace (streamDidOutput t sb env p)) ->
  In (Stderr (level l)) (trace p)
  \/ l = smoothedLevel (recorder (streamDidOutput t sb env p)).
Proof.
  unfold streamDidOutput.
  destruct (negb (is_audio t)); [now left|].
  destruct (negb (isValid sb)); [now left|].
  set (p1 := with_recorder (set_hasReceivedAudioSample true) p).
  destruct (writer (recorder p1)).
  - intros Hin. apply appendAndMeter_level_lines in Hin. exact Hin.
  - destruct (initializeWriter _ _ _) as [e|r'].
    + intros Hin. left. apply requestStop_level_lines in Hin.
      do 2 (apply emit_level_lines in Hin; [|discriminate]). exact Hin.
    + intros Hin. apply appendAndMeter_level_lines in Hin.
      destruct Hin as [Hin|Hin]; [left|now right].
      cbn in Hin. apply in_app_iff in Hin.
      destruct Hin as [Hin|[Hin|[]]]; [exact Hin|discriminate Hin].
Qed.

(** C3. For every sample buffer the adapter meters (a valid audio buffer,
    with a writer in place or just initialised, whose append did not fail),
    the new smoothed level is the exponential moving average
    [0.75 * previous + 0.25 * level] clamped to [[0,1]], where [level] is
    [min(1, rms * 2.8)] for the root mean square of the interpreted samples
    (16-bit signed integer samples scaled by [1/32768], 32-bit float samples
    as they are; [0] when there is none). A buffer that is not metered
    leaves the smoothed level as it was. A level line the callback writes
    reports the new smoothed level, and the smoothed level and every level
    line written lie in [[0,1]]. *)
Theorem signal_level_rms_ema (start : Date) (evs : list Event)
        (t : SCStreamOutputType) (sb : CMSampleBuffer) (env : SampleEnv) :
  let p := execute start evs in
  let p' := step p (EvSample t sb env) in
  alive p = true ->
  (metered t sb env p = true ->
   smoothedLevel (recorder p')
   = clamped
       (add (mul (smoothedLevel (recorder p)) lit_0_75)
            (mul (normalized_level (interpreted_samples sb)) lit_0_25))
       zero one) /\
  (metered t sb env p = false ->
   smoothedLevel (recorder p') = smoothedLevel (recorder p)) /\
  (forall l, In (Stderr (level l)) (trace p') ->
             In (Stderr (level l)) (trace p)
             \/ l = smoothedLevel (recorder p')) /\
  in_unit (smoothedLevel (recorder p')) = true /\
  (forall l, In (Stderr (level l)) (trace p') -> in_unit l = true).
Proof.
  intros p p' A.
  assert (E : smoothedLevel (recorder p')
              = if metered t sb env p
                then smooth (smoothedLevel (recorder p)) (computeRmsLevel sb)
                else smoothedLevel (recorder p)).
  { subst p'. unfold step. rewrite A. simpl. apply streamDidOutput_level. }
  split; [|split; [|split]].
  - intros M. rewrite E, M, computeRmsLevel_normalized_level. reflexivity.
  - intros M. now rewrite E, M.
  - subst p'. unfold step. rewrite A. cbn [negb].
    apply streamDidOutput_level_lines.
  - subst p' p. rewrite <- execute_snoc. apply level_inv_execute.
Qed.

(** The theorem at work: two 16-bit samples, [1000] and [-1000], metered
    one second after the start, raise the level from [0] to
    [0.25 * min(1, 2.8 * 1000/32768)]. *)
Lemma signal_level_rms_ema_witness :
  alive (execute 0%Q [EvStartCaptureReturned None]) = true /\
  metered audio Scenario.two_samples
          (Scenario.at_time 1%Q Scenario.writer_accepts)
          (execute 0%Q [EvStartCaptureReturned None]) = true /\
  smoothedLevel
    (recorder
       (step (execute 0%Q [EvStartCaptureReturned None])
             (EvSample audio Scenario.two_samples
                       (Scenario.at_time 1%Q Scenario.writer_accepts))))
  = S754_finite false 11468800 (-29).
Proof.
  split; [reflexivity|split; [reflexivity|]].
  destruct (@signal_level_rms_ema 0%Q [EvStartCaptureReturned None] audio
              Scenario.two_samples
              (Scenario.at_time 1%Q Scenario.writer_accepts)
              eq_refl) as [H _].
  rewrite (H eq_refl). reflexivity.
Defined.

(** Throughout every execution the smoothed level and every [level] line
    written to standard error lie in [[0,1]]. *)
Theorem reported_levels_in_unit (start : Date) (evs : list Event) :
  in_unit (smoothedLevel (recorder (execute start evs))) = true /\
  Forall (fun e => match e with
                   | Stderr (level l) => in_unit l = true
                   | _ => True
                   end)
         (trace (execute start evs)).
Proof.
  destruct (level_inv_execute start evs) as [H1 H2].
  split; [exact H1|]. apply Forall_forall.
  intros [[m|b|u|l]| | | | | | | | |] Hin; try exact I. now apply H2.
Qed.

(** ** The shutdown sequence *)

Lemma finalizeWriter_frame (p : Process) :
  recorder (finalizeWriter p) = recorder p /\
  phase (finalizeWriter p) = phase p /\
  trace (finalizeWriter p) = trace p ++ finalization p.
Proof.
  unfold finalizeWriter, finalization.
  destruct (writer (recorder p)); [destruct (writerInput (recorder p))|];
    cbn; rewrite <- ?app_assoc, ?app_nil_r; auto.
Qed.

(** A shutdown whose [stopCapture] succeeds: capture is stopped, the writer
    (if any) is finalised, then the forced telemetry is written, then the
    process exits. *)
Lemma shutdown_ok (env : ShutdownEnv) (p : Process) :
  alive p = true ->
  stopCaptureError env = None ->
  exists report lines tail,
    trace (shutdown env p)
    = trace p ++ StopCapture true :: finalization p
              ++ Emit (finalNow env) true :: report ++ lines ++ tail /\
    ((report = [] /\
      (hasReceivedAudioSample (recorder p) = true \/
       emittedNoSampleError (recorder p) = true \/
       (finalNow env - startedAt (recorder p) <= 5 # 2)%Q))
     \/
     (report = [Stderr (sck_error NoAudioSamplesReceived)] /\
      hasReceivedAudioSample (recorder p) = false /\
      (5 # 2 < finalNow env - startedAt (recorder p))%Q)) /\
    ((lines = [Trap] /\ tail = [] /\ phase (shutdown env p) = Trapped) \/
     (tail = [Exit 0] /\ phase (shutdown env p) = Exited 0 /\
      exists size micros,
        lines = [Stderr (total_size size); Stderr (out_time_us micros);
                 Stderr (level (smoothedLevel (recorder p)))])).
Proof.
  intros A Ok. unfold shutdown. rewrite Ok.
  set (q := finalizeWriter (emit (StopCapture true) p)).
  destruct (finalizeWriter_frame (emit (StopCapture true) p)) as (R & Ph & T).
  fold q in R, Ph, T. cbn in R, Ph, T.
  change (finalization (emit (StopCapture true) p))
    with (finalization p) in T.
  destruct (emitTelemetry_spec true (finalNow env) (finalFileSize env) q)
    as [(F&_)|(_&_&report&lines&Htr&Hrep&Hlines)]; [discriminate|].
  rewrite R in Hrep, Hlines. rewrite T in Htr.
  assert (Hrep' :
            (report = [] /\
             (hasReceivedAudioSample (recorder p) = true \/
              emittedNoSampleError (recorder p) = true \/
              (finalNow env - startedAt (recorder p) <= 5 # 2)%Q))
            \/
            (report = [Stderr (sck_error NoAudioSamplesReceived)] /\
             hasReceivedAudioSample (recorder p) = false /\
             (5 # 2 < finalNow env - startedAt (recorder p))%Q))
    by (destruct Hrep as [(?&_&?)|(?&?&_&?&_)]; auto).
  exists report, lines.
  unfold exitNormally, alive.
  destruct Hlines as [(->&Tr)|(Same&size&micros&->)].
  - rewrite Tr. exists []. split; [|split; [exact Hrep'|left; auto]].
    rewrite Htr, <- !app_assoc. reflexivity.
  - rewrite Same, Ph. unfold alive in A.
    destruct (phase p) eqn:Php; try discriminate A;
      (exists [Exit 0]; split; [|split; [exact Hrep'|right; eauto]]);
      cbn; rewrite Htr;
      repeat (rewrite <- app_assoc || rewrite <- app_comm_cons);
      reflexivity.
Qed.

(** A shutdown whose [stopCapture] throws: the error is reported and the
    process exits with status 1; the writer is left as it was. *)
Lemma shutdown_throw (env : ShutdownEnv) (p : Process) (e : ThrownError) :
  stopCaptureError env = Some e ->
  trace (shutdown env p)
  = trace p ++ [StopCapture false; Stderr (sck_error (Uncaught e)); Exit 1]
  /\ phase (shutdown env p) = Exited 1.
Proof.
  intros Err. unfold shutdown. rewrite Err. cbn.
  now rewrite <- !app_assoc.
Qed.

(** ** The no-sample error *)

Lemma step_shutdown (p : Process) (env : ShutdownEnv) :
  phase p = Resumed -> step p (EvShutdown env) = shutdown env p.
Proof. intros Ph. unfold step, alive. now rewrite Ph. Qed.

Lemma count_finalization (f : Effect -> bool) (p : Process) :
  f MarkAsFinished = false -> f FinishWriting = false ->
  count f (finalization p) = 0%nat.
Proof.
  intros F1 F2. unfold finalization.
  destruct (writer (recorder p)); [destruct (writerInput (recorder p))|];
    count_norm; rewrite ?F1, ?F2; reflexivity.
Qed.

(** The only place the no-sample error line comes from. No execution
    writes it twice. It is written only by the forced emission of the
    shutdown, hence after a stop has been requested, in a run in which no
    valid audio sample was ever received, more than 2.5 s after the start;
    and in such a run that emission does write it. *)
Lemma no_sample_error_latched (start : Date) (evs : list Event) :
  (count is_no_sample_error (trace (execute start evs)) <= 1)%nat /\
  (count is_no_sample_error (trace (execute start evs)) = 1%nat ->
   hasReceivedAudioSample (recorder (execute start evs)) = false /\
   stopRequested (recorder (execute start evs)) = true /\
   exists t, In (Emit t true) (trace (execute start evs)) /\
             (5 # 2 < t - start)%Q) /\
  (forall env,
      phase (execute start evs) = Resumed ->
      stopCaptureError env = None ->
      hasReceivedAudioSample (recorder (execute start evs)) = false ->
      (5 # 2 < finalNow env - start)%Q ->
      count is_no_sample_error
            (trace (step (execute start evs) (EvShutdown env))) = 1%nat).
Proof.
  destruct (no_sample_inv_execute start evs) as (S & L & C & F).
  destruct (stop_inv_execute start evs) as [_ Stop].
  set (p := execute start evs) in *.
  split; [|split].
  - rewrite C. destruct (emittedNoSampleError (recorder p)); lia.
  - intros One.
    assert (En : emittedNoSampleError (recorder p) = true).
    { destruct (emittedNoSampleError (recorder p)); [reflexivity|].
      rewrite C in One. discriminate One. }
    destruct (F En) as (Hr & t & Hin & Late).
    split; [exact Hr|split; [exact (Stop t Hin)|]].
    exists t. split; assumption.
  - intros env Ph Ok Hr Late.
    assert (A : alive p = true) by (unfold alive; now rewrite Ph).
    rewrite (L A) in C.
    rewrite step_shutdown by exact Ph.
    destruct (@shutdown_ok env p A Ok)
      as (report & lines & tail & Htr & Hrep & Hlines).
    rewrite S in Hrep.
    destruct Hrep as [(_&[Hr'|[En|Early]])|(->&_)].
    + congruence.
    + rewrite (L A) in En. discriminate En.
    + exfalso. apply (Qlt_not_le _ _ Late Early).
    + rewrite Htr. count_norm. rewrite C.
      rewrite count_finalization by reflexivity.
      destruct Hlines as [(->&->&_)|(->&_&size&micros&->)];
        count_norm; reflexivity.
Qed.

(** C4 at its failing input. [emitTelemetry] holds the test for a run
    without samples (no sample received, more than 2.5 s since the start,
    latched by [emittedNoSampleError]), but it is called only from the
    sample callback, after [hasReceivedAudioSample = true], and once at
    the end of [run]: nothing calls it while the samples stay away. In
    [silent_ten_seconds] ten seconds pass without a valid audio sample:
    the process writes nothing, requests no stop and keeps waiting. In
    [late_first_sample] the first sample comes after 3 s and the run
    completes without the line. And in no execution at all is the line
    written while the process lives. *)
Theorem no_sample_error_never_while_running :
  (existsb (valid_sample_by (0 + (5 # 2))%Q) Scenario.silent_ten_seconds
   = false /\
   trace (execute 0%Q Scenario.silent_ten_seconds) = [] /\
   stopRequested (recorder (execute 0%Q Scenario.silent_ten_seconds))
   = false /\
   phase (execute 0%Q Scenario.silent_ten_seconds) = AwaitingStop) /\
  (existsb (valid_sample_by (0 + (5 # 2))%Q) Scenario.late_first_sample
   = false /\
   phase (execute 0%Q Scenario.late_first_sample) = Exited 0 /\
   count is_no_sample_error
         (trace (execute 0%Q Scenario.late_first_sample)) = 0%nat) /\
  (forall start evs,
      alive (execute start evs) = true ->
      count is_no_sample_error (trace (execute start evs)) = 0%nat).
Proof.
  split; [repeat split; reflexivity|].
  split; [repeat split; reflexivity|].
  intros start evs A.
  destruct (no_sample_inv_execute start evs) as (_ & L & C & _).
  rewrite C, (L A). reflexivity.
Qed.

(** The error line at work: no sample, stop after 3 s. *)
Example no_sample_error_emitted_once :
  count is_no_sample_error (trace (execute 0%Q Scenario.never_a_sample))
  = 1%nat.
Proof. reflexivity. Qed.

(** ** Deferred writer initialisation *)









(** ** Shutdown after a stop request *)

(** When [stopCapture] succeeds the shutdown is graceful: capture is
    stopped, then the writer input is marked finished and the writer's
    [finishWriting] is awaited (when a writer exists), and only then the
    forced telemetry is written and the process ends. *)
Theorem shutdown_graceful_order (start : Date) (evs : list Event)
        (env : ShutdownEnv) :
  phase (execute start evs) = Resumed ->
  stopCaptureError env = None ->
  exists rest,
    trace (step (execute start evs) (EvShutdown env))
    = trace (execute start evs)
      ++ StopCapture true :: finalization (execute start evs)
      ++ Emit (finalNow env) true :: rest /\
    count is_finalization rest = 0%nat /\
    alive (step (execute start evs) (EvShutdown env)) = false.
Proof.
  intros Ph Ok. set (p := execute start evs) in *.
  assert (A : alive p = true) by (unfold alive; now rewrite Ph).
  rewrite step_shutdown by exact Ph.
  destruct (@shutdown_ok env p A Ok)
    as (report & lines & tail & Htr & Hrep & Hlines).
  exists (report ++ lines ++ tail). split; [exact Htr|].
  unfold alive.
  destruct Hrep as [(->&_)|(->&_)];
    destruct Hlines as [(->&->&->)|(->&->&size&micros&->)];
    split; reflexivity.
Qed.

Lemma shutdown_graceful_order_witness :
  exists rest,
    trace (step (execute 0%Q [EvStartCaptureReturned None; EvContinuationStored;
                              EvSample audio Scenario.two_samples
                                (Scenario.at_time 1%Q Scenario.writer_accepts);
                              EvStdin (Utf8 "q")])
                (EvShutdown (Scenario.stop_at 2%Q None)))
    = trace (execute 0%Q [EvStartCaptureReturned None; EvContinuationStored;
                          EvSample audio Scenario.two_samples
                            (Scenario.at_time 1%Q Scenario.writer_accepts);
                          EvStdin (Utf8 "q")])
      ++ StopCapture true :: [MarkAsFinished; FinishWriting]
      ++ Emit 2%Q true :: rest /\
    count is_finalization rest = 0%nat /\
    alive (step (execute 0%Q [EvStartCaptureReturned None; EvContinuationStored;
                              EvSample audio Scenario.two_samples
                                (Scenario.at_time 1%Q Scenario.writer_accepts);
                              EvStdin (Utf8 "q")])
                (EvShutdown (Scenario.stop_at 2%Q None))) = false.
Proof.
  exact (@shutdown_graceful_order
           0%Q [EvStartCaptureReturned None; EvContinuationStored;
                EvSample audio Scenario.two_samples
                         (Scenario.at_time 1%Q Scenario.writer_accepts);
                EvStdin (Utf8 "q")]
           (Scenario.stop_at 2%Q None) eq_refl eq_refl).
Defined.

(** C7 at its failing input. One sample has been written (a writer
    exists), a stop is requested, and [stopCapture] throws: the process
    reports the error and exits with status 1 without marking the writer
    input as finished, without calling [finishWriting] and without the
    forced telemetry. The same run with a [stopCapture] that succeeds
    finalises the writer. *)
Theorem stopCapture_throw_skips_finalization :
  writer (recorder (execute 0%Q Scenario.stop_capture_throws)) <> None /\
  stopRequested (recorder (execute 0%Q Scenario.stop_capture_throws)) = true /\
  count is_finalization (trace (execute 0%Q Scenario.stop_capture_throws))
  = 0%nat /\
  count is_forced_emit (trace (execute 0%Q Scenario.stop_capture_throws))
  = 0%nat /\
  phase (execute 0%Q Scenario.stop_capture_throws) = Exited 1 /\
  count is_finalization (trace (execute 0%Q Scenario.stop_capture_succeeds))
  = 2%nat.
Proof. repeat split; try reflexivity. discriminate. Qed.

(** ** More of the adapter: clock, appends, what [stderr] carries *)

(** One call of [emitTelemetry], with the value of [out_time_us]: unless
    throttled, the call traps exactly when the elapsed microseconds do not
    fit [UInt64], and otherwise writes the truncated value. *)
Lemma emitTelemetry_written (force : bool) (t : Date) (fs : option Z)
      (p : Process) :
  let p' := emitTelemetry force t fs p in
  let us := elapsed_micros (recorder p) t in
  (force = false /\ p' = p) \/
  exists report,
    (report = [] \/
     (report = [Stderr (sck_error NoAudioSamplesReceived)] /\
      hasReceivedAudioSample (recorder p) = false)) /\
    ((fits_UInt64 us = false /\ phase p' = Trapped /\
      trace p' = trace p ++ Emit t force :: report ++ [Trap]) \/
     (fits_UInt64 us = true /\ phase p' = phase p /\
      trace p'
      = trace p ++ Emit t force :: report
          ++ [Stderr (total_size (match fs with Some n => n | None => 0 end));
              Stderr (out_time_us (truncate us));
              Stderr (level (smoothedLevel (recorder p)))])).
Proof.
  destruct_process p. unfold emitTelemetry, elapsed_micros; cbn.
  destruct (negb force && Qltb (t - lt) (1 # 5)) eqn:Th; cbn.
  { left. apply andb_true_iff in Th. destruct Th as [Th _].
    apply negb_true_iff in Th. auto. }
  right.
  destruct (negb hr && negb en && Qltb (5 # 2) (t - sa)) eqn:N; cbn.
  - apply andb_true_iff in N. destruct N as [N _].
    apply andb_true_iff in N. destruct N as [N _].
    apply negb_true_iff in N. subst hr.
    exists [Stderr (sck_error NoAudioSamplesReceived)].
    split; [right; auto|].
    destruct (fits_UInt64 _); cbn; [right|left];
      repeat split; now rewrite <- !app_assoc.
  - exists []. split; [now left|].
    destruct (fits_UInt64 _); cbn; [right|left];
      repeat split; now rewrite <- !app_assoc.
Qed.

(** *** Invariants that depend on the clock or on the writer

    The same decomposition of [step] as above, refined: the clock readings
    of the events may be restricted, an append happens only with a writer
    input in place, and each failure path of the callback is taken as a
    whole (error line, then stop request). *)

Section GuardedInvariant.

Variable I : Process -> Prop.
Variable ok : Date -> Prop.

Hypothesis G_requestStop :
  forall p, alive p = true -> I p -> I (requestStop p).
Hypothesis G_quiet :
  forall e p,
    e = StopCapture true \/ e = StopCapture false \/
    e = MarkAsFinished \/ e = FinishWriting ->
    I p -> I (emit e p).
Hypothesis G_fail : forall e p, I p -> I (fail e p).
Hypothesis G_initFailed :
  forall e p,
    alive p = true -> writer (recorder p) = None -> I p ->
    I (requestStop
         (emit (Stderr (sck_error (FailedToInitializeWriter e)))
               (emit (InitializeWriter false) p))).
Hypothesis G_appended :
  forall p, alive p = true -> writerInput (recorder p) <> None ->
            I p -> I (emit (Append true) p).
Hypothesis G_appendFailed :
  forall details p,
    alive p = true -> writerInput (recorder p) <> None -> I p ->
    I (requestStop
         (emit (Stderr (sck_error (FailedToAppend details)))
               (emit (Append false) p))).
Hypothesis G_received :
  forall p, alive p = true -> I p ->
            I (with_recorder (set_hasReceivedAudioSample true) p).
Hypothesis G_initialized :
  forall w i p,
    alive p = true -> writer (recorder p) = None ->
    hasReceivedAudioSample (recorder p) = true -> I p ->
    I (with_recorder (fun _ => set_writers w i (recorder p))
                     (emit (InitializeWriter true) p)).
Hypothesis G_metered :
  forall lvl t fs p,
    alive p = true -> hasReceivedAudioSample (recorder p) = true ->
    in_unit lvl = true -> ok t -> I p ->
    I (emitTelemetry false t fs
         (with_recorder
            (fun r => set_smoothedLevel (smooth (smoothedLevel r) lvl) r) p)).
Hypothesis G_final :
  forall t fs p, phase p = Resumed -> ok t -> I p ->
                 I (exitNormally (emitTelemetry true t fs p)).
Hypothesis G_waiting :
  forall p, phase p = StartingCapture -> I p ->
            I (waitUntilStopRequested p).
Hypothesis G_stored :
  forall p, phase p = EnteringWait -> I p -> I (storeStopContinuation p).

Lemma G_appendAndMeter (env : SampleEnv) (sb : CMSampleBuffer) (p : Process) :
  alive p = true -> hasReceivedAudioSample (recorder p) = true ->
  ok (now env) ->
  I p -> I (appendAndMeter env sb p).
Proof.
  intros A R T H. unfold appendAndMeter.
  destruct (writerInput (recorder p)) eqn:W; [|exact H].
  assert (W' : writerInput (recorder p) <> None) by now rewrite W.
  destruct (isReadyForMoreMediaData env); cbn [andb].
  - destruct (appendOk env); cbn [negb].
    + apply G_metered; try assumption.
      * rewrite computeRmsLevel_normalized_level.
        apply normalized_level_in_unit.
      * now apply G_appended.
    + now apply G_appendFailed.
  - apply G_metered; try assumption.
    rewrite computeRmsLevel_normalized_level. apply normalized_level_in_unit.
Qed.

Lemma G_streamDidOutput (t : SCStreamOutputType) (sb : CMSampleBuffer)
      (env : SampleEnv) (p : Process) :
  alive p = true -> ok (now env) -> I p -> I (streamDidOutput t sb env p).
Proof.
  intros A T H. unfold streamDidOutput.
  destruct (negb (is_audio t)); [exact H|].
  destruct (negb (isValid sb)); [exact H|].
  set (p1 := with_recorder (set_hasReceivedAudioSample true) p).
  assert (H1 : I p1) by now apply G_received.
  assert (A1 : alive p1 = true) by exact A.
  assert (R1 : hasReceivedAudioSample (recorder p1) = true) by reflexivity.
  destruct (writer (recorder p1)) eqn:W.
  - now apply G_appendAndMeter.
  - destruct (initializeWriter _ _ _) as [e|r'] eqn:E.
    + now apply G_initFailed.
    + apply initializeWriter_ok in E. subst r'.
      apply G_appendAndMeter; [exact A1|reflexivity|exact T|].
      now apply G_initialized.
Qed.

Lemma G_shutdown (env : ShutdownEnv) (p : Process) :
  phase p = Resumed -> ok (finalNow env) -> I p -> I (shutdown env p).
Proof.
  intros Ph T H. unfold shutdown.
  destruct (stopCaptureError env).
  - apply G_fail, G_quiet; [tauto|exact H].
  - apply G_final; [|exact T|].
    + unfold finalizeWriter. cbn.
      destruct (writer (recorder p)); [|exact Ph].
      destruct (writerInput (recorder p)); exact Ph.
    + unfold finalizeWriter. cbn.
      assert (H0 : I (emit (StopCapture true) p))
        by (apply G_quiet; [tauto|exact H]).
      destruct (writer (recorder p)); [|exact H0].
      destruct (writerInput (recorder p)); [|exact H0].
      do 2 (apply G_quiet; [tauto|]). exact H0.
Qed.

Lemma G_step (p : Process) (ev : Event) :
  reading_ok ok ev -> I p -> I (step p ev).
Proof.
  intros T H. unfold step.
  destruct (alive p) eqn:A; [|exact H]. simpl.
  destruct ev as [err| |t sb env|data|env].
  - destruct (phase p) eqn:Ph; try exact H.
    destruct err as [e|]; simpl; [now apply G_fail|now apply G_waiting].
  - destruct (phase p) eqn:Ph; try exact H. now apply G_stored.
  - now apply G_streamDidOutput.
  - destruct (stdinHandler p); [|exact H].
    destruct data as [|text|]; simpl; auto.
    destruct (contains_q text); auto.
  - destruct (phase p) eqn:Ph; try exact H. now apply G_shutdown.
Qed.

Lemma G_run_events (evs : list Event) :
  forall p, Forall (reading_ok ok) evs -> I p -> I (run_events p evs).
Proof.
  unfold run_events.
  induction evs as [|ev evs IH]; intros p T H; simpl; [exact H|].
  inversion T; subst. apply IH; [assumption|]. now apply G_step.
Qed.

End GuardedInvariant.

(** *** No trap while the clock is sane *)

Lemma clock_sane_reading (start : Date) (ev : Event) :
  clock_sane start ev = true -> reading_ok (sane start) ev.
Proof.
  unfold clock_sane, reading_ok, sane.
  destruct (clock_reading ev) as [t|]; [|trivial].
  intros H. apply andb_true_iff in H. destruct H as [H1 H2].
  apply Qle_bool_iff in H1. apply Qltb_lt in H2. auto.
Qed.

Lemma sane_fits (r : SystemAudioRecorder) (t : Date) :
  sane (startedAt r) t -> fits_UInt64 (elapsed_micros r t) = true.
Proof.
  unfold sane, fits_UInt64, elapsed_micros. intros [H1 H2].
  apply andb_true_iff. split; apply Qltb_lt; [lra|exact H2].
Qed.

Lemma In_snoc (A : Type) (x e : A) (l : list A) :
  In x (l ++ [e]) -> In x l \/ x = e.
Proof.
  rewrite in_app_iff. simpl. intuition.
Qed.

Lemma no_trap_inv_emit (start : Date) (e : Effect) (p : Process) :
  e <> Trap -> no_trap_inv start p -> no_trap_inv start (emit e p).
Proof.
  intros Ne (S & Ph & T). repeat split; [exact S|exact Ph|].
  cbn. intros H. apply In_snoc in H. destruct H as [H|H]; [auto|].
  now symmetry in H.
Qed.

Lemma no_trap_inv_requestStop (start : Date) (p : Process) :
  alive p = true -> no_trap_inv start p -> no_trap_inv start (requestStop p).
Proof.
  intros A (S & Ph & T).
  destruct (requestStop_frame p) as (_&_&S'&_&_&_&_&A'&Tr).
  specialize (A' A). repeat split.
  - now rewrite S'.
  - intros E. unfold alive in A'. now rewrite E in A'.
  - destruct Tr as [-> | ->]; [exact T|].
    intros H. apply In_snoc in H. destruct H as [H|H]; [auto|discriminate].
Qed.

Lemma no_trap_inv_emitTelemetry (start : Date) (force : bool) (t : Date)
      (fs : option Z) (p : Process) :
  sane start t -> no_trap_inv start p ->
  no_trap_inv start (emitTelemetry force t fs p).
Proof.
  intros Hs (S & Ph & T).
  destruct (emitTelemetry_frame force t fs p) as (_&_&S'&_).
  destruct (emitTelemetry_written force t fs p)
    as [[_ E]|(report & Hrep & [(F&_)|(_ & Ph' & Tr)])].
  - rewrite E. now repeat split.
  - rewrite sane_fits in F by now rewrite S. discriminate.
  - repeat split; [now rewrite S'|now rewrite Ph'|].
    rewrite Tr. intros H. apply in_app_iff in H.
    destruct H as [H|[H|H]]; [auto|discriminate|].
    apply in_app_iff in H. destruct H as [H|H].
    + destruct Hrep as [->|[-> _]]; [destruct H|].
      destruct H as [H|[]]; discriminate.
    + destruct H as [H|[H|[H|[]]]]; discriminate.
Qed.

Lemma no_trap_inv_run (start : Date) (evs : list Event) (p : Process) :
  Forall (reading_ok (sane start)) evs ->
  no_trap_inv start p -> no_trap_inv start (run_events p evs).
Proof.
  apply (@G_run_events (no_trap_inv start) (sane start)).
  - intros q. apply no_trap_inv_requestStop.
  - intros e q He. apply no_trap_inv_emit.
    destruct He as [->|[->|[->| ->]]]; discriminate.
  - intros e q H. unfold fail.
    apply (no_trap_inv_emit (e := Stderr (sck_error (Uncaught e)))) in H;
      [|discriminate].
    apply (no_trap_inv_emit (e := Exit 1)) in H; [|discriminate].
    destruct H as (S & _ & T). repeat split; [exact S|discriminate|exact T].
  - intros e q A _ H. apply no_trap_inv_requestStop; [exact A|].
    do 2 (apply no_trap_inv_emit; [discriminate|]). exact H.
  - intros q _ _. apply no_trap_inv_emit. discriminate.
  - intros d q A _ H. apply no_trap_inv_requestStop; [exact A|].
    do 2 (apply no_trap_inv_emit; [discriminate|]). exact H.
  - intros q _ H. exact H.
  - intros w i q _ _ _ H.
    apply (no_trap_inv_emit (e := InitializeWriter true)) in H;
      [|discriminate].
    exact H.
  - intros lvl t fs q _ _ _ Hs H.
    apply no_trap_inv_emitTelemetry; [exact Hs|exact H].
  - intros t fs q Ph Hs H.
    apply (@no_trap_inv_emitTelemetry _ true t fs _ Hs) in H.
    destruct H as (S & Ph' & T).
    unfold exitNormally.
    destruct (alive _); [|now repeat split].
    repeat split; [exact S|discriminate|].
    cbn. intros H. apply In_snoc in H. destruct H as [H|H];
      [auto|discriminate].
  - intros q _ (S & Ph & T). unfold waitUntilStopRequested.
    destruct (stopRequested (recorder q)); cbn;
      (repeat split; [exact S|discriminate|exact T]).
  - intros q _ (S & Ph & T). repeat split; [exact S|discriminate|exact T].
Qed.

(** While every clock reading is at or after the start of the run and
    less than [2^64] microseconds after it, the adapter never traps: the
    conversion [UInt64(elapsed * 1_000_000)] of [emitTelemetry] always
    succeeds. *)
Theorem no_trap_with_sane_clock (start : Date) (evs : list Event) :
  forallb (clock_sane start) evs = true ->
  phase (execute start evs) <> Trapped /\
  ~ In Trap (trace (execute start evs)).
Proof.
  intros H.
  assert (H' : Forall (reading_ok (sane start)) evs).
  { apply Forall_forall. intros ev Hev. apply clock_sane_reading.
    rewrite forallb_forall in H. now apply H. }
  apply (no_trap_inv_run H' (p := run_begin None start)).
  repeat split; [discriminate|intros []].
Qed.

Lemma no_trap_with_sane_clock_witness :
  phase (execute 0%Q Scenario.stop_capture_succeeds) <> Trapped /\
  ~ In Trap (trace (execute 0%Q Scenario.stop_capture_succeeds)).
Proof.
  apply (@no_trap_with_sane_clock 0%Q Scenario.stop_capture_succeeds).
  reflexivity.
Defined.

(** *** Stop requests and the wait for them *)




















(** The controller closes standard input between the test and the store:
    the stop is requested, the run suspends, and neither the samples that
    keep arriving nor anything else ends the run. Capture is never
    stopped and the writer never finalised. *)
Example stop_in_window_lost :
  requested_in_window 0%Q stop_in_window /\
  stopRequested (recorder (execute 0%Q stop_in_window)) = true /\
  phase (execute 0%Q stop_in_window) = AwaitingStop /\
  count is_finalization (trace (execute 0%Q stop_in_window)) = 0%nat /\
  ~ In (StopCapture true) (trace (execute 0%Q stop_in_window)).
Proof.
  split.
  - exists [EvStartCaptureReturned None], (EvStdin Empty),
      [EvContinuationStored;
       EvSample audio Scenario.two_samples
                (Scenario.at_time 1%Q Scenario.writer_accepts);
       EvShutdown (Scenario.stop_at 2%Q None)].
    repeat split.
  - vm_compute. repeat split; try reflexivity.
    intros H. repeat (destruct H as [H|H]; [discriminate H|]).
    exact H.
Qed.

(** *** Appends *)

Lemma requestStop_grows (p : Process) :
  exists added,
    trace (requestStop p) = trace p ++ added /\
    (added = [] \/ added = [ResumeContinuation]).
Proof.
  destruct (requestStop_frame p) as (_&_&_&_&_&_&_&_&[E|E]).
  - exists []. rewrite app_nil_r. auto.
  - exists [ResumeContinuation]. auto.
Qed.

(** A trace that grows by effects other than appends splits at an append
    as it did before. *)
Lemma split_at_append (tr added pre post : list Effect) (b : bool) :
  Forall (fun e => is_append e = false) added ->
  tr ++ added = pre ++ Append b :: post ->
  exists post', tr = pre ++ Append b :: post'.
Proof.
  intros NA E. apply app_eq_app in E.
  destruct E as [l [[E1 E2]|[E1 E2]]].
  - destruct l as [|x l'].
    + simpl in E2. subst added. inversion NA; discriminate.
    + injection E2 as <- _. now exists l'.
  - subst added. apply Forall_app in NA. destruct NA as [_ NA].
    inversion NA; discriminate.
Qed.

Lemma append_inv_grow (p p' : Process) (added : list Effect) :
  trace p' = trace p ++ added ->
  Forall (fun e => is_append e = false) added ->
  writerInput (recorder p') = writerInput (recorder p) ->
  (stopRequested (recorder p) = true -> stopRequested (recorder p') = true) ->
  append_inv p -> append_inv p'.
Proof.
  intros Tr NA W S (H1 & H2 & H3). split; [|split].
  - intros pre b post E. rewrite Tr in E.
    destruct (@split_at_append _ _ _ _ _ NA E) as [post' E']. eauto.
  - intros W'. rewrite Tr, in_app_iff. left. apply H2. now rewrite <- W.
  - intros Hin. rewrite Tr, in_app_iff in Hin. destruct Hin as [Hin|Hin].
    + auto.
    + rewrite Forall_forall in NA. apply NA in Hin. discriminate.
Qed.

Lemma append_inv_append (b : bool) (p : Process) :
  writerInput (recorder p) <> None ->
  append_inv p ->
  (forall pre b' post,
      trace (emit (Append b) p) = pre ++ Append b' :: post ->
      In (InitializeWriter true) pre) /\
  (writerInput (recorder p) <> None ->
   In (InitializeWriter true) (trace (emit (Append b) p))).
Proof.
  intros W (H1 & H2 & H3). split.
  - intros pre b' post E. cbn in E. apply snoc_split in E.
    destruct E as [(_&_&<-)|(post'&_&E)]; [auto|eauto].
  - intros _. cbn. rewrite in_app_iff. left. auto.
Qed.

Lemma append_inv_requestStop (p : Process) :
  append_inv p -> append_inv (requestStop p).
Proof.
  destruct (requestStop_grows p) as (added & Tr & Ha).
  destruct (requestStop_frame p) as (_&W&_).
  apply (@append_inv_grow _ _ _ Tr).
  - destruct Ha as [-> | ->]; repeat constructor.
  - exact W.
  - intros _. apply requestStop_stopRequested.
Qed.

Lemma emitTelemetry_grows (force : bool) (t : Date) (fs : option Z)
      (p : Process) :
  exists added,
    trace (emitTelemetry force t fs p) = trace p ++ added /\
    Forall (fun e => is_append e = false) added.
Proof.
  destruct (emitTelemetry_written force t fs p)
    as [[_ E]|(report & Hrep & [(_&_&Tr)|(_&_&Tr)])].
  - exists []. rewrite E, app_nil_r. auto.
  - eexists. split; [exact Tr|].
    destruct Hrep as [->|[-> _]]; repeat constructor.
  - eexists. split; [exact Tr|].
    destruct Hrep as [->|[-> _]]; repeat constructor.
Qed.

Lemma append_inv_emitTelemetry (force : bool) (t : Date) (fs : option Z)
      (p : Process) :
  append_inv p -> append_inv (emitTelemetry force t fs p).
Proof.
  destruct (emitTelemetry_grows force t fs p) as (added & Tr & NA).
  destruct (emitTelemetry_frame force t fs p) as (_&W&_&S&_).
  apply (@append_inv_grow _ _ _ Tr NA W). now rewrite S.
Qed.

Lemma append_inv_emit (e : Effect) (p : Process) :
  is_append e = false -> append_inv p -> append_inv (emit e p).
Proof.
  intros NA. apply (@append_inv_grow p (emit e p) [e]);
    [reflexivity|now constructor|reflexivity|auto].
Qed.

Lemma append_inv_step (p0 : Process) (ev : Event) :
  append_inv p0 -> append_inv (step p0 ev).
Proof.
  apply (@G_step append_inv (fun _ => True)); [..|destruct ev; exact I].
  - intros p _. apply append_inv_requestStop.
  - intros e p He. apply append_inv_emit.
    destruct He as [->|[->|[->| ->]]]; reflexivity.
  - intros e p H. unfold fail.
    apply (@append_inv_grow p _ [Stderr (sck_error (Uncaught e)); Exit 1]);
      [cbn; now rewrite <- app_assoc|repeat constructor|reflexivity|auto
      |exact H].
  - intros e p _ _ H. apply append_inv_requestStop.
    do 2 (apply append_inv_emit; [reflexivity|]). exact H.
  - intros p _ W H. destruct (@append_inv_append true p W H) as [H1 H2].
    destruct H as (_ & _ & H3).
    split; [exact H1|split; [exact H2|]].
    intros Hin. cbn in Hin. apply In_snoc in Hin.
    destruct Hin as [Hin|Hin]; [auto|discriminate].
  - intros d p _ W H. destruct (@append_inv_append false p W H) as [H1 H2].
    set (q := emit (Append false) p) in *.
    set (q' := emit (Stderr (sck_error (FailedToAppend d))) q).
    assert (Hq' : (forall pre b post,
                      trace q' = pre ++ Append b :: post ->
                      In (InitializeWriter true) pre) /\
                  (writerInput (recorder q') <> None ->
                   In (InitializeWriter true) (trace q'))).
    { split.
      - intros pre b post E.
        assert (NA : Forall (fun e => is_append e = false)
                            [Stderr (sck_error (FailedToAppend d))])
          by repeat constructor.
        destruct (@split_at_append _ _ _ _ _ NA E) as [post' E']. eauto.
      - intros W'. cbn. rewrite in_app_iff. left. now apply H2. }
    destruct Hq' as [K1 K2].
    destruct (requestStop_grows q') as (added & Tr & Ha).
    destruct (requestStop_frame q') as (_&W'&_).
    split; [|split].
    + intros pre b post E. rewrite Tr in E.
      assert (NA : Forall (fun e => is_append e = false) added)
        by (destruct Ha as [-> | ->]; repeat constructor).
      destruct (@split_at_append _ _ _ _ _ NA E) as [post' E']. eauto.
    + intros W''. rewrite Tr, in_app_iff. left. apply K2.
      now rewrite <- W'.
    + intros _. apply requestStop_stopRequested.
  - intros p _ H. exact H.
  - intros w i p _ _ _ (H1 & H2 & H3). split; [|split].
    + intros pre b post E. cbn in E. apply snoc_split in E.
      destruct E as [(_&E&_)|(post'&_&E)]; [discriminate|eauto].
    + intros _. cbn. rewrite in_app_iff. right. now left.
    + intros Hin. cbn in Hin. apply In_snoc in Hin.
      destruct Hin as [Hin|Hin]; [auto|discriminate].
  - intros lvl t fs p _ _ _ _ H. apply append_inv_emitTelemetry. exact H.
  - intros t fs p _ _ H.
    apply (append_inv_emitTelemetry true t fs) in H.
    unfold exitNormally. destruct (alive _); [|exact H].
    apply (@append_inv_grow (emitTelemetry true t fs p) _ [Exit 0]);
      [reflexivity|repeat constructor|reflexivity|auto|exact H].
  - intros p _ H. unfold waitUntilStopRequested.
    destruct (stopRequested (recorder p)); exact H.
  - intros q_ _ H_. exact H_.
Qed.

Lemma append_inv_execute (start : Date) (evs : list Event) :
  append_inv (execute start evs).
Proof.
  unfold execute. apply (@run_events_preserves append_inv append_inv_step).
  split; [|split].
  - intros pre b post E. destruct pre; discriminate.
  - intros W. now contradiction W.
  - intros [].
Qed.

Lemma count_none (f : Effect -> bool) (l : list Effect) :
  Forall (fun e => f e = false) l -> count f l = 0%nat.
Proof.
  induction 1 as [|e l He _ IH]; [reflexivity|].
  rewrite count_cons, He, IH. reflexivity.
Qed.

Lemma emitTelemetry_count_append (force : bool) (t : Date) (fs : option Z)
      (p : Process) :
  count is_append (trace (emitTelemetry force t fs p))
  = count is_append (trace p).
Proof.
  destruct (emitTelemetry_grows force t fs p) as (added & -> & NA).
  rewrite count_app, (@count_none _ _ NA). lia.
Qed.

Lemma appendAndMeter_count_append (env : SampleEnv) (sb : CMSampleBuffer)
      (p : Process) :
  (count is_append (trace (appendAndMeter env sb p))
   <= count is_append (trace p) + 1)%nat.
Proof.
  unfold appendAndMeter.
  destruct (writerInput (recorder p)); [|lia].
  destruct (isReadyForMoreMediaData env && negb (appendOk env)).
  - rewrite requestStop_count by reflexivity. cbn.
    destruct (isReadyForMoreMediaData env); cbn; count_norm;
      cbn [is_append]; lia.
  - rewrite emitTelemetry_count_append. cbn.
    destruct (isReadyForMoreMediaData env); cbn; count_norm;
      cbn [is_append]; lia.
Qed.

Lemma step_count_append (p : Process) (ev : Event) :
  (count is_append (trace (step p ev))
   <= count is_append (trace p)
      + if valid_audio_sample ev then 1 else 0)%nat.
Proof.
  unfold step. destruct (alive p) eqn:A; cbn [negb]; [|lia].
  destruct ev as [err| |t sb env|data|env]; cbn [valid_audio_sample].
  - destruct (phase p); try lia.
    destruct err as [e|]; cbn.
    + count_norm. cbn [is_append]. lia.
    + unfold waitUntilStopRequested.
      destruct (stopRequested (recorder p)); cbn; lia.
  - destruct (phase p); cbn; lia.
  - unfold streamDidOutput.
    destruct (is_audio t); [|cbn; lia].
    destruct (isValid sb); [|cbn; lia]. cbn [negb andb].
    set (p1 := with_recorder (set_hasReceivedAudioSample true) p).
    change (count is_append (trace p))
      with (count is_append (trace p1)).
    destruct (writer (recorder p1)).
    + apply appendAndMeter_count_append.
    + destruct (initializeWriter _ _ _) as [e|r'].
      * rewrite requestStop_count by reflexivity. cbn. count_norm.
        cbn [is_append]. lia.
      * etransitivity; [apply appendAndMeter_count_append|].
        cbn. count_norm. cbn [is_append]. lia.
  - destruct (stdinHandler p); [|lia].
    destruct data as [|text|]; cbn; try lia;
      [|destruct (contains_q text); [|lia]];
      rewrite requestStop_count by reflexivity; lia.
  - destruct (phase p) eqn:Ph; try lia.
    destruct (stopCaptureError env) as [e|] eqn:Err.
    + destruct (shutdown_throw env p Err) as [-> _]. count_norm.
      cbn [is_append]. lia.
    + destruct (@shutdown_ok env p A Err)
        as (report & lines & tail & -> & Hrep & Hlines).
      count_norm. rewrite count_finalization by reflexivity.
      destruct Hrep as [(->&_)|(->&_)];
        destruct Hlines as [(->&->&_)|(->&_&size&micros&->)];
        count_norm; cbn [is_append]; lia.
Qed.

Lemma execute_count_append (start : Date) (evs : list Event) :
  (count is_append (trace (execute start evs))
   <= List.length (filter valid_audio_sample evs))%nat.
Proof.
  induction evs as [|ev evs IH] using rev_ind; [reflexivity|].
  rewrite execute_snoc, filter_app, length_app.
  pose proof (step_count_append (execute start evs) ev) as Hs.
  cbn. destruct (valid_audio_sample ev); cbn; lia.
Qed.

(** Samples are appended only to an initialised writer. On the trace of
    every execution each append comes after a successful
    [initializeWriter]; a valid audio sample is appended at most once and
    nothing else is; and once an append has failed a stop is requested. *)
Theorem appends_follow_initialisation (start : Date) (evs : list Event) :
  (forall pre b post,
      trace (execute start evs) = pre ++ Append b :: post ->
      In (InitializeWriter true) pre) /\
  (count is_append (trace (execute start evs))
   <= List.length (filter valid_audio_sample evs))%nat /\
  (In (Append false) (trace (execute start evs)) ->
   stopRequested (recorder (execute start evs)) = true).
Proof.
  destruct (append_inv_execute start evs) as (H1 & _ & H3).
  split; [exact H1|split; [|exact H3]].
  apply execute_count_append.
Qed.

(** *** The telemetry records *)

Lemma stderr_lines_app (a b : list Effect) :
  stderr_lines (a ++ b) = stderr_lines a ++ stderr_lines b.
Proof.
  induction a as [|e a IH]; [reflexivity|].
  destruct e; simpl; now rewrite IH.
Qed.

Lemma telemetry_records_app (a : list StderrLine) :
  forall ra, telemetry_records a = Some ra ->
  forall b,
    telemetry_records (a ++ b)
    = match telemetry_records b with
      | Some rb => Some (ra ++ rb)
      | None => None
      end.
Proof.
  remember (List.length a) as n eqn:Hn. revert a Hn.
  induction n as [n IH] using lt_wf_ind. intros a -> ra Ha b.
  destruct a as [|[m|size|us|l] rest]; simpl in *.
  - injection Ha as <-. now destruct (telemetry_records b).
  - apply (IH (List.length rest)); auto.
  - destruct rest as [|[m|size'|us|l] rest]; try discriminate.
    destruct rest as [|[m|size'|us'|l] rest]; try discriminate.
    simpl in *.
    destruct (telemetry_records rest) as [recs|] eqn:E; [|discriminate].
    injection Ha as <-.
    rewrite (IH (List.length rest) ltac:(lia) rest eq_refl recs E b).
    now destruct (telemetry_records b).
  - discriminate.
  - discriminate.
Qed.

(** [UInt64(_:)] of a value it can represent. *)
Lemma truncate_range (q : Q) :
  fits_UInt64 q = true -> 0 <= truncate q < 18446744073709551616.
Proof.
  unfold fits_UInt64, truncate. intros H.
  apply andb_true_iff in H. destruct H as [H1 H2].
  apply Qltb_lt in H1, H2. unfold Qlt in H1, H2. simpl in H1, H2.
  destruct q as [num den]. simpl in *.
  destruct (Z_lt_le_dec num 0) as [Neg|Pos].
  - assert (E : Z.quot num (Z.pos den) = 0).
    { rewrite <- (Z.opp_involutive num), Z.quot_opp_l by lia.
      rewrite Z.quot_small by lia. reflexivity. }
    rewrite E. lia.
  - rewrite Z.quot_div_nonneg by lia. split.
    + apply Z.div_pos; lia.
    + apply Z.div_lt_upper_bound; lia.
Qed.

Lemma records_inv_grow (p p' : Process) (added : list Effect)
      (recs' : list Record_) :
  trace p' = trace p ++ added ->
  telemetry_records (stderr_lines added) = Some recs' ->
  Forall (fun r => 0 <= snd (fst r) < 18446744073709551616) recs' ->
  (List.length recs' + count is_trap added)%nat
  = List.length (emissions added) ->
  records_inv p -> records_inv p'.
Proof.
  intros Tr Hrec Hb Hn (recs & R & B & N).
  exists (recs ++ recs'). split; [|split].
  - rewrite Tr, stderr_lines_app, (@telemetry_records_app _ _ R), Hrec.
    reflexivity.
  - apply Forall_app. now split.
  - rewrite Tr, count_app, emissions_app, !length_app. lia.
Qed.

Lemma records_inv_emit (e : Effect) (p : Process) :
  match e with
  | Stderr (sck_error _) => True
  | Stderr _ | Emit _ _ | Trap => False
  | _ => True
  end ->
  records_inv p -> records_inv (emit e p).
Proof.
  intros He.
  apply (@records_inv_grow p (emit e p) [e] []); try reflexivity;
    try constructor;
    destruct e as [[m|?|?|?]| | | | | | | | |];
    try contradiction; reflexivity.
Qed.

Lemma records_inv_requestStop (p : Process) :
  records_inv p -> records_inv (requestStop p).
Proof.
  destruct (requestStop_grows p) as (added & Tr & Ha).
  apply (@records_inv_grow _ _ _ [] Tr);
    destruct Ha as [-> | ->]; try reflexivity; constructor.
Qed.

Lemma records_inv_emitTelemetry (force : bool) (t : Date) (fs : option Z)
      (p : Process) :
  records_inv p -> records_inv (emitTelemetry force t fs p).
Proof.
  destruct (emitTelemetry_written force t fs p)
    as [[_ E]|(report & Hrep & [(_&_&Tr)|(F&_&Tr)])].
  - now rewrite E.
  - apply (@records_inv_grow _ _ _ [] Tr);
      destruct Hrep as [->|[-> _]]; try reflexivity; constructor.
  - apply (@records_inv_grow _ _ _
             [(match fs with Some n => n | None => 0 end,
               truncate (elapsed_micros (recorder p) t),
               smoothedLevel (recorder p))] Tr);
      destruct Hrep as [->|[-> _]]; try reflexivity;
      repeat constructor; cbn [fst snd]; now apply truncate_range.
Qed.

Lemma records_inv_step (p0 : Process) (ev : Event) :
  records_inv p0 -> records_inv (step p0 ev).
Proof.
  apply (@I_step records_inv).
  - intros p _. apply records_inv_requestStop.
  - intros e p B. apply records_inv_emit.
    destruct e as [[[]| | |]| | | | | | | | |]; try discriminate; exact I.
  - intros p _ H. exact H.
  - intros w i p _ _ _ H.
    apply (records_inv_emit (InitializeWriter true)) in H; [exact H|exact I].
  - intros lvl t fs p _ _ _ H. apply records_inv_emitTelemetry. exact H.
  - intros t fs p _ H.
    apply (records_inv_emitTelemetry true t fs) in H.
    unfold exitNormally. destruct (alive _); [|exact H].
    apply (records_inv_emit (Exit 0)) in H; [exact H|exact I].
  - intros p H. exact H.
  - intros p _ H. unfold waitUntilStopRequested.
    destruct (stopRequested (recorder p)); exact H.
  - intros q_ _ H_. exact H_.
Qed.

(** What the adapter writes to [stderr] reads, in every execution, as
    error lines and complete telemetry records: [total_size],
    [out_time_us] and [level] always come together and in this order, one
    record for each emission that did not trap, and every [out_time_us]
    is in the range of [UInt64]. *)
Theorem telemetry_records_complete (start : Date) (evs : list Event) :
  exists recs,
    telemetry_records (stderr_lines (trace (execute start evs))) = Some recs
    /\ Forall (fun r => 0 <= snd (fst r) < 18446744073709551616) recs
    /\ (List.length recs + count is_trap (trace (execute start evs)))%nat
       = List.length (emissions (trace (execute start evs))).
Proof.
  unfold execute.
  apply (@run_events_preserves records_inv records_inv_step).
  exists []. repeat split. constructor.
Qed.

(** *** Error lines *)

Lemma fatal_inv_stopping (p : Process) :
  stopRequested (recorder p) = true \/ alive p = false -> fatal_inv p.
Proof. intros H m _. exact H. Qed.

Lemma fatal_inv_grow (p p' : Process) (added : list Effect) :
  trace p' = trace p ++ added ->
  (forall m, ~ In (Stderr (sck_error m)) added) ->
  (stopRequested (recorder p) = true -> stopRequested (recorder p') = true) ->
  (alive p = false -> alive p' = false) ->
  fatal_inv p -> fatal_inv p'.
Proof.
  intros Tr NE S A H m Hin. rewrite Tr, in_app_iff in Hin.
  destruct Hin as [Hin|Hin]; [|now apply NE in Hin].
  destruct (H m Hin); auto.
Qed.

Lemma fatal_inv_step (p0 : Process) (ev : Event) :
  fatal_inv p0 -> fatal_inv (step p0 ev).
Proof.
  apply (@G_step fatal_inv (fun _ => True)); [..|destruct ev; exact I].
  - intros p _ _. apply fatal_inv_stopping. left.
    apply requestStop_stopRequested.
  - intros e p He. apply (@fatal_inv_grow p (emit e p) [e]); auto.
    intros m [Hin|[]]. subst e.
    destruct He as [He|[He|[He|He]]]; discriminate.
  - intros e p _. apply fatal_inv_stopping. now right.
  - intros e p _ _ _. apply fatal_inv_stopping. left.
    apply requestStop_stopRequested.
  - intros p _ _. apply (@fatal_inv_grow p _ [Append true]); auto.
    intros m [Hin|[]]. discriminate.
  - intros d p _ _ _. apply fatal_inv_stopping. left.
    apply requestStop_stopRequested.
  - intros p _ H. exact H.
  - intros w i p _ _ _.
    apply (@fatal_inv_grow p _ [InitializeWriter true]); auto.
    intros m [Hin|[]]. discriminate.
  - intros lvl t fs p A R _ _ H.
    set (p1 := with_recorder _ p).
    destruct (emitTelemetry_frame false t fs p1) as (_&_&_&S&_).
    destruct (emitTelemetry_written false t fs p1)
      as [[_ E]|(report & Hrep & Hl)]; [rewrite E; exact H|].
    assert (report = []) as ->.
    { destruct Hrep as [->|[_ Hr]]; [reflexivity|].
      change (hasReceivedAudioSample (recorder p1))
        with (hasReceivedAudioSample (recorder p)) in Hr. congruence. }
    destruct Hl as [(_&Ph&_)|(_&Ph&Tr)].
    + apply fatal_inv_stopping. right. unfold alive. now rewrite Ph.
    + apply (@fatal_inv_grow p1 _ _ Tr).
      * intros m [Hin|[Hin|[Hin|[Hin|[]]]]]; discriminate.
      * now rewrite S.
      * unfold alive. now rewrite Ph.
      * exact H.
  - intros t fs p _ _ _. apply fatal_inv_stopping. right.
    apply exitNormally_frame.
  - intros p Ph H. unfold waitUntilStopRequested.
    assert (A : alive p = true) by (unfold alive; now rewrite Ph).
    destruct (stopRequested (recorder p)) eqn:S.
    + apply fatal_inv_stopping. now left.
    + intros m Hin. destruct (H m Hin) as [K|K]; [cbn in *; congruence|].
      congruence.
  - intros p Ph H m Hin. destruct (H m Hin) as [K|K]; [now left|].
    unfold alive in K. rewrite Ph in K. discriminate.
Qed.

(** Every [sck_error] line is final. In every execution, once an error
    line has been written to [stderr] the recorder has been asked to stop
    (by itself or from outside) or the process has ended. *)
Theorem error_lines_are_final (start : Date) (evs : list Event) :
  forall m,
    In (Stderr (sck_error m)) (trace (execute start evs)) ->
    stopRequested (recorder (execute start evs)) = true \/
    alive (execute start evs) = false.
Proof.
  unfold execute.
  apply (@run_events_preserves fatal_inv fatal_inv_step).
  intros m [].
Qed.

Lemma error_lines_are_final_witness :
  stopRequested (recorder (execute 0%Q Scenario.rejected_twice)) = true \/
  alive (execute 0%Q Scenario.rejected_twice) = false.
Proof.
  apply (@error_lines_are_final 0%Q Scenario.rejected_twice
           (FailedToInitializeWriter (OwnError writerInputRejected))).
  vm_compute. auto.
Defined.

(** *** A clock that was set back *)

(** The final telemetry traps when the clock was set back. If the clock
    reads a microsecond or more before the start of the run when the
    shutdown sequence emits the final telemetry, the process stops capture
    and finalises the writer, then traps in [UInt64(_:)]: it writes no
    final record and does not exit with status 0. *)
Theorem clock_set_back_traps (start : Date) (evs : list Event)
        (env : ShutdownEnv) :
  phase (execute start evs) = Resumed ->
  stopCaptureError env = None ->
  (finalNow env <= start - (1 # 1000000))%Q ->
  phase (execute start (evs ++ [EvShutdown env])) = Trapped /\
  exists report,
    trace (execute start (evs ++ [EvShutdown env]))
    = trace (execute start evs)
        ++ StopCapture true :: finalization (execute start evs)
        ++ Emit (finalNow env) true :: report ++ [Trap].
Proof.
  intros Ph Ok Back. rewrite execute_snoc, (@step_shutdown _ env Ph).
  destruct (no_sample_inv_execute start evs) as (S & _).
  set (p := execute start evs) in *.
  unfold shutdown. rewrite Ok.
  set (q := finalizeWriter (emit (StopCapture true) p)).
  destruct (finalizeWriter_frame (emit (StopCapture true) p)) as (R & Ph' & T).
  fold q in R, Ph', T. cbn in R, Ph', T.
  change (finalization (emit (StopCapture true) p))
    with (finalization p) in T.
  assert (F : fits_UInt64 (elapsed_micros (recorder q) (finalNow env))
              = false).
  { unfold fits_UInt64, elapsed_micros. rewrite R, S.
    apply andb_false_iff. left. apply Qltb_ge. lra. }
  destruct (emitTelemetry_written true (finalNow env) (finalFileSize env) q)
    as [[E _]|(report & Hrep & [(_&Tp&Tr)|(F'&_)])].
  - discriminate.
  - unfold exitNormally, alive. rewrite Tp. split; [exact Tp|].
    exists report. rewrite Tr, T, <- !app_assoc. reflexivity.
  - congruence.
Qed.

Lemma clock_set_back_traps_witness :
  phase (execute 10%Q (stopped_at_once ++ [EvShutdown (shutdown_at 5%Q)]))
  = Trapped /\
  exists report,
    trace (execute 10%Q (stopped_at_once ++ [EvShutdown (shutdown_at 5%Q)]))
    = trace (execute 10%Q stopped_at_once)
        ++ StopCapture true :: finalization (execute 10%Q stopped_at_once)
        ++ Emit (finalNow (shutdown_at 5%Q)) true :: report ++ [Trap].
Proof.
  apply (@clock_set_back_traps 10%Q stopped_at_once (shutdown_at 5%Q)).
  - reflexivity.
  - reflexivity.
  - vm_compute. discriminate.
Defined.

End RecorderFacts.

(** ** The revision store *)

Section RevisionStoreFacts.
Import RevisionStore.

Lemma max_version_nonneg (vs : list Z) : 0 <= max_version vs.
Proof. induction vs as [|v vs IH]; simpl; lia. Qed.

Lemma max_version_app (vs ws : list Z) :
  max_version (vs ++ ws) = Z.max (max_version vs) (max_version ws).
Proof.
  induction vs as [|v vs IH]; simpl.
  - pose proof (max_version_nonneg ws). lia.
  - rewrite IH. lia.
Qed.

Lemma one_to_S (n : nat) : one_to (S n) = one_to n ++ [Z.of_nat (S n)].
Proof. unfold one_to. now rewrite seq_S, map_app. Qed.

Lemma max_version_one_to (n : nat) : max_version (one_to n) = Z.of_nat n.
Proof.
  induction n as [|n IH]; [reflexivity|].
  rewrite one_to_S, max_version_app, IH. simpl. lia.
Qed.

Lemma length_one_to (n : nat) : List.length (one_to n) = n.
Proof. unfold one_to. now rewrite length_map, length_seq. Qed.

(** The transcript versions of an entry after a creation. *)
Lemma transcript_versions_create (e e' : EntryId) (txt lang : string)
      (manual : bool) (st : Store) :
  transcript_versions (createTranscriptRevision e txt lang manual st) e'
  = transcript_versions st e'
    ++ (if String.eqb e e' then [currentTranscriptVersion st e + 1] else []).
Proof.
  unfold transcript_versions, createTranscriptRevision. cbn.
  rewrite filter_app, map_app. cbn. now destruct (String.eqb e e').
Qed.

Lemma currentTranscriptVersion_create (e e' : EntryId) (txt lang : string)
      (manual : bool) (st : Store) :
  currentTranscriptVersion (createTranscriptRevision e txt lang manual st) e'
  = if String.eqb e e' then currentTranscriptVersion st e + 1
    else currentTranscriptVersion st e'.
Proof.
  unfold currentTranscriptVersion at 1.
  rewrite transcript_versions_create, max_version_app.
  destruct (String.eqb e e') eqn:E.
  - apply String.eqb_eq in E. subst e'. simpl.
    fold (currentTranscriptVersion st e).
    pose proof (max_version_nonneg (transcript_versions st e)).
    unfold currentTranscriptVersion in *. lia.
  - simpl. fold (currentTranscriptVersion st e').
    pose proof (max_version_nonneg (transcript_versions st e')).
    unfold currentTranscriptVersion in *. lia.
Qed.

Lemma transcript_versions_purge (e e' : EntryId) (st : Store) :
  transcript_versions (purgeEntry e st) e'
  = if String.eqb e e' then [] else transcript_versions st e'.
Proof.
  unfold transcript_versions, purgeEntry. cbn.
  destruct (String.eqb e e') eqn:E.
  - apply String.eqb_eq in E. subst e'.
    induction (transcripts st) as [|t ts IH]; cbn; [reflexivity|].
    destruct (String.eqb (t_entryId t) e) eqn:E1; cbn; [exact IH|].
    now rewrite E1.
  - induction (transcripts st) as [|t ts IH]; cbn; [reflexivity|].
    destruct (String.eqb (t_entryId t) e) eqn:E1; cbn.
    + apply String.eqb_eq in E1. rewrite E1, E. exact IH.
    + destruct (String.eqb (t_entryId t) e'); cbn; now rewrite IH.
Qed.

Lemma stale_inv_create_transcript (e : EntryId) (txt lang : string)
      (manual : bool) (st : Store) :
  stale_inv st -> stale_inv (createTranscriptRevision e txt lang manual st).
Proof.
  intros H a Ha. rewrite currentTranscriptVersion_create.
  cbn in Ha. apply in_map_iff in Ha. destruct Ha as (a0 & <- & Ha0).
  unfold refreshStaleness.
  destruct (String.eqb (a_entryId a0) e) eqn:E; cbn.
  - apply String.eqb_eq in E. rewrite E, String.eqb_refl. reflexivity.
  - rewrite String.eqb_sym, E. now apply H.
Qed.

Lemma stale_inv_create_artifact (e : EntryId) (ty : App.ArtifactType)
      (txt : string) (manual : bool) (st : Store) :
  stale_inv st -> stale_inv (createArtifactRevision e ty txt manual st).
Proof.
  intros H a Ha. cbn in Ha. apply in_app_iff in Ha.
  change (currentTranscriptVersion
            (createArtifactRevision e ty txt manual st) (a_entryId a))
    with (currentTranscriptVersion st (a_entryId a)).
  destruct Ha as [Ha|[<-|[]]]; [now apply H|].
  cbn. symmetry. apply Z.ltb_irrefl.
Qed.

Lemma stale_inv_purge (e : EntryId) (st : Store) :
  stale_inv st -> stale_inv (purgeEntry e st).
Proof.
  intros H a Ha. cbn in Ha. apply filter_In in Ha. destruct Ha as [Ha Ne].
  apply negb_true_iff in Ne.
  unfold currentTranscriptVersion. rewrite transcript_versions_purge.
  rewrite String.eqb_sym, Ne. now apply H.
Qed.

Lemma stale_inv_apply (st : Store) (op : Op) :
  stale_inv st -> stale_inv (apply st op).
Proof.
  intros H. destruct op as [e [[txt lang]|]|e txt lang|e ty [txt|]|e ty txt|e];
    cbn; auto using stale_inv_create_transcript, stale_inv_create_artifact,
         stale_inv_purge.
  destruct (currentTranscriptVersion st e =? 0);
    auto using stale_inv_create_artifact.
Qed.

Lemma run_snoc (ops : list Op) (op : Op) :
  run (ops ++ [op]) = apply (run ops) op.
Proof. unfold run. now rewrite fold_left_app. Qed.

Lemma stale_inv_run (ops : list Op) : stale_inv (run ops).
Proof.
  induction ops as [|op ops IH] using rev_ind.
  - intros a [].
  - rewrite run_snoc. now apply stale_inv_apply.
Qed.

(** C1. In every state the store reaches, the [isStale] flag of each
    artifact revision equals "the current transcript version of its entry
    exceeds its source transcript version". In particular, right after a
    transcript revision with version [v] is created (by transcription or by
    a manual edit), the stored flag of every artifact revision of that entry
    is [true] when its source version is below [v] and [false] when it
    equals [v]. *)
Theorem staleness_persisted (ops : list Op) :
  (forall a, In a (artifacts (run ops)) ->
             a_isStale a
             = (a_sourceTranscriptVersion a
                <? currentTranscriptVersion (run ops) (a_entryId a))) /\
  (forall e txt lang manual a,
      In a (artifacts (createTranscriptRevision e txt lang manual (run ops))) ->
      a_entryId a = e ->
      currentTranscriptVersion
        (createTranscriptRevision e txt lang manual (run ops)) e
      = currentTranscriptVersion (run ops) e + 1 /\
      (a_sourceTranscriptVersion a < currentTranscriptVersion (run ops) e + 1
       -> a_isStale a = true) /\
      (a_sourceTranscriptVersion a = currentTranscriptVersion (run ops) e + 1
       -> a_isStale a = false)).
Proof.
  split; [apply stale_inv_run|].
  intros e txt lang manual a Ha Ea.
  pose proof (stale_inv_create_transcript e txt lang manual
                (stale_inv_run ops) a Ha) as Hs.
  rewrite Ea in Hs.
  rewrite currentTranscriptVersion_create, String.eqb_refl in *.
  split; [reflexivity|]. rewrite Hs. split; intros Hv.
  - now apply Z.ltb_lt.
  - apply Z.ltb_ge. lia.
Qed.

(** *** Version allocation *)

Lemma one_to_next (vs : list Z) :
  vs = one_to (List.length vs) ->
  vs ++ [max_version vs + 1]
  = one_to (List.length (vs ++ [max_version vs + 1])).
Proof.
  intros H. rewrite length_app. cbn [List.length].
  rewrite Nat.add_1_r, one_to_S.
  rewrite H at 2. rewrite max_version_one_to.
  rewrite <- H. f_equal. f_equal. lia.
Qed.

Lemma artifact_versions_create (e e' : EntryId) (ty ty' : App.ArtifactType)
      (txt : string) (manual : bool) (st : Store) :
  artifact_versions (createArtifactRevision e ty txt manual st) e' ty'
  = artifact_versions st e' ty'
    ++ (if String.eqb e e' && App.ArtifactType_eqb ty ty'
        then [currentArtifactVersion st e ty + 1] else []).
Proof.
  unfold artifact_versions, createArtifactRevision. cbn.
  rewrite filter_app, map_app. cbn.
  now destruct (String.eqb e e' && App.ArtifactType_eqb ty ty').
Qed.

Lemma artifact_versions_refresh (e e' : EntryId) (v : Z)
      (ty : App.ArtifactType) (arts : list ArtifactRevision) :
  map a_version
      (filter (fun a => String.eqb (a_entryId a) e'
                        && App.ArtifactType_eqb (a_artifactType a) ty)
              (map (refreshStaleness e v) arts))
  = map a_version
        (filter (fun a => String.eqb (a_entryId a) e'
                          && App.ArtifactType_eqb (a_artifactType a) ty)
                arts).
Proof.
  induction arts as [|a arts IH]; cbn; [reflexivity|].
  assert (E : a_entryId (refreshStaleness e v a) = a_entryId a
              /\ a_artifactType (refreshStaleness e v a) = a_artifactType a
              /\ a_version (refreshStaleness e v a) = a_version a).
  { unfold refreshStaleness. destruct (String.eqb (a_entryId a) e); auto. }
  destruct E as (E1 & E2 & E3). rewrite E1, E2.
  destruct (String.eqb (a_entryId a) e'
            && App.ArtifactType_eqb (a_artifactType a) ty); cbn;
    now rewrite ?E3, IH.
Qed.

Lemma artifact_versions_purge (e e' : EntryId) (ty : App.ArtifactType)
      (st : Store) :
  artifact_versions (purgeEntry e st) e' ty
  = if String.eqb e e' then [] else artifact_versions st e' ty.
Proof.
  unfold artifact_versions, purgeEntry. cbn.
  destruct (String.eqb e e') eqn:E.
  - apply String.eqb_eq in E. subst e'.
    induction (artifacts st) as [|a arts IH]; cbn; [reflexivity|].
    destruct (String.eqb (a_entryId a) e) eqn:E1; cbn; [exact IH|].
    now rewrite E1.
  - induction (artifacts st) as [|a arts IH]; cbn; [reflexivity|].
    destruct (String.eqb (a_entryId a) e) eqn:E1; cbn.
    + apply String.eqb_eq in E1. rewrite E1, E. exact IH.
    + destruct (String.eqb (a_entryId a) e'
                && App.ArtifactType_eqb (a_artifactType a) ty); cbn;
        now rewrite IH.
Qed.

Lemma versions_inv_create_transcript (e : EntryId) (txt lang : string)
      (manual : bool) (st : Store) :
  versions_inv st ->
  versions_inv (createTranscriptRevision e txt lang manual st).
Proof.
  intros [HT HA]. split.
  - intros e'. rewrite transcript_versions_create.
    destruct (String.eqb e e') eqn:E.
    + apply String.eqb_eq in E. subst e'. apply one_to_next, HT.
    + rewrite app_nil_r. apply HT.
  - intros e' ty. unfold artifact_versions at 1 2.
    cbn [artifacts createTranscriptRevision].
    rewrite artifact_versions_refresh. apply HA.
Qed.

Lemma versions_inv_create_artifact (e : EntryId) (ty : App.ArtifactType)
      (txt : string) (manual : bool) (st : Store) :
  versions_inv st -> versions_inv (createArtifactRevision e ty txt manual st).
Proof.
  intros [HT HA]. split.
  - intros e'. apply HT.
  - intros e' ty'. rewrite artifact_versions_create.
    destruct (String.eqb e e' && App.ArtifactType_eqb ty ty') eqn:E.
    + apply andb_true_iff in E. destruct E as [E1 E2].
      apply String.eqb_eq in E1. apply ArtifactType_eqb_eq in E2.
      subst e' ty'. apply one_to_next, HA.
    + rewrite app_nil_r. apply HA.
Qed.

Lemma versions_inv_purge (e : EntryId) (st : Store) :
  versions_inv st -> versions_inv (purgeEntry e st).
Proof.
  intros [HT HA]. split.
  - intros e'. rewrite transcript_versions_purge.
    destruct (String.eqb e e'); [reflexivity|apply HT].
  - intros e' ty. rewrite artifact_versions_purge.
    destruct (String.eqb e e'); [reflexivity|apply HA].
Qed.

Lemma versions_inv_run (ops : list Op) : versions_inv (run ops).
Proof.
  induction ops as [|op ops IH] using rev_ind.
  - split; reflexivity.
  - rewrite run_snoc.
    destruct op as [e [[txt lang]|]|e txt lang|e ty [txt|]|e ty txt|e];
      cbn; auto using versions_inv_create_transcript,
             versions_inv_create_artifact, versions_inv_purge.
    destruct (currentTranscriptVersion (run ops) e =? 0);
      auto using versions_inv_create_artifact.
Qed.

(** C2. In every state the store reaches, the transcript versions of each
    entry, in creation order, are exactly [1, 2, ..., n], and so are the
    artifact versions of each (entry, artifact type) pair; each creation
    appends the version [priorMax + 1], where [priorMax] is the number of
    revisions already there. *)
Theorem versions_gap_free (ops : list Op) :
  (forall e,
      transcript_versions (run ops) e
      = one_to (List.length (transcript_versions (run ops) e))) /\
  (forall e ty,
      artifact_versions (run ops) e ty
      = one_to (List.length (artifact_versions (run ops) e ty))) /\
  (forall e txt lang manual,
      transcript_versions
        (createTranscriptRevision e txt lang manual (run ops)) e
      = transcript_versions (run ops) e
        ++ [currentTranscriptVersion (run ops) e + 1] /\
      currentTranscriptVersion (run ops) e
      = Z.of_nat (List.length (transcript_versions (run ops) e))) /\
  (forall e ty txt manual,
      artifact_versions
        (createArtifactRevision e ty txt manual (run ops)) e ty
      = artifact_versions (run ops) e ty
        ++ [currentArtifactVersion (run ops) e ty + 1] /\
      currentArtifactVersion (run ops) e ty
      = Z.of_nat (List.length (artifact_versions (run ops) e ty))).
Proof.
  destruct (versions_inv_run ops) as [HT HA].
  split; [exact HT|split; [exact HA|split]].
  - intros e txt lang manual. split.
    + now rewrite transcript_versions_create, String.eqb_refl.
    + unfold currentTranscriptVersion. rewrite (HT e) at 1.
      apply max_version_one_to.
  - intros e ty txt manual. split.
    + rewrite artifact_versions_create, String.eqb_refl.
      now destruct ty.
    + unfold currentArtifactVersion. rewrite (HA e ty) at 1.
      apply max_version_one_to.
Qed.

(** Scenario C of the specification: the summary generated from
    transcript 1 is fresh, and is stale once transcript 2 exists. *)
Example scenario_C :
  artifact_rows (run transcribed_and_summarised) = [(1, 1, false)] /\
  artifact_rows (run then_edited) = [(1, 1, true)].
Proof. split; reflexivity. Qed.

End RevisionStoreFacts.

(** ** Launching the adapter *)

Section LaunchFacts.

Import Launch.

Let output : string := "--output"%string.

Lemma firstIndex_split (x : string) (args : list string) (index : nat) :
  firstIndex x args = Some index <->
  exists pre post,
    args = pre ++ x :: post /\ ~ In x pre /\ List.length pre = index.
Proof.
  revert index. induction args as [|a rest IH]; intros index; simpl.
  - split; [discriminate|]. intros (pre & post & E & _).
    destruct pre; discriminate.
  - destruct (String.eqb a x) eqn:Eq.
    + apply String.eqb_eq in Eq. subst a. split.
      * intros [= <-]. exists [], rest. simpl. auto.
      * intros (pre & post & E & Hn & Hl).
        destruct pre as [|b pre]; [simpl in Hl; now subst|].
        injection E as <- _. exfalso. apply Hn. now left.
    + apply String.eqb_neq in Eq. split.
      * destruct (firstIndex x rest) as [i|] eqn:F; [|discriminate].
        intros [= <-].
        destruct (proj1 (IH i) eq_refl) as (pre & post & -> & Hn & Hl).
        exists (a :: pre), post. simpl. repeat split; [|now rewrite Hl].
        intros [H|H]; [now apply Eq|now apply Hn].
      * intros (pre & post & E & Hn & Hl).
        destruct pre as [|b pre]; [injection E as -> _; now contradiction Eq|].
        injection E as <- ->. simpl in Hl. subst index.
        assert (F : firstIndex x (pre ++ x :: post)
                    = Some (List.length pre)).
        { apply IH. exists pre, post. repeat split.
          intros H. apply Hn. now right. }
        now rewrite F.
Qed.

Lemma firstIndex_None (x : string) (args : list string) :
  firstIndex x args = None <-> ~ In x args.
Proof.
  induction args as [|a rest IH]; simpl; [tauto|].
  destruct (String.eqb a x) eqn:Eq.
  - apply String.eqb_eq in Eq. split; [discriminate|]. intros H.
    exfalso. apply H. now left.
  - apply String.eqb_neq in Eq.
    destruct (firstIndex x rest); simpl.
    + split; [discriminate|]. intros H.
      assert (K : Some n = None) by (apply IH; intros K; apply H; now right).
      discriminate.
    + split; [|reflexivity]. intros _ [H|H]; [now apply Eq|].
      now apply (proj1 IH).
Qed.

Lemma first_split_unique (x : string) (pre pre' post post' : list string) :
  pre ++ x :: post = pre' ++ x :: post' ->
  ~ In x pre -> ~ In x pre' ->
  pre = pre' /\ post = post'.
Proof.
  revert pre'. induction pre as [|a pre IH]; intros [|b pre'] E H H'.
  - injection E as <-. auto.
  - injection E as <- _. exfalso. apply H'. now left.
  - injection E as -> _. exfalso. apply H. now left.
  - injection E as <- E.
    destruct (IH pre' E) as [<- <-]; auto.
    + intros K. apply H. now right.
    + intros K. apply H'. now right.
Qed.

(** [parseOutputPath] returns the argument that follows the first
    ["--output"], whatever it is, and throws [missingOutputPath] (never
    anything else) exactly when no argument is ["--output"] or the first one
    that is comes last. *)
Theorem parseOutputPath_spec (args : list string) :
  (forall path,
      parseOutputPath args = inr path <->
      exists pre post,
        args = pre ++ output :: path :: post /\ ~ In output pre) /\
  (forall e, parseOutputPath args = inl e -> e = missingOutputPath) /\
  (parseOutputPath args = inl missingOutputPath <->
   ~ In output args \/
   exists pre, args = pre ++ [output] /\ ~ In output pre).
Proof.
  unfold parseOutputPath. fold output.
  destruct (firstIndex output args) as [index|] eqn:F.
  - apply firstIndex_split in F. destruct F as (pre & post & -> & Hn & <-).
    rewrite length_app. simpl List.length.
    rewrite app_nth2 by lia.
    replace (List.length pre + 1 - List.length pre)%nat with 1%nat by lia.
    destruct post as [|p post]; simpl.
    + replace (List.length pre + 1 <? List.length pre + 1)%nat with false
        by (symmetry; apply Nat.ltb_ge; lia).
      split; [|split].
      * intros path. split; [discriminate|].
        intros (pre' & post' & E & Hn').
        apply first_split_unique in E; auto. destruct E as [_ E].
        discriminate.
      * now intros e [= <-].
      * split; [|reflexivity]. intros _. right. now exists pre.
    + replace (List.length pre + 1
               <? List.length pre + S (S (List.length post)))%nat
        with true by (symmetry; apply Nat.ltb_lt; lia).
      split; [|split].
      * intros path. split.
        -- intros [= <-]. now exists pre, post.
        -- intros (pre' & post' & E & Hn').
           apply first_split_unique in E; auto. destruct E as [_ E].
           now injection E as <- _.
      * discriminate.
      * split; [discriminate|]. intros [H|(pre' & E & Hn')].
        -- exfalso. apply H. rewrite in_app_iff. right. now left.
        -- apply first_split_unique in E; auto. destruct E as [_ E].
           discriminate.
  - apply firstIndex_None in F. split; [|split].
    + intros path. split; [discriminate|].
      intros (pre & post & -> & _). exfalso. apply F.
      rewrite in_app_iff. right. now left.
    + now intros e [= <-].
    + split; [auto|reflexivity].
Qed.

Lemma run_events_dead (p : Process) (evs : list Event) :
  alive p = false -> run_events p evs = p.
Proof.
  intros A. unfold run_events. induction evs as [|ev evs IH]; simpl;
    [reflexivity|].
  unfold step at 2. rewrite A. exact IH.
Qed.

(** A launch that fails says so once and does nothing else. When the
    arguments do not parse, or a step of [run] before [startCapture]
    throws, the process writes the single line [sck_error=<error>] and
    exits with status 1: it writes no telemetry, and whatever is delivered
    to it afterwards has no effect. The error is the first one in program
    order. *)
Theorem launch_failure_report (args : list string) (env : SetupEnv)
        (evs : list Event) (e : ThrownError) :
  launch_error args env = Some e ->
  trace (main args env evs) = [Stderr (sck_error (Uncaught e)); Exit 1] /\
  phase (main args env evs) = Exited 1 /\
  stdinHandler (main args env evs) = false.
Proof.
  intros H. unfold main. rewrite H, run_events_dead by reflexivity.
  repeat split.
Qed.

Lemma launch_failure_report_witness :
  trace (main ["recorder"%string; "--output"%string] healthy
              Scenario.late_first_sample)
  = [Stderr (sck_error (Uncaught (OwnError missingOutputPath))); Exit 1] /\
  phase (main ["recorder"%string; "--output"%string] healthy
              Scenario.late_first_sample) = Exited 1 /\
  stdinHandler (main ["recorder"%string; "--output"%string] healthy
                     Scenario.late_first_sample) = false.
Proof.
  apply (@launch_failure_report ["recorder"%string; "--output"%string]
           healthy Scenario.late_first_sample (OwnError missingOutputPath)).
  reflexivity.
Defined.

(** Which error a launch reports: the first failing step, in the order of
    the source. *)
Lemma launch_error_order (args : list string) (env : SetupEnv) :
  launch_error args env
  = match parseOutputPath args with
    | inl e => Some (OwnError e)
    | inr _ =>
        if negb (macOS13 env) then Some (OwnError unsupportedMacOS)
        else match createDirectory env with
        | Some e => Some e
        | None =>
        match (if fileExists env then removeItem env else None) with
        | Some e => Some e
        | None =>
        match shareableContent env with
        | inl e => Some e
        | inr [] => Some (OwnError noDisplayFound)
        | inr (_ :: _) => addStreamOutput env
        end end end
    end.
Proof.
  unfold launch_error, run_setup.
  destruct (parseOutputPath args); [reflexivity|].
  destruct env as [av cd fe ri sc aso st]; cbn.
  destruct av; [|reflexivity]. destruct cd; [reflexivity|].
  destruct fe; [destruct ri; [reflexivity|]|];
    destruct sc as [e|[|d ds]]; try reflexivity;
    destruct aso; reflexivity.
Qed.

(** What the launch has done to the system when it stops or reaches
    [startCapture], in closed form. *)
Lemma run_setup_effects (env : SetupEnv) :
  fst (run_setup env)
  = if negb (macOS13 env) then []
    else match createDirectory env with
    | Some _ => []
    | None =>
        CreatedDirectory ::
        match (if fileExists env then removeItem env else None) with
        | Some _ => []
        | None =>
            (if fileExists env then [RemovedOutputFile] else [])
            ++ match shareableContent env with
               | inl _ => []
               | inr displays =>
                   QueriedShareableContent ::
                   match displays with
                   | [] => []
                   | display :: _ =>
                       match addStreamOutput env with
                       | Some _ => []
                       | None => [AddedStreamOutput display; MonitoringStdin]
                       end
                   end
               end
        end
    end.
Proof.
  unfold run_setup.
  destruct env as [av cd fe ri sc aso st]; cbn.
  destruct av; [|reflexivity]. destruct cd; [reflexivity|].
  destruct fe; [destruct ri; [reflexivity|]|];
    destruct sc as [e|[|d ds]]; try reflexivity;
    destruct aso; reflexivity.
Qed.

(** The file of an earlier run is deleted before the adapter knows
    whether it can record. A file found at the output path is removed
    exactly when the arguments parse, the system is macOS 13 or later, the
    directory can be created and the removal itself succeeds: nothing that
    happens later in the launch (no permission to list the shareable
    content, no display, a stream that rejects the output) is looked at
    first, so a launch that fails afterwards has already removed it. *)
Theorem earlier_output_removed (args : list string) (env : SetupEnv) :
  (In RemovedOutputFile (launch_effects args env) <->
   (exists path, parseOutputPath args = inr path) /\
   macOS13 env = true /\ createDirectory env = None /\
   fileExists env = true /\ removeItem env = None) /\
  (forall e,
      In RemovedOutputFile (launch_effects args env) ->
      (shareableContent env = inl e \/
       shareableContent env = inr [] /\ e = OwnError noDisplayFound \/
       (exists d ds, shareableContent env = inr (d :: ds)) /\
       addStreamOutput env = Some e) ->
      launch_error args env = Some e).
Proof.
  assert (Iff : In RemovedOutputFile (launch_effects args env) <->
                (exists path, parseOutputPath args = inr path) /\
                macOS13 env = true /\ createDirectory env = None /\
                fileExists env = true /\ removeItem env = None).
  { unfold launch_effects.
    destruct (parseOutputPath args) as [err|path].
    { split; [intros []|]. intros ((p & K) & _). discriminate. }
    rewrite run_setup_effects.
    destruct (macOS13 env); cbn [negb];
      [|split; [intros []|intros (_&K&_); discriminate]].
    destruct (createDirectory env);
      [split; [intros []|intros (_&_&K&_); discriminate]|].
    destruct (fileExists env).
    - destruct (removeItem env).
      + split; [intros [K|[]]; discriminate|].
        intros (_&_&_&_&K). discriminate.
      + split; [intros _; repeat split; eauto|]. intros _.
        right. now left.
    - split; [|intros (_&_&_&K&_); discriminate].
      intros [K|K]; [discriminate|]. cbn in K.
      destruct (shareableContent env) as [e|[|d ds]]; cbn in K;
        try (destruct K as [K|[]]; discriminate); try contradiction.
      destruct (addStreamOutput env); cbn in K;
        intuition discriminate. }
  split; [exact Iff|].
  intros e Hin Hlater. apply Iff in Hin.
  destruct Hin as ((path & P) & A & C & F & R).
  rewrite launch_error_order, P, A, C, F, R. cbn.
  destruct Hlater as [->|[[-> ->]|[(d & ds & ->) ->]]]; reflexivity.
Qed.

Lemma earlier_output_removed_witness :
  launch_error ["recorder"%string; "--output"%string; "call.wav"%string]
    {| macOS13 := true; createDirectory := None; fileExists := true;
       removeItem := None; shareableContent := inl (SystemError (-3801));
       addStreamOutput := None; startNow := 0%Q |}
  = Some (SystemError (-3801)).
Proof.
  apply (proj2 (earlier_output_removed
                  ["recorder"%string; "--output"%string; "call.wav"%string]
                  {| macOS13 := true; createDirectory := None;
                     fileExists := true; removeItem := None;
                     shareableContent := inl (SystemError (-3801));
                     addStreamOutput := None; startNow := 0%Q |})).
  - vm_compute. auto.
  - left. reflexivity.
Defined.

End LaunchFacts.

(** ** [App.tsx]: recording sources and devices *)

Section SourceFacts.

Import Ui.

Lemma sourceKey_sourceFromDevice (device : RecordingDevice.t) :
  sourceKey (sourceFromDevice device) = deviceKey device.
Proof. reflexivity. Qed.

Lemma findDevice_some (key : string) (devices : list RecordingDevice.t)
      (device : RecordingDevice.t) :
  findDevice key devices = Some device ->
  In device devices /\ deviceKey device = key.
Proof.
  unfold findDevice. intros H. apply find_some in H.
  destruct H as [Hin Hk]. now apply String.eqb_eq in Hk.
Qed.

(** The two hints about loopback devices never show together. The
    sources can all be loopback devices only when a loopback device has
    been detected; so "... appears silent", shown for loopback-only
    sources, and "No loopback/speaker device detected yet" exclude each
    other. *)
Theorem loopback_hints_exclusive (devices : list RecordingDevice.t)
        (sources : list RecordingSource.t) :
  (selectedLoopbackOnly devices sources = true ->
   hasLoopbackDevice devices = true) /\
  (forall levelIsLow,
      silentHint devices sources levelIsLow && noLoopbackHint devices
      = false).
Proof.
  assert (H : selectedLoopbackOnly devices sources = true ->
              hasLoopbackDevice devices = true).
  { unfold selectedLoopbackOnly, hasLoopbackDevice.
    destruct sources as [|source rest]; [discriminate|].
    cbn [forallb]. intros K. apply andb_true_iff in K. destruct K as [K _].
    destruct (findDevice (sourceKey source) devices) as [device|] eqn:F;
      [|discriminate].
    apply findDevice_some in F. destruct F as [Hin _].
    apply existsb_exists. eauto. }
  split; [exact H|].
  intros low. unfold silentHint, noLoopbackHint.
  destruct (selectedLoopbackOnly devices sources) eqn:S; [|reflexivity].
  rewrite (H eq_refl). cbn. now rewrite andb_false_r.
Qed.

Lemma Forall_firstn (A : Type) (P : A -> Prop) (n : nat) (l : list A) :
  Forall P l -> Forall P (firstn n l).
Proof.
  intros H. revert n. induction H as [|a l Ha _ IH]; intros [|n]; simpl;
    auto.
Qed.

Lemma Forall_skipn (A : Type) (P : A -> Prop) (n : nat) (l : list A) :
  Forall P l -> Forall P (skipn n l).
Proof.
  intros H. revert n. induction H as [|a l Ha Hl IH]; intros [|n]; simpl;
    auto.
Qed.

Lemma length_mapi_from (A B : Type) (f : A -> nat -> B) (l : list A) :
  forall index, List.length (mapi_from f index l) = List.length l.
Proof.
  induction l as [|a l IH]; intros index; simpl; [reflexivity|].
  now rewrite IH.
Qed.

Lemma Forall_mapi_from (A B : Type) (f : A -> nat -> B) (P : B -> Prop)
      (l : list A) :
  (forall a index, P (f a index)) ->
  forall index, Forall P (mapi_from f index l).
Proof.
  intros H. induction l as [|a l IH]; intros index; simpl; auto.
Qed.

Lemma addSourceCandidate_In (st : Recording) (c : RecordingDevice.t) :
  addSourceCandidate st = Some c -> In c (recordingDevices st).
Proof.
  unfold addSourceCandidate.
  destruct (find (fun device => RecordingDevice.is_loopback device && _) _)
    as [d|] eqn:F1.
  - intros [= <-]. now apply find_some in F1.
  - destruct (find (fun device => negb _) _) as [d|] eqn:F2.
    + intros [= <-]. now apply find_some in F2.
    + destruct (recordingDevices st); [discriminate|].
      intros [= <-]. now left.
Qed.

Section WithLowerCase.

Variable toLowerCase : string -> string.

Lemma sources_inv_step (st : Recording) (ev : SourceEvent) :
  sources_inv st -> sources_inv (source_step toLowerCase st ev).
Proof.
  intros [Hne Hfrom]. destruct ev as [devices|busy index value|busy index|busy];
    unfold source_step.
  - unfold loadRecordingDevices.
    destruct devices as [|device0 devices']; [split; [exact Hne|]|].
    { intros K. now contradiction K. }
    set (devices := device0 :: devices') in *.
    set (preferred := match find _ devices with
                      | Some device => device
                      | None => device0
                      end).
    assert (Hp : In preferred devices).
    { subst preferred. destruct (find _ devices) eqn:F.
      - now apply find_some in F.
      - now left. }
    cbn [recordingDevices sources].
    destruct (sources st) as [|s rest] eqn:E; [now contradiction Hne|].
    split; cbn [recordingDevices sources].
    + intros K. apply (f_equal (@List.length _)) in K.
      rewrite length_mapi_from in K. discriminate.
    + intros _. apply Forall_mapi_from. intros source index.
      destruct (findDevice (sourceKey source) devices) as [exact|] eqn:F.
      * apply findDevice_some in F. exists exact. tauto.
      * destruct (includes _ _); [now exists preferred|].
        eexists. split; [|reflexivity].
        apply nth_In. subst devices. simpl List.length. lia.
  - destruct (negb _ && _) eqn:G; [|now split].
    apply andb_true_iff in G. destruct G as [G1 G2].
    unfold selectDevice.
    destruct (findDevice value (recordingDevices st)) as [selected|] eqn:F;
      [|now split].
    apply findDevice_some in F. destruct F as [Hin _].
    split; cbn [recordingDevices sources].
    + intros K. apply app_eq_nil in K. destruct K as [_ K]. discriminate.
    + intros Hd. specialize (Hfrom Hd). apply Forall_app. split.
      * now apply Forall_firstn.
      * constructor; [now exists selected|now apply Forall_skipn].
  - destruct (negb _ && _) eqn:G; [|now split].
    apply andb_true_iff in G. destruct G as [G1 G2].
    apply negb_true_iff, orb_false_iff in G1. destruct G1 as [_ G1].
    apply Nat.leb_gt in G1. apply Nat.ltb_lt in G2.
    unfold removeSource. split; cbn [recordingDevices sources].
    + intros K. apply (f_equal (@List.length _)) in K.
      rewrite length_app, length_firstn, length_skipn in K.
      simpl in K. lia.
    + intros Hd. specialize (Hfrom Hd). apply Forall_app. split.
      * now apply Forall_firstn.
      * now apply Forall_skipn.
  - destruct (negb _) eqn:G; [|now split].
    unfold addSource.
    destruct (addSourceCandidate st) as [c|] eqn:C; [|now split].
    apply addSourceCandidate_In in C.
    split; cbn [recordingDevices sources].
    + intros K. apply app_eq_nil in K. destruct K as [_ K]. discriminate.
    + intros Hd. specialize (Hfrom Hd). apply Forall_app. split; [exact Hfrom|].
      constructor; [now exists c|constructor].
Qed.

(** There is always a recording source, and it is a detected device.
    Whatever devices are loaded and whatever the user selects, removes and
    adds, the list of sources is never empty, and once devices have been
    detected every source is built from one of them (same name, format
    and input). *)
Theorem sources_stay_valid (evs : list SourceEvent) :
  sources (source_run toLowerCase evs) <> [] /\
  (recordingDevices (source_run toLowerCase evs) <> [] ->
   Forall (from_devices (recordingDevices (source_run toLowerCase evs)))
          (sources (source_run toLowerCase evs))).
Proof.
  unfold source_run.
  assert (H : forall st, sources_inv st ->
                         sources_inv (fold_left (source_step toLowerCase)
                                                evs st)).
  { induction evs as [|ev evs' IH]; intros st Hst; simpl; [exact Hst|].
    apply IH, sources_inv_step, Hst. }
  apply H. split; [discriminate|]. intros K. now contradiction K.
Qed.

End WithLowerCase.

(** "+ Add Source" does not repeat a device while an unused one is
    left. If some detected device is used by none of the sources, the
    source that is added is such a device (so its key is new), and it is
    a loopback device whenever an unused loopback device exists. *)
Theorem addSource_prefers_unused (st : Recording) (d : RecordingDevice.t) :
  In d (recordingDevices st) -> unused st d ->
  exists c,
    sources (addSource st) = sources st ++ [sourceFromDevice c] /\
    In c (recordingDevices st) /\ unused st c /\
    ~ In (sourceKey (sourceFromDevice c)) (map sourceKey (sources st)) /\
    ((exists l, In l (recordingDevices st) /\ unused st l /\
                RecordingDevice.is_loopback l = true) ->
     RecordingDevice.is_loopback c = true).
Proof.
  intros Hin Hun. unfold addSource, addSourceCandidate, unused in *.
  set (used := map sourceKey (sources st)) in *.
  set (free := fun device =>
                 negb (existsb (String.eqb (deviceKey device)) used)).
  assert (Free : forall x, free x = true <-> ~ In (deviceKey x) used).
  { intros x. unfold free. rewrite negb_true_iff. split.
    - intros E K. assert (T : existsb (String.eqb (deviceKey x)) used = true).
      { apply existsb_exists. exists (deviceKey x). split; [exact K|].
        apply String.eqb_refl. }
      congruence.
    - intros K. destruct (existsb _ used) eqn:E; [|reflexivity].
      apply existsb_exists in E. destruct E as (k & Hk & Ek).
      apply String.eqb_eq in Ek. subst k. contradiction. }
  destruct (find (fun device => RecordingDevice.is_loopback device && _) _)
    as [c|] eqn:F1.
  - apply find_some in F1. destruct F1 as [Hc Hb].
    apply andb_true_iff in Hb. destruct Hb as [Hl Hf].
    apply (Free c) in Hf. exists c. repeat split; auto.
  - destruct (find free (recordingDevices st)) as [c|] eqn:F2.
    + apply find_some in F2. destruct F2 as [Hc Hf]. apply (Free c) in Hf.
      exists c. repeat split; auto.
      intros (l & Hl & Hlu & Hll). exfalso.
      pose proof (find_none _ _ F1 l Hl) as N. cbn in N.
      rewrite Hll in N. apply Free in Hlu. unfold free in Hlu.
      rewrite Hlu in N. discriminate.
    + exfalso. pose proof (find_none _ _ F2 d Hin) as N.
      apply Free in Hun. congruence.
Qed.

Lemma addSource_prefers_unused_witness :
  exists c,
    sources (addSource
               {| recordingDevices := [microphone; blackhole];
                  sources := [sourceFromDevice microphone] |})
    = [sourceFromDevice microphone] ++ [sourceFromDevice c] /\
    In c [microphone; blackhole] /\
    unused {| recordingDevices := [microphone; blackhole];
              sources := [sourceFromDevice microphone] |} c /\
    ~ In (sourceKey (sourceFromDevice c))
         (map sourceKey [sourceFromDevice microphone]) /\
    ((exists l, In l [microphone; blackhole] /\
                unused {| recordingDevices := [microphone; blackhole];
                          sources := [sourceFromDevice microphone] |} l /\
                RecordingDevice.is_loopback l = true) ->
     RecordingDevice.is_loopback c = true).
Proof.
  apply (@addSource_prefers_unused
           {| recordingDevices := [microphone; blackhole];
              sources := [sourceFromDevice microphone] |} blackhole).
  - right. now left.
  - unfold unused. cbn. intros [K|[]]. discriminate.
Defined.

End SourceFacts.

(** ** [Array.prototype.sort] with a total comparison *)

Section JsSortFacts.

Import App.

Variable A : Type.
Variable cmp : A -> A -> Z.

Let ordered (x y : A) : Prop := cmp x y <= 0.

(** A sorted array is left as it is. *)
Lemma js_sort_of_sorted (l : list A) :
  Sorted ordered l -> js_sort cmp l = l.
Proof.
  induction 1 as [|x l Hl IH Hd]; simpl; [reflexivity|].
  rewrite IH. destruct Hd as [|y l' Hxy]; simpl; [reflexivity|].
  unfold ordered in Hxy. apply Z.leb_le in Hxy. now rewrite Hxy.
Qed.

Hypothesis cmp_total : forall x y, cmp x y <= 0 \/ cmp y x <= 0.

Lemma HdRel_sort_insert (x y : A) (l : list A) :
  HdRel ordered y l -> ordered y x -> HdRel ordered y (sort_insert cmp x l).
Proof.
  intros Hd Hyx. destruct l as [|z l]; simpl; [now constructor|].
  destruct (cmp x z <=? 0); constructor; [exact Hyx|].
  now inversion Hd.
Qed.

Lemma sort_insert_sorted (x : A) (l : list A) :
  Sorted ordered l -> Sorted ordered (sort_insert cmp x l).
Proof.
  induction 1 as [|y l Hl IH Hd]; simpl; [repeat constructor|].
  destruct (cmp x y <=? 0) eqn:C.
  - apply Z.leb_le in C. repeat constructor; assumption.
  - apply Z.leb_gt in C. constructor; [exact IH|].
    apply HdRel_sort_insert; [exact Hd|].
    unfold ordered. destruct (cmp_total x y); lia.
Qed.

Lemma js_sort_sorted (l : list A) : Sorted ordered (js_sort cmp l).
Proof.
  induction l as [|x l IH]; simpl; [constructor|].
  now apply sort_insert_sorted.
Qed.

Lemma js_sort_idempotent (l : list A) :
  js_sort cmp (js_sort cmp l) = js_sort cmp l.
Proof. apply js_sort_of_sorted, js_sort_sorted. Qed.

End JsSortFacts.

(** ** [App.tsx]: the folder tree *)

Section TreeFacts.

Import Ui.

Lemma key_eqb_eq (a b : option string) : key_eqb a b = true <-> a = b.
Proof.
  destruct a as [x|], b as [y|]; simpl; split; try congruence.
  - intros H. apply String.eqb_eq in H. congruence.
  - intros [= ->]. apply String.eqb_refl.
Qed.

Lemma key_eqb_refl (a : option string) : key_eqb a a = true.
Proof. now apply key_eqb_eq. Qed.

Lemma map_get_set (k k' : option string) (v : list Folder.t)
      (m : FolderMap) :
  map_get k (map_set k' v m)
  = if key_eqb k' k then Some v else map_get k m.
Proof.
  induction m as [|[k0 v0] rest IH]; simpl.
  - reflexivity.
  - destruct (key_eqb k0 k') eqn:E0; simpl.
    + apply key_eqb_eq in E0. subst k0.
      destruct (key_eqb k' k); reflexivity.
    + rewrite IH. destruct (key_eqb k0 k) eqn:E1; [|reflexivity].
      apply key_eqb_eq in E1. subst k0.
      destruct (key_eqb k' k) eqn:E2; [|reflexivity].
      apply key_eqb_eq in E2. subst k'. now rewrite key_eqb_refl in E0.
Qed.

Lemma get_or_empty_set (k k' : option string) (v : list Folder.t)
      (m : FolderMap) :
  get_or_empty k (map_set k' v m)
  = if key_eqb k' k then v else get_or_empty k m.
Proof.
  unfold get_or_empty. rewrite map_get_set. now destruct (key_eqb k' k).
Qed.

(** The first loop of [buildTree]: the group of a key grows by the folders
    that have it as parent, in their order. *)
Lemma group_loop (folders : list Folder.t) (k : option string) :
  forall m,
    get_or_empty k
      (fold_left
         (fun byParent folder =>
            map_set (Folder.parent_id folder)
                    (get_or_empty (Folder.parent_id folder) byParent
                     ++ [folder])
                    byParent)
         folders m)
    = get_or_empty k m
      ++ filter (fun f => key_eqb (Folder.parent_id f) k) folders.
Proof.
  induction folders as [|f folders IH]; intros m; simpl.
  - now rewrite app_nil_r.
  - rewrite IH, get_or_empty_set.
    destruct (key_eqb (Folder.parent_id f) k) eqn:E.
    + apply key_eqb_eq in E. subst k. now rewrite <- app_assoc.
    + reflexivity.
Qed.

Lemma map_get_sorted (g : list Folder.t -> list Folder.t)
      (k : option string) (m : FolderMap) :
  map_get k (map (fun kv => (fst kv, g (snd kv))) m)
  = option_map g (map_get k m).
Proof.
  induction m as [|[k0 v0] rest IH]; simpl; [reflexivity|].
  destruct (key_eqb k0 k); [reflexivity|exact IH].
Qed.

Variable localeCompare : string -> string -> Z.

Lemma buildTree_children (folders : list Folder.t) (k : option string) :
  get_or_empty k (buildTree localeCompare folders)
  = App.js_sort (byName localeCompare)
      (filter (fun f => key_eqb (Folder.parent_id f) k) folders).
Proof.
  unfold buildTree, get_or_empty at 1. rewrite map_get_sorted.
  pose proof (group_loop folders k []) as G.
  unfold get_or_empty at 1 3 in G. simpl in G.
  destruct (map_get k _) as [l|]; simpl; now rewrite <- G.
Qed.

Lemma buildTree_children_In (folders : list Folder.t) (k : option string)
      (c : Folder.t) :
  In c (get_or_empty k (buildTree localeCompare folders)) <->
  In c folders /\ Folder.parent_id c = k.
Proof.
  rewrite buildTree_children. split.
  - intros H. apply (Permutation_in _ (js_sort_perm _ _)) in H.
    apply filter_In in H. now rewrite key_eqb_eq in H.
  - intros [H1 H2].
    apply (Permutation_in _ (Permutation_sym (js_sort_perm _ _))).
    apply filter_In. now rewrite key_eqb_eq.
Qed.

(** [buildTree] groups and sorts. The children the tree holds for a key
    are exactly the folders that have this key as [parent_id], stably
    sorted by name; a key without folders has none. When the comparison of
    names is total the children are in order. *)
Theorem buildTree_groups_and_sorts (folders : list Folder.t)
        (k : option string) :
  get_or_empty k (buildTree localeCompare folders)
  = App.js_sort (byName localeCompare)
      (filter (fun f => key_eqb (Folder.parent_id f) k) folders) /\
  (forall c,
      In c (get_or_empty k (buildTree localeCompare folders)) <->
      In c folders /\ Folder.parent_id c = k) /\
  ((forall a b, localeCompare a b <= 0 \/ localeCompare b a <= 0) ->
   Sorted (fun a b => byName localeCompare a b <= 0)
          (get_or_empty k (buildTree localeCompare folders))).
Proof.
  split; [apply buildTree_children|split].
  - intros c. apply buildTree_children_In.
  - intros T. rewrite buildTree_children. apply js_sort_sorted.
    intros a b. apply T.
Qed.

End TreeFacts.

Section TreeRender.

Import Ui.

Variable localeCompare : string -> string -> Z.
Variable folders : list Folder.t.
Hypothesis unique_ids : NoDup (map Folder.id folders).
Variable selected : option string.

Let tree : FolderMap := buildTree localeCompare folders.

Let children (k : option string) : list Folder.t := get_or_empty k tree.

Lemma children_In (k : option string) (c : Folder.t) :
  In c (children k) <-> In c folders /\ Folder.parent_id c = k.
Proof. apply buildTree_children_In. Qed.

Lemma folders_NoDup : NoDup folders.
Proof. exact (NoDup_map_inv _ _ unique_ids). Qed.

Lemma children_NoDup (k : option string) : NoDup (children k).
Proof.
  unfold children, tree. rewrite buildTree_children.
  apply (Permutation_NoDup (Permutation_sym (js_sort_perm _ _))).
  apply NoDup_filter, folders_NoDup.
Qed.

Lemma id_injective (a b : Folder.t) :
  In a folders -> In b folders -> Folder.id a = Folder.id b -> a = b.
Proof.
  clear tree children. revert unique_ids.
  induction folders as [|x l IH]; intros U Ha Hb E; [destruct Ha|].
  simpl in U. inversion U as [|? ? Hx Hl]; subst.
  destruct Ha as [<-|Ha], Hb as [<-|Hb].
  - reflexivity.
  - exfalso. apply Hx. rewrite E. now apply in_map.
  - exfalso. apply Hx. rewrite <- E. now apply in_map.
  - now apply IH.
Qed.

Lemma level_In (f : Folder.t) (n : nat) :
  level_of folders f n -> In f folders.
Proof. now destruct 1. Qed.

Lemma level_unique (f : Folder.t) (n : nat) :
  level_of folders f n -> forall m, level_of folders f m -> n = m.
Proof.
  induction 1 as [f Hin Hp|f p n Hin Hp Hl IH]; intros m Hm.
  - destruct Hm as [|f p' m' _ Hp' _]; [reflexivity|congruence].
  - destruct Hm as [f _ Hp'|f p' m' _ Hp' Hl']; [congruence|].
    f_equal. apply IH.
    assert (p' = p) as <-; [|exact Hl'].
    apply id_injective; eauto using level_In. congruence.
Qed.

(** The folders from one at level [n] up to the root are [n] different
    folders. *)
Lemma level_chain (f : Folder.t) (n : nat) :
  level_of folders f n ->
  exists chain,
    List.length chain = n /\ NoDup chain /\ incl chain folders /\
    forall x, In x chain -> exists m, level_of folders x m /\ (m <= n)%nat.
Proof.
  induction 1 as [f Hin Hp|f p n Hin Hp Hl (chain & Len & Nd & Inc & Lv)].
  - exists [f]. repeat split.
    + repeat constructor. intros [].
    + intros x [<-|[]]. exact Hin.
    + intros x [<-|[]]. exists 1%nat. split; [now constructor|lia].
  - exists (f :: chain). repeat split.
    + simpl. now rewrite Len.
    + constructor; [|exact Nd]. intros K.
      destruct (Lv f K) as (m & Hm & Le).
      assert (E : S n = m)
        by (eapply level_unique; [eapply level_next; eauto|exact Hm]).
      lia.
    + intros x [<-|Hx]; [exact Hin|now apply Inc].
    + intros x [<-|Hx].
      * exists (S n). split; [eapply level_next; eauto|lia].
      * destruct (Lv x Hx) as (m & Hm & Le). exists m. split; [exact Hm|lia].
Qed.

Lemma level_bound (f : Folder.t) (n : nat) :
  level_of folders f n -> (n <= List.length folders)%nat.
Proof.
  intros H. destruct (level_chain H) as (chain & <- & Nd & Inc & _).
  now apply NoDup_incl_length.
Qed.

Lemma child_level (k : option string) (n : nat) (c : Folder.t) :
  key_level folders k n -> In c folders -> Folder.parent_id c = k ->
  level_of folders c (S n).
Proof.
  intros [[-> ->]|(p & Hp & -> & Hl)] Hc Hpc.
  - now constructor.
  - eapply level_next; eauto.
Qed.

Lemma under_level (k : option string) (n : nat) (x : Folder.t) :
  key_level folders k n -> under folders k x ->
  exists m, level_of folders x m /\ (n < m)%nat.
Proof.
  intros Hk. induction 1 as [c Hc Hp|c x Hu (m & Hm & Lt) Hx Hp].
  - exists (S n). split; [eapply child_level; eauto|lia].
  - exists (S m). split; [eapply level_next; eauto|lia].
Qed.

Lemma under_In (k : option string) (x : Folder.t) :
  under folders k x -> In x folders.
Proof. now destruct 1. Qed.

(** From the top: what lies under [k] is a child of [k] or lies under
    one. *)
Lemma under_top (k : option string) (x : Folder.t) :
  under folders k x <->
  exists c, In c folders /\ Folder.parent_id c = k /\
            (x = c \/ under folders (Some (Folder.id c)) x).
Proof.
  split.
  - induction 1 as [c Hc Hp|c x Hu (c0 & Hc0 & Hp0 & Hd) Hx Hp].
    + exists c. auto.
    + exists c0. repeat split; auto. right.
      destruct Hd as [->|Hd].
      * now apply under_child.
      * eapply under_deeper; eauto.
  - intros (c & Hc & Hp & [->|Hu]).
    + now apply under_child.
    + induction Hu as [y Hy Hpy|y z Hu IH Hz Hpz].
      * apply under_deeper with (c := c); [now apply under_child| |];
          assumption.
      * apply under_deeper with (c := y); assumption.
Qed.

(** A folder has one ancestor at each level. *)
Lemma block_unique (c1 c2 x : Folder.t) (n : nat) :
  level_of folders c1 n -> level_of folders c2 n ->
  x = c1 \/ under folders (Some (Folder.id c1)) x ->
  x = c2 \/ under folders (Some (Folder.id c2)) x ->
  c1 = c2.
Proof.
  intros L1 L2 H1 H2.
  assert (K1 : key_level folders (Some (Folder.id c1)) n)
    by (right; exists c1; eauto using level_In).
  assert (K2 : key_level folders (Some (Folder.id c2)) n)
    by (right; exists c2; eauto using level_In).
  assert (Above : forall c c' y,
             level_of folders c n -> level_of folders c' n ->
             key_level folders (Some (Folder.id c')) n ->
             y = c -> under folders (Some (Folder.id c')) y -> False).
  { intros c c' y Lc Lc' Kc' -> Hu.
    destruct (under_level Kc' Hu) as (m & Hm & Lt).
    pose proof (level_unique Lc Hm). lia. }
  destruct H1 as [->|H1].
  - destruct H2 as [->|H2]; [reflexivity|].
    exfalso. eapply (Above c1 c2); eauto.
  - destruct H2 as [->|H2].
    + exfalso. eapply (Above c2 c1); eauto.
    + revert H2. induction H1 as [y Hy Hpy|y z Hu IH Hz Hpz]; intros H2.
      * inversion H2 as [y' Hy' Hpy'|y' z' Hu' Hz' Hpz']; subst.
        -- apply id_injective; eauto using level_In. congruence.
        -- exfalso. assert (y' = c1) as ->.
           { apply id_injective; eauto using level_In, under_In.
             congruence. }
           eapply (Above c1 c2); eauto.
      * inversion H2 as [y' Hy' Hpy'|y' z' Hu' Hz' Hpz']; subst.
        -- exfalso. assert (y = c2) as ->.
           { apply id_injective; eauto using level_In, under_In.
             congruence. }
           eapply (Above c2 c1); eauto.
        -- apply IH. assert (y' = y) as ->; [|exact Hu'].
           apply id_injective; eauto using under_In. congruence.
Qed.

Lemma NoDup_flat_map_disjoint (A B : Type) (g : A -> list B) (l : list A) :
  NoDup l ->
  (forall a, In a l -> NoDup (g a)) ->
  (forall a b x, In a l -> In b l -> In x (g a) -> In x (g b) -> a = b) ->
  NoDup (flat_map g l).
Proof.
  induction 1 as [|a l Ha Hl IH]; intros Hg Hd; simpl; [constructor|].
  apply NoDup_app.
  - apply Hg. now left.
  - apply IH.
    + intros b Hb. apply Hg. now right.
    + intros b c x Hb Hc. apply Hd; now right.
  - intros x Hx Hx'. apply in_flat_map in Hx'.
    destruct Hx' as (b & Hb & Hxb).
    assert (a = b) by (eapply Hd; eauto; [now left|now right]).
    subst b. contradiction.
Qed.

(** The [map] of [renderFolderNodes], given what the nested calls
    return. *)
Lemma render_children (sub : Folder.t -> option (list TreeNode))
      (cs : list Folder.t) :
  (forall c, In c cs -> exists r, sub c = Some r) ->
  exists nodes,
    fold_right
      (fun folder rest =>
         match sub folder, rest with
         | Some nested, Some rest' =>
             Some (li folder (key_eqb selected (Some (Folder.id folder)))
                      nested :: rest')
         | _, _ => None
         end)
      (Some []) cs
    = Some nodes /\
    flat_map shown nodes
    = flat_map
        (fun c => c :: match sub c with
                       | Some r => flat_map shown r
                       | None => []
                       end)
        cs.
Proof.
  induction cs as [|c cs IH]; intros H; simpl.
  - exists []. auto.
  - destruct IH as (nodes & E & F); [intros c' Hc'; apply H; now right|].
    destruct (H c (or_introl eq_refl)) as (r & Hr).
    rewrite E, Hr. eexists. split; [reflexivity|].
    simpl. now rewrite F.
Qed.

Lemma render_spec (fuel : nat) :
  forall k n,
    key_level folders k n ->
    (List.length folders < fuel + n)%nat ->
    exists nodes,
      renderFolderNodes fuel tree selected k = Some nodes /\
      (forall x, In x (flat_map shown nodes) <-> under folders k x) /\
      NoDup (flat_map shown nodes).
Proof.
  induction fuel as [|fuel IH]; intros k n Hk Hn.
  - exfalso. destruct Hk as [[_ ->]|(p & _ & _ & Hl)]; [lia|].
    apply level_bound in Hl. lia.
  - assert (Sub : forall c,
               In c (children k) ->
               exists r,
                 renderFolderNodes fuel tree selected (Some (Folder.id c))
                 = Some r /\
                 (forall x, In x (flat_map shown r) <->
                            under folders (Some (Folder.id c)) x) /\
                 NoDup (flat_map shown r)).
    { intros c Hc. apply children_In in Hc. destruct Hc as [Hc Hp].
      apply (IH _ (S n)); [|lia].
      right. exists c. repeat split; auto. eapply child_level; eauto. }
    destruct (@render_children
                (fun folder =>
                   renderFolderNodes fuel tree selected
                                     (Some (Folder.id folder)))
                (children k))
      as (nodes & E & F).
    { intros c Hc. destruct (Sub c Hc) as (r & Hr & _). eauto. }
    exists nodes. split; [exact E|]. rewrite F. split.
    + intros x. rewrite in_flat_map, under_top. split.
      * intros (c & Hc & Hx). destruct (Sub c Hc) as (r & Hr & Hin & _).
        rewrite Hr in Hx. apply children_In in Hc. destruct Hc as [Hc Hp].
        exists c. repeat split; auto.
        destruct Hx as [<-|Hx]; [now left|right; now apply Hin].
      * intros (c & Hc & Hp & Hx).
        assert (Hc' : In c (children k)) by now apply children_In.
        destruct (Sub c Hc') as (r & Hr & Hin & _).
        exists c. split; [exact Hc'|]. rewrite Hr.
        destruct Hx as [->|Hx]; [now left|right; now apply Hin].
    + apply NoDup_flat_map_disjoint.
      * apply children_NoDup.
      * intros c Hc. destruct (Sub c Hc) as (r & Hr & Hin & Nd).
        rewrite Hr. constructor; [|exact Nd].
        intros K. apply Hin in K.
        apply children_In in Hc. destruct Hc as [Hc Hp].
        pose proof (@child_level _ _ _ Hk Hc Hp) as Lc.
        assert (Kc : key_level folders (Some (Folder.id c)) (S n))
          by (right; exists c; auto).
        destruct (under_level Kc K) as (m & Hm & Lt).
        pose proof (level_unique Lc Hm). lia.
      * intros a b x Ha Hb Hxa Hxb.
        destruct (Sub a Ha) as (ra & Hra & Hina & _).
        destruct (Sub b Hb) as (rb & Hrb & Hinb & _).
        rewrite Hra in Hxa. rewrite Hrb in Hxb.
        apply children_In in Ha, Hb.
        destruct Ha as [Ha Hpa], Hb as [Hb Hpb].
        apply (@block_unique a b x (S n)).
        -- eapply child_level; eauto.
        -- eapply child_level; eauto.
        -- destruct Hxa as [<-|Hxa]; [now left|right; now apply Hina].
        -- destruct Hxb as [<-|Hxb]; [now left|right; now apply Hinb].
Qed.

End TreeRender.

Section TreeShown.

Import Ui.

Variable localeCompare : string -> string -> Z.

(** The folder tree shows each connected folder once. When the folders
    that are not in the trash have different ids, [renderFolderNodes(null)]
    returns (its calls nest at most one deeper than there are folders), no
    folder is shown twice, and the folders shown are those that lie under
    the root: a folder is shown exactly when it has no parent, or its
    parent is a folder that is shown. A folder whose parent is missing or
    in the trash is not shown, nor is anything below it. *)
Theorem folder_tree_shows_connected (b : BootstrapState.t)
        (selected : option string) :
  NoDup (map Folder.id (filter folder_active (BootstrapState.folders b))) ->
  exists nodes,
    renderFolderNodes
      (S (List.length (filter folder_active (BootstrapState.folders b))))
      (folderTree localeCompare (Some b)) selected None
    = Some nodes /\
    NoDup (flat_map shown nodes) /\
    (forall x,
        In x (flat_map shown nodes) <->
        under (filter folder_active (BootstrapState.folders b)) None x) /\
    (forall x,
        In x (flat_map shown nodes) <->
        In x (BootstrapState.folders b) /\ folder_active x = true /\
        (Folder.parent_id x = None \/
         exists p, In p (flat_map shown nodes) /\
                   Folder.parent_id x = Some (Folder.id p))).
Proof.
  intros U. set (active := filter folder_active (BootstrapState.folders b)).
  destruct (@render_spec localeCompare active U selected
              (S (List.length active)) None O)
    as (nodes & E & Hin & Nd); [now left|lia|].
  exists nodes. split; [exact E|split; [exact Nd|split; [exact Hin|]]].
  intros x. rewrite Hin. split.
  - intros H. inversion H as [c Hc Hp|c y Hu Hy Hp]; subst.
    + apply filter_In in Hc. destruct Hc as [Hc Ha]. auto.
    + apply filter_In in Hy. destruct Hy as [Hy Ha].
      repeat split; auto. right. exists c. split; [now apply Hin|exact Hp].
  - intros (Hx & Ha & [Hp|(p & Hp & Hpp)]).
    + apply under_child; [|exact Hp]. now apply filter_In.
    + apply Hin in Hp. eapply under_deeper; eauto. now apply filter_In.
Qed.

End TreeShown.

Lemma folder_tree_shows_connected_witness :
  exists nodes,
    Ui.renderFolderNodes
      (S (List.length (filter Ui.folder_active
                              (Ui.BootstrapState.folders Ui.three_folders))))
      (Ui.folderTree Ui.compareNames (Some Ui.three_folders)) None None
    = Some nodes /\
    NoDup (flat_map Ui.shown nodes) /\
    (forall x,
        In x (flat_map Ui.shown nodes) <->
        Ui.under (filter Ui.folder_active
                         (Ui.BootstrapState.folders Ui.three_folders))
                 None x) /\
    (forall x,
        In x (flat_map Ui.shown nodes) <->
        In x (Ui.BootstrapState.folders Ui.three_folders) /\
        Ui.folder_active x = true /\
        (Ui.Folder.parent_id x = None \/
         exists p, In p (flat_map Ui.shown nodes) /\
                   Ui.Folder.parent_id x = Some (Ui.Folder.id p))).
Proof.
  apply (@folder_tree_shows_connected Ui.compareNames Ui.three_folders None).
  cbn. repeat constructor; cbn; intuition discriminate.
Defined.

(** The orphan of [three_folders] is not shown. *)
Example three_folders_rendered :
  option_map (flat_map Ui.shown)
    (Ui.renderFolderNodes 4
       (Ui.folderTree Ui.compareNames (Some Ui.three_folders)) None None)
  = Some [Ui.folder "calls" None;
          Ui.folder "sales" (Some "calls"%string)].
Proof. reflexivity. Qed.

(** ** [App.tsx]: the entry bundle *)

Section BundleFacts.

Import App Ui.

(** After a descending sort by a key, the first element carries a greatest
    key. *)
Lemma js_sort_first_greatest (A : Type) (key : A -> Z) (l : list A) :
  match js_sort (fun a b => key b - key a) l with
  | [] => l = []
  | h :: _ => forall y, In y l -> key y <= key h
  end.
Proof.
  induction l as [|x l IH]; simpl; [reflexivity|].
  destruct (js_sort (fun a b => key b - key a) l) as [|h rest] eqn:E; simpl.
  - subst l. intros y [<-|[]]. lia.
  - destruct (key h - key x <=? 0) eqn:C.
    + apply Z.leb_le in C. intros y [<-|Hy]; [lia|].
      specialize (IH y Hy). lia.
    + apply Z.leb_gt in C. intros y [<-|Hy]; [lia|]. now apply IH.
Qed.

Lemma byVersionDesc_total (a b : TranscriptRevision.t) :
  byVersionDesc a b <= 0 \/ byVersionDesc b a <= 0.
Proof. unfold byVersionDesc. lia. Qed.

Variable trim : string -> string.

(** Loading a bundle leaves the editor on the latest revisions. After
    [loadEntryBundle] the bundle held in the state has its transcript
    revisions sorted by descending version (the sort was done in place on
    the object that was stored); the transcript draft is the text of a
    revision of greatest version, or empty when there is none; the draft
    of every artifact type is the text of a revision of that type of
    greatest version, or empty when there is none; the language is never
    blank; and the memo [latestTranscript], which sorts the stored array
    again, finds it sorted, leaves it as it is and returns its first
    element. *)
Theorem loadEntryBundle_latest (bundle : EntryBundle.t) :
  exists sorted,
    entryBundle (loadEntryBundle trim bundle)
    = Some {| EntryBundle.transcript_revisions := sorted;
              EntryBundle.artifact_revisions :=
                EntryBundle.artifact_revisions bundle |} /\
    Permutation sorted (EntryBundle.transcript_revisions bundle) /\
    Sorted (fun a b => TranscriptRevision.version b
                       <= TranscriptRevision.version a) sorted /\
    latestTranscript (entryBundle (loadEntryBundle trim bundle))
    = (hd_error sorted, entryBundle (loadEntryBundle trim bundle)) /\
    match hd_error sorted with
    | Some r =>
        In r (EntryBundle.transcript_revisions bundle) /\
        (forall r', In r' (EntryBundle.transcript_revisions bundle) ->
                    TranscriptRevision.version r'
                    <= TranscriptRevision.version r) /\
        transcriptDraft (loadEntryBundle trim bundle)
        = TranscriptRevision.text r
    | None =>
        EntryBundle.transcript_revisions bundle = [] /\
        transcriptDraft (loadEntryBundle trim bundle) = EmptyString
    end /\
    transcriptionLanguage (loadEntryBundle trim bundle) <> EmptyString /\
    forall type,
      (exists r,
          In r (EntryBundle.artifact_revisions bundle) /\
          artifact_type r = type /\
          (forall r', In r' (EntryBundle.artifact_revisions bundle) ->
                      artifact_type r' = type -> version r' <= version r) /\
          artifactDrafts (loadEntryBundle trim bundle) type = text r)
      \/
      ((forall r, In r (EntryBundle.artifact_revisions bundle) ->
                  artifact_type r <> type) /\
       artifactDrafts (loadEntryBundle trim bundle) type = EmptyString).
Proof.
  set (revs := EntryBundle.transcript_revisions bundle).
  exists (js_sort byVersionDesc revs).
  pose proof (js_sort_perm byVersionDesc revs) as P.
  pose proof (js_sort_sorted byVersionDesc byVersionDesc_total revs) as Hs.
  pose proof (js_sort_first_greatest TranscriptRevision.version revs) as G.
  change (fun a b => TranscriptRevision.version b
                     - TranscriptRevision.version a)
    with byVersionDesc in G.
  split; [reflexivity|split; [exact P|split]].
  { eapply Sorted_ind with (P := fun l => Sorted _ l); [constructor| |exact Hs].
    intros a l _ IH Hd. constructor; [exact IH|].
    destruct Hd as [|b l' Hab]; constructor.
    unfold byVersionDesc in Hab. lia. }
  split.
  { unfold latestTranscript, loadEntryBundle. cbn [entryBundle].
    cbn [EntryBundle.transcript_revisions EntryBundle.artifact_revisions].
    fold revs. rewrite js_sort_idempotent by apply byVersionDesc_total.
    reflexivity. }
  split.
  { unfold loadEntryBundle, js_first. cbn [transcriptDraft]. fold revs.
    destruct (js_sort byVersionDesc revs) as [|h rest]; simpl.
    - now split.
    - repeat split; [|exact G].
      apply (Permutation_in _ P). now left. }
  split.
  { unfold loadEntryBundle. cbn [transcriptionLanguage]. fold revs.
    destruct (js_first _) as [r|]; [|discriminate].
    destruct (truthy (Some (TranscriptRevision.language r))) eqn:T; cbn;
      [|discriminate].
    destruct (String.length _); [discriminate|].
    cbn in T. apply negb_true_iff, String.eqb_neq in T. exact T. }
  intros type. unfold loadEntryBundle. cbn [artifactDrafts].
  unfold latestByType, js_first.
  set (sel := filter _ (EntryBundle.artifact_revisions bundle)).
  pose proof (js_sort_first_greatest version sel) as Hmax.
  pose proof (js_sort_perm (fun a b => version b - version a) sel) as Hperm.
  destruct (js_sort (fun a b => version b - version a) sel) as [|h rest];
    simpl.
  - right. split; [|reflexivity]. intros r Hin Hty.
    assert (Hsel : In r sel).
    { apply filter_In. split; [assumption|]. now apply ArtifactType_eqb_eq. }
    rewrite Hmax in Hsel. destruct Hsel.
  - left. exists h.
    assert (Hh : In h sel).
    { eapply Permutation_in; [exact Hperm | now left]. }
    apply filter_In in Hh. destruct Hh as [Hin Hty].
    apply ArtifactType_eqb_eq in Hty.
    repeat split; try assumption.
    intros r' Hin' Hty'. apply Hmax, filter_In.
    split; [assumption|]. now apply ArtifactType_eqb_eq.
Qed.

End BundleFacts.

(** ** [App.tsx]: the selection after a reload *)

Section ReloadFacts.

Import Ui.

Lemma firstFolderId_live (data : BootstrapState.t) :
  (forall sel, firstFolderId data = Some sel -> live_folder data sel) /\
  (firstFolderId data = None ->
   forall f, In f (BootstrapState.folders data) -> folder_active f = false).
Proof.
  unfold firstFolderId, live_folder.
  destruct (find folder_active (BootstrapState.folders data)) as [f|] eqn:F;
    cbn [option_map]; split.
  - intros sel [= <-]. apply find_some in F. exists f. tauto.
  - discriminate.
  - discriminate.
  - intros _ f Hf. exact (find_none _ _ F f Hf).
Qed.

Lemma live_folder_existsb (data : BootstrapState.t) (sel : string) :
  existsb (fun folder => String.eqb (Folder.id folder) sel
                         && folder_active folder)
          (BootstrapState.folders data) = true
  <-> live_folder data sel.
Proof.
  unfold live_folder. rewrite existsb_exists.
  split; intros (f & Hf & H); exists f; (split; [exact Hf|]).
  - apply andb_true_iff in H. destruct H as [Hi Ha].
    apply String.eqb_eq in Hi. tauto.
  - destruct H as [<- Ha]. now rewrite String.eqb_refl, Ha.
Qed.

Lemma live_entry_existsb (data : BootstrapState.t) (sel : string) :
  existsb (fun entry => String.eqb (Entry.id entry) sel
                        && negb (entry_deleted entry))
          (BootstrapState.entries data) = true
  <-> live_entry data sel.
Proof.
  unfold live_entry. rewrite existsb_exists.
  split; intros (e & He & H); exists e; (split; [exact He|]).
  - apply andb_true_iff in H. destruct H as [Hi Hd].
    apply String.eqb_eq in Hi. apply negb_true_iff in Hd. tauto.
  - destruct H as [<- Hd]. now rewrite String.eqb_refl, Hd.
Qed.

(** What [reloadBootstrap] does to the selection. The folder selection is
    left as it is exactly when the selection is kept and the folder the
    closure saw selected is a folder of the fresh state that is not in the
    trash; in every other case it becomes the first such folder ([null]
    only when there is none), also when another folder has been selected
    in the meantime. The entry selection and the bundle are left as they
    are exactly when the selection is kept and the closure saw no entry
    selected or one that is in the fresh state and not in the trash; in
    every other case both are cleared. So when the selection has not
    changed since the render the closure belongs to, the selection points
    at what is there after the call: the selected folder and a selected
    entry are in the fresh state and not in the trash. *)
Theorem reloadBootstrap_selection_valid (keepSelection : bool)
        (data : BootstrapState.t) (seen st : Shell) :
  bootstrap (reloadBootstrap keepSelection data seen st) = Some data /\
  ((keepSelection = true /\
    exists sel, selectedFolderId seen = Some sel /\ sel <> EmptyString /\
                live_folder data sel) ->
   selectedFolderId (reloadBootstrap keepSelection data seen st)
   = selectedFolderId st) /\
  (~ (keepSelection = true /\
      exists sel, selectedFolderId seen = Some sel /\ sel <> EmptyString /\
                  live_folder data sel) ->
   selectedFolderId (reloadBootstrap keepSelection data seen st)
   = firstFolderId data) /\
  ((forall sel, firstFolderId data = Some sel -> live_folder data sel) /\
   (firstFolderId data = None ->
    forall f, In f (BootstrapState.folders data) ->
              folder_active f = false)) /\
  ((keepSelection = true /\
    (truthy (selectedEntryId seen) = false \/
     exists sel, selectedEntryId seen = Some sel /\ live_entry data sel)) ->
   selectedEntryId (reloadBootstrap keepSelection data seen st)
   = selectedEntryId st /\
   shownBundle (reloadBootstrap keepSelection data seen st)
   = shownBundle st) /\
  (~ (keepSelection = true /\
      (truthy (selectedEntryId seen) = false \/
       exists sel, selectedEntryId seen = Some sel /\ live_entry data sel)) ->
   selectedEntryId (reloadBootstrap keepSelection data seen st) = None /\
   shownBundle (reloadBootstrap keepSelection data seen st) = None) /\
  (selectedFolderId st = selectedFolderId seen ->
   (forall sel,
       selectedFolderId (reloadBootstrap keepSelection data seen st)
       = Some sel ->
       live_folder data sel) /\
   (selectedFolderId (reloadBootstrap keepSelection data seen st) = None ->
    forall f, In f (BootstrapState.folders data) ->
              folder_active f = false)) /\
  (selectedEntryId st = selectedEntryId seen ->
   forall sel,
     selectedEntryId (reloadBootstrap keepSelection data seen st)
     = Some sel ->
     sel <> EmptyString -> live_entry data sel).
Proof.
  pose proof (firstFolderId_live data) as [First NoFirst].
  assert (F : (keepSelection = true /\
               exists sel, selectedFolderId seen = Some sel /\
                           sel <> EmptyString /\ live_folder data sel) /\
              selectedFolderId (reloadBootstrap keepSelection data seen st)
              = selectedFolderId st
              \/
              ~ (keepSelection = true /\
                 exists sel, selectedFolderId seen = Some sel /\
                             sel <> EmptyString /\ live_folder data sel) /\
              selectedFolderId (reloadBootstrap keepSelection data seen st)
              = firstFolderId data).
  { unfold reloadBootstrap. cbn [selectedFolderId]. fold (firstFolderId data).
    destruct keepSelection; cbn [negb];
      [|right; split; [intros [K _]; discriminate|reflexivity]].
    destruct (selectedFolderId seen) as [sel|] eqn:Sel; cbn [truthy];
      [|right; split; [intros (_ & x & K & _); discriminate|reflexivity]].
    destruct (String.eqb sel EmptyString) eqn:Es; cbn [negb].
    - apply String.eqb_eq in Es. right. split; [|reflexivity].
      intros (_ & x & [= <-] & N & _). contradiction.
    - apply String.eqb_neq in Es.
      destruct (existsb _ (BootstrapState.folders data)) eqn:Ex.
      + apply live_folder_existsb in Ex. left.
        split; [|reflexivity]. split; [reflexivity|]. eauto.
      + right. split; [|reflexivity].
        intros (_ & x & [= <-] & _ & L).
        apply live_folder_existsb in L. congruence. }
  assert (E : (keepSelection = true /\
               (truthy (selectedEntryId seen) = false \/
                exists sel, selectedEntryId seen = Some sel /\
                            live_entry data sel)) /\
              selectedEntryId (reloadBootstrap keepSelection data seen st)
              = selectedEntryId st /\
              shownBundle (reloadBootstrap keepSelection data seen st)
              = shownBundle st
              \/
              ~ (keepSelection = true /\
                 (truthy (selectedEntryId seen) = false \/
                  exists sel, selectedEntryId seen = Some sel /\
                              live_entry data sel)) /\
              selectedEntryId (reloadBootstrap keepSelection data seen st)
              = None /\
              shownBundle (reloadBootstrap keepSelection data seen st)
              = None).
  { unfold reloadBootstrap. cbn [selectedEntryId shownBundle].
    destruct keepSelection; cbn [negb orb];
      [|right; split; [intros [K _]; discriminate|split; reflexivity]].
    destruct (selectedEntryId seen) as [sel|] eqn:Sel; cbn [truthy andb];
      [|left; split; [split; [reflexivity|now left]|split; reflexivity]].
    destruct (existsb _ (BootstrapState.entries data)) eqn:Ex.
    - rewrite andb_false_r. apply live_entry_existsb in Ex. left.
      split; [|split; reflexivity]. split; [reflexivity|]. right. eauto.
    - rewrite andb_true_r.
      destruct (String.eqb sel EmptyString) eqn:Es; cbn [negb].
      + left. split; [|split; reflexivity]. split; [reflexivity|now left].
      + right. split; [|split; reflexivity].
        intros (_ & [K|(x & [= <-] & L)]); [discriminate|].
        apply live_entry_existsb in L. congruence. }
  split; [reflexivity|].
  split; [intros K; destruct F as [[_ F]|[N _]]; [exact F|contradiction]|].
  split; [intros K; destruct F as [[Y _]|[_ F]]; [contradiction|exact F]|].
  split; [exact (conj First NoFirst)|].
  split; [intros K; destruct E as [[_ E]|[N _]]; [exact E|contradiction]|].
  split; [intros K; destruct E as [[Y _]|[_ E]]; [contradiction|exact E]|].
  split.
  - intros Same. destruct F as [[(_ & x & Sx & _ & L) F]|[_ F]]; rewrite F.
    + rewrite Same, Sx. split; [intros sel [= <-]; exact L|discriminate].
    + split; [exact First|exact NoFirst].
  - intros Same sel. destruct E as [[(_ & K) (E & _)]|[_ (E & _)]];
      rewrite E; [|discriminate].
    rewrite Same. intros Sel Ne.
    destruct K as [K|(x & Sx & L)].
    + rewrite Sel in K. cbn [truthy] in K.
      apply negb_false_iff, String.eqb_eq in K. contradiction.
    + rewrite Sel in Sx. injection Sx as <-. exact L.
Qed.

(** A reload that overrides a click. The closure saw the folder [f2]
    selected; while the backend was answering, [f2] went to the trash and
    the user selected [f3]. The reload selects [f1]. *)
Example reloadBootstrap_overrides_click :
  selectedFolderId
    (reloadBootstrap true second_trashed (selecting "f2") (selecting "f3"))
  = Some "f1"%string /\
  live_folder second_trashed "f3".
Proof.
  split; [reflexivity|].
  exists (folder "f3" None). cbn. auto.
Qed.

End ReloadFacts.

(** ** [App.tsx]: [formatBytes] *)

Section FormatFacts.

Import Ui.

Lemma round_half_up (v d : Z) :
  0 < d ->
  Qfloor (inject_Z v / inject_Z d + (1 # 2))%Q = (2 * v + d) / (2 * d).
Proof.
  intros Hd.
  destruct d as [|p|p]; try lia.
  assert (E : (inject_Z v / inject_Z (Z.pos p) + (1 # 2)
               == (2 * v + Z.pos p) # (2 * p))%Q).
  { unfold Qeq, Qdiv, Qinv, Qmult, Qplus, inject_Z.
    cbn [Qnum Qden]. lia. }
  rewrite (Qfloor_comp _ _ E). reflexivity.
Qed.

(** [formatBytes] on a byte count. Below 1024 the count is printed as
    it is, in B. From 1024 on and below [1024 * 1024] it is printed in KB,
    as the whole number nearest to [value / 1024] (a half going up): from
    1 to 1024, the latter ("1024 KB") from 1048064 bytes on. From
    [1024 * 1024] on it is printed in MB with one decimal, the nearest
    tenth of [value / 1048576] (a half going up), which is at least 1.0. *)
Theorem formatBytes_spec (value : Z) :
  0 <= value < 9007199254740992 ->
  (value < 1024 ->
   formatBytes value = (number_toString value ++ " B")%string) /\
  (1024 <= value < 1048576 ->
   exists k,
     formatBytes value = (number_toString k ++ " KB")%string /\
     1 <= k <= 1024 /\
     1024 * k - 512 <= value < 1024 * k + 512 /\
     (k = 1024 <-> 1048064 <= value)) /\
  (1048576 <= value ->
   exists n,
     formatBytes value
     = ((number_toString (n / 10) ++ "." ++ number_toString (n mod 10))
        ++ " MB")%string /\
     10 <= n /\
     1048576 * n - 524288 <= 10 * value < 1048576 * n + 524288).
Proof.
  intros Hv. unfold formatBytes. split; [|split].
  - intros H. apply Z.ltb_lt in H. now rewrite H.
  - intros [H1 H2].
    replace (value <? 1024) with false by (symmetry; apply Z.ltb_ge; lia).
    replace (value <? 1024 * 1024) with true
      by (symmetry; apply Z.ltb_lt; lia).
    unfold Math_round.
    change 1024%Q with (inject_Z 1024).
    rewrite round_half_up by lia.
    set (k := (2 * value + 1024) / (2 * 1024)).
    assert (Hk : 2 * 1024 * k <= 2 * value + 1024 < 2 * 1024 * (k + 1)).
    { subst k.
      pose proof (Z.div_mod (2 * value + 1024) (2 * 1024) ltac:(lia)).
      pose proof (Z.mod_pos_bound (2 * value + 1024) (2 * 1024) ltac:(lia)).
      lia. }
    exists k. split; [reflexivity|]. repeat split; try lia.
  - intros H.
    replace (value <? 1024) with false by (symmetry; apply Z.ltb_ge; lia).
    replace (value <? 1024 * 1024) with false
      by (symmetry; apply Z.ltb_ge; lia).
    unfold toFixed1.
    set (n := Qfloor (inject_Z value / (1024 * 1024) * 10 + (1 # 2))%Q).
    assert (E : n = (2 * (10 * value) + 1048576) / (2 * 1048576)).
    { subst n. rewrite <- round_half_up by lia. apply Qfloor_comp.
      rewrite inject_Z_mult. change (inject_Z 10) with 10%Q.
      change (inject_Z 1048576) with (1024 * 1024)%Q. field. }
    assert (Hn : 2 * 1048576 * n <= 2 * (10 * value) + 1048576
                 < 2 * 1048576 * (n + 1)).
    { rewrite E.
      pose proof (Z.div_mod (2 * (10 * value) + 1048576) (2 * 1048576)
                            ltac:(lia)).
      pose proof (Z.mod_pos_bound (2 * (10 * value) + 1048576)
                                  (2 * 1048576) ltac:(lia)).
      lia. }
    exists n. split; [reflexivity|lia].
Qed.

Lemma formatBytes_spec_witness :
  (1048575 < 1024 ->
   formatBytes 1048575 = (number_toString 1048575 ++ " B")%string) /\
  (1024 <= 1048575 < 1048576 ->
   exists k,
     formatBytes 1048575 = (number_toString k ++ " KB")%string /\
     1 <= k <= 1024 /\
     1024 * k - 512 <= 1048575 < 1024 * k + 512 /\
     (k = 1024 <-> 1048064 <= 1048575)) /\
  (1048576 <= 1048575 ->
   exists n,
     formatBytes 1048575
     = ((number_toString (n / 10) ++ "." ++ number_toString (n mod 10))
        ++ " MB")%string /\
     10 <= n /\
     1048576 * n - 524288 <= 10 * 1048575 < 1048576 * n + 524288).
Proof.
  apply (@formatBytes_spec 1048575). lia.
Defined.

(** The last count printed in KB, the first printed in MB, and a count of
    one and a half MB. *)
Example formatBytes_examples :
  formatBytes 1048575 = "1024 KB"%string /\
  formatBytes 1048576 = "1.0 MB"%string /\
  formatBytes 1572864 = "1.5 MB"%string /\
  formatBytes 1023 = "1023 B"%string /\
  formatBytes 1536 = "2 KB"%string.
Proof. repeat split; reflexivity. Qed.

End FormatFacts.

(** ** [App.tsx]: the entries of a folder and the trash *)

Section EntryFacts.

Import App Ui.

Variable localeCompare : string -> string -> Z.

(** An entry is listed in its folder or in the trash, never in both. The
    entries listed for the selected folder are exactly the entries of this
    folder that are not in the trash (none when no folder is selected), in
    order of [created_at], newest first, when the comparison is total;
    the trash holds exactly the entries that are deleted, whatever their
    folder. *)
Theorem entries_listed_or_trashed (b : BootstrapState.t)
        (selected : option string) :
  (forall e,
      In e (activeEntries localeCompare (Some b) selected) <->
      In e (BootstrapState.entries b) /\
      selected = Some (Entry.folder_id e) /\
      Entry.folder_id e <> EmptyString /\
      entry_deleted e = false) /\
  (forall e,
      In e (trashedEntries (Some b)) <->
      In e (BootstrapState.entries b) /\ entry_deleted e = true) /\
  (forall e,
      In e (activeEntries localeCompare (Some b) selected) ->
      ~ In e (trashedEntries (Some b))) /\
  ((forall x y, localeCompare x y <= 0 \/ localeCompare y x <= 0) ->
   Sorted (fun x y => localeCompare (Entry.created_at y)
                                    (Entry.created_at x) <= 0)
          (activeEntries localeCompare (Some b) selected)).
Proof.
  assert (L : forall e,
             In e (activeEntries localeCompare (Some b) selected) <->
             In e (BootstrapState.entries b) /\
             selected = Some (Entry.folder_id e) /\
             Entry.folder_id e <> EmptyString /\
             entry_deleted e = false).
  { intros e. unfold activeEntries.
    destruct selected as [sel|]; [|split; [intros []|intros (_ & H & _)];
                                   discriminate].
    cbn [truthy]. destruct (String.eqb sel EmptyString) eqn:E; cbn [negb].
    - apply String.eqb_eq in E. subst sel.
      split; [intros []|]. intros (_ & H & N & _). congruence.
    - apply String.eqb_neq in E.
      split.
      + intros H.
        apply (Permutation_in _ (js_sort_perm _ _)) in H.
        apply filter_In in H. destruct H as [H1 H2].
        apply andb_true_iff in H2. destruct H2 as [H2 H3].
        apply String.eqb_eq in H2. apply negb_true_iff in H3.
        repeat split; congruence.
      + intros (H1 & H2 & _ & H3).
        apply (Permutation_in _ (Permutation_sym (js_sort_perm _ _))).
        apply filter_In. split; [exact H1|].
        injection H2 as ->. rewrite String.eqb_refl, H3. reflexivity. }
  assert (T : forall e,
             In e (trashedEntries (Some b)) <->
             In e (BootstrapState.entries b) /\ entry_deleted e = true).
  { intros e. unfold trashedEntries. apply filter_In. }
  split; [exact L|]. split; [exact T|]. split.
  - intros e H1 H2. apply L in H1. apply T in H2.
    destruct H1 as (_ & _ & _ & H1). destruct H2 as [_ H2]. congruence.
  - intros Tot. unfold activeEntries.
    destruct selected as [sel|]; [|constructor].
    destruct (negb (truthy (Some sel))); [constructor|].
    apply (@js_sort_sorted _
             (fun x y => localeCompare (Entry.created_at y)
                                       (Entry.created_at x))).
    intros x y. apply Tot.
Qed.

End EntryFacts.
